(** * PasswordGenerator: a shallow embedding of src/utils/PasswordGenerator.ts

    The TypeScript class [PasswordGenerator] keeps a small configuration
    (requested length, strength ordinal, four character-class toggles, the
    symbol string) next to handles on the page, and builds a password by
    repeated calls to [Math.random].

    The embedding follows the source function by function.

    - A JavaScript integer is a [Z]; the result of [Math.random()] is a
      rational [u] with [0 <= u < 1].  The product [Math.random() * k] is
      the product of two doubles: the double nearest to the exact product,
      the one with an even last bit when two are as near.
      [Math.round] of it is the nearest integer, halves going up.
    - The sequence of results of [Math.random()] is a list of rationals
      given to the run.  A run that needs one more draw than it was given
      is [Starved]: it is still running when the draws end.  A run that
      is [Starved] on every finite prefix of an infinite sequence never
      returns on that sequence.
    - [this] and the page are explicit state; a [TypeError] is an outcome of
      its own; every indexed read [a[i]] is recorded in a history of
      accesses (ghost state) so that bounds can be stated.
    - The calls [copyToClipboard] makes on the browser are the value it
      returns; the callbacks handed to [setTimeout] wait in a list on the
      page.  A session is the module loaded on a page, followed by
      listeners running on events, timers firing and the user changing the
      controls, in any order. *)

From Stdlib Require Import ZArith QArith Qround Lqa Lia List Bool String Ascii.
From Stdlib Require Import DecimalString.
From ExtLib Require Import Structures.Monad.
Import ListNotations.
Import MonadNotation.

Local Open Scope monad_scope.
Local Open Scope string_scope.
Local Open Scope Z_scope.

(** ** Numbers and random draws *)

(** [Math.round]: the nearest integer, halves going up. *)
Definition Math_round (x : Q) : Z := Qfloor (x + (1 # 2))%Q.

(** 2^e, for an exponent of either sign. *)
Definition pow2 (e : Z) : Q :=
  if 0 <=? e then inject_Z (2 ^ e) else 1 # Z.to_pos (2 ^ (- e)).

(** The integer nearest to [y]; the even one of the two when [y] is half
    way between them. *)
Definition round_half_even (y : Q) : Z :=
  let f := Qfloor y in
  match (y - inject_Z f ?= 1 # 2)%Q with
  | Lt => f
  | Gt => f + 1
  | Eq => if Z.even f then f else f + 1
  end.

(** The exponent [e] with 2^e <= x < 2^(e+1), for [x > 0]. *)
Definition binade (x : Q) : Z :=
  let e := Z.log2 (Qnum x) - Z.log2 (Zpos (Qden x)) in
  if Qle_bool (pow2 e) x then e else e - 1.

(** The spacing of the doubles around [x > 0]: 53 significant bits, and
    the spacing 2^-1074 of the subnormal numbers below 2^-1022. *)
Definition ulp (x : Q) : Q := pow2 (Z.max (binade x) (-1022) - 52).

Definition nearest_double_pos (x : Q) : Q :=
  (inject_Z (round_half_even (x / ulp x)) * ulp x)%Q.

(** The result of an operation on doubles whose exact result is [x]: the
    double nearest to [x], ties to the even one (the rounding of IEEE 754
    that JavaScript uses).  No result here reaches the range where a double
    overflows. *)
Definition nearest_double (x : Q) : Q :=
  match (x ?= 0)%Q with
  | Eq => 0%Q
  | Gt => nearest_double_pos x
  | Lt => (- nearest_double_pos (- x))%Q
  end.

(** [Math.round(Math.random() * k)] when [Math.random()] yields the double
    [u]. *)
Definition randomInt (k : Z) (u : Q) : Z :=
  Math_round (nearest_double (u * inject_Z k)).

(** What [Math.random()] may return: a double that is at least 0 and
    below 1.  What is proved of the draws in this range is proved of every
    rational in it, the doubles among them. *)
Definition unit_draw (u : Q) : Prop := (0 <= u)%Q /\ (u < 1)%Q.

Definition Draws : Type := list Q.

(** An infinite sequence of draws, and the [n] draws it makes from position
    [p] on. *)
Definition DrawSeq : Type := nat -> Q.

Definition segment (s : DrawSeq) (p n : nat) : Draws := map s (seq p n).

(** ** The data of the source *)

(** enum PasswordStrengths { weak, medium, strong, veryStrong } *)
Inductive PasswordStrengths : Type := weak | medium | strong | veryStrong.

Definition ordinal (s : PasswordStrengths) : Z :=
  match s with weak => 0 | medium => 1 | strong => 2 | veryStrong => 3 end.

(** One entry of the table [strengthProbs]. *)
Record StrengthProb : Type := mkStrengthProb {
  number : Z;
  symbol : Z;
  letter : Z;
  barColor : string
}.

Definition strengthProbs : list StrengthProb :=
  [ mkStrengthProb 90 5 100 "green";
    mkStrengthProb 80 20 75 "yellow";
    mkStrengthProb 60 40 30 "orange";
    mkStrengthProb 10 80 10 "red" ].

(** A strength bar of the page: [value] is [parseInt(asInput.value)], with
    [None] for NaN; [backgroundColor] is [style.backgroundColor]. *)
Record Level : Type := mkLevel {
  value : option Z;
  backgroundColor : string
}.

(** A callback handed to [setTimeout], with its delay. *)
Inductive Task : Type :=
| RemoveClass (delay : Z) (class : string).

(** The part of [DomElements] the class reads and writes. *)
Record DomElements : Type := mkDom {
  strengthLevels : list Level;
  passRes : string;               (* passRes.textContent *)
  passLength : string;            (* passLength.textContent *)
  lengthSlider : option Z;        (* parseInt(lengthSlider.value), None for NaN *)
  lengthSliderText : string;      (* lengthSlider.value *)
  strengthDesc : string;          (* strengthDesc.textContent *)
  passContainer : list string;    (* passContainer.classList *)
  checkboxes : list bool;         (* checkboxes[i].checked *)
  timers : list Task              (* callbacks scheduled by setTimeout *)
}.

(** The fields of [PasswordGenerator]. [charLength] is [None] when it is
    NaN. *)
Record PasswordGenerator : Type := mkGen {
  charLength : option Z;
  dom : DomElements;
  symbols : string;
  passwordParts : list bool;
  strengthTitles : list string;
  strength : Z
}.

(** private symbols: string = "/[!@#$%^&*()_+\-=\[\]{};':\\|,.<>\/?]+/"
    The escapes of the JavaScript literal are resolved: [\-] is [-], [\[] is
    [[], [\]] is []], [\\] is one backslash and [\/] is [/]. *)
Definition symbols_literal : string := "/[!@#$%^&*()_+-=[]{};':\|,.<>/?]+/".

Definition strengthTitles_literal : list string :=
  ["WEAK"; "MEDIUM"; "STRONG"; "EXTREME"].

(** ** Indexed reads and their history *)

Inductive ArrayName : Type :=
| A_strengthProbs | A_passwordParts | A_symbols | A_strengthTitles | A_checkboxes.

(** One read [a[i]] of an array (or string) of length [len]. *)
Record Access : Type := mkAccess {
  arr : ArrayName;
  idx : Z;
  len : nat
}.

Definition in_bounds (a : Access) : bool :=
  (0 <=? idx a) && (idx a <? Z.of_nat (len a)).

(** [a[i]] on an array: [None] is [undefined]. *)
Definition js_index {A : Type} (l : list A) (i : Z) : option A :=
  if i <? 0 then None else nth_error l (Z.to_nat i).

(** [s[i]] on a string: a string of one character, or [undefined]. *)
Definition js_char_at (s : string) (i : Z) : option string :=
  if i <? 0 then None
  else match String.get (Z.to_nat i) s with
       | Some c => Some (String c EmptyString)
       | None => None
       end.

(** What the run sees and changes: the object and the history of reads. *)
Record World : Type := mkWorld {
  this : PasswordGenerator;
  accesses : list Access
}.

(** ** Effects *)

Inductive JsError : Type := TypeError.

(** State and exceptions, no randomness. *)
Inductive Res (A : Type) : Type :=
| Ok (a : A)
| Err (e : JsError).
Arguments Ok {A} a.
Arguments Err {A} e.

Definition Eff (A : Type) : Type := World -> Res A * World.

#[export] Instance Monad_Eff : Monad Eff := {
  ret := fun A (a : A) w => (Ok a, w);
  bind := fun A B (m : Eff A) (k : A -> Eff B) w =>
    match m w with
    | (Ok a, w') => k a w'
    | (Err e, w') => (Err e, w')
    end
}.

(** State, exceptions and draws. *)
Inductive Outcome (A : Type) : Type :=
| Returned (a : A) (w : World) (rest : Draws)
| Thrown (e : JsError) (w : World)
| Starved (w : World).
Arguments Returned {A} a w rest.
Arguments Thrown {A} e w.
Arguments Starved {A} w.

Definition M (A : Type) : Type := World -> Draws -> Outcome A.

#[export] Instance Monad_M : Monad M := {
  ret := fun A (a : A) w d => Returned a w d;
  bind := fun A B (m : M A) (k : A -> M B) w d =>
    match m w d with
    | Returned a w' d' => k a w' d'
    | Thrown e w' => Thrown e w'
    | Starved w' => Starved w'
    end
}.

(** A computation without draws, inside one with draws. *)
Definition lift {A : Type} (e : Eff A) : M A :=
  fun w d => match e w with
             | (Ok a, w') => Returned a w' d
             | (Err e, w') => Thrown e w'
             end.

(** [Math.random()]: the next draw. *)
Definition random : M Q :=
  fun w d => match d with
             | [] => Starved w
             | u :: rest => Returned u w rest
             end.

Definition throw {A : Type} (e : JsError) : Eff A := fun w => (Err e, w).

Definition getThis : Eff PasswordGenerator := fun w => (Ok (this w), w).

Definition modifyThis (f : PasswordGenerator -> PasswordGenerator) : Eff unit :=
  fun w => (Ok tt, mkWorld (f (this w)) (accesses w)).

Definition record (a : Access) : Eff unit :=
  fun w => (Ok tt, mkWorld (this w) (accesses w ++ [a])).

Definition world_of {A : Type} (o : Outcome A) : World :=
  match o with
  | Returned _ w _ => w
  | Thrown _ w => w
  | Starved w => w
  end.

(** ** Strings *)

(** [String.fromCharCode(n)] for a code below 256, the only ones the class
    builds (97 + a value in 0..25). *)
Definition fromCharCode (n : Z) : string :=
  String (ascii_of_N (Z.to_N n)) EmptyString.

(** [toUpperCase] on ASCII text: a..z lose 32, every other character of the
    ASCII range is kept. *)
Definition upper_ascii (c : ascii) : ascii :=
  let n := N_of_ascii c in
  if ((97 <=? n) && (n <=? 122))%N then ascii_of_N (n - 32) else c.

Fixpoint toUpperCase (s : string) : string :=
  match s with
  | EmptyString => EmptyString
  | String c s' => String (upper_ascii c) (toUpperCase s')
  end.

(** [n.toString()] for an integer: its decimal digits. *)
Definition toString (n : Z) : string := NilZero.string_of_int (Z.to_int n).

(** [password += v] where [v] may be [undefined]. *)
Definition js_text (v : option string) : string :=
  match v with
  | Some s => s
  | None => "undefined"
  end.

(** [v === ""] where [v] may be [undefined]. *)
Definition js_is_empty (v : option string) : bool :=
  match v with
  | Some s => (s =? "")%string
  | None => false
  end.

(** ** Reads of the three tables *)

(** [this.passwordParts[i]] *)
Definition read_passwordParts (i : Z) : Eff (option bool) :=
  g <- getThis ;;
  record (mkAccess A_passwordParts i (List.length (passwordParts g))) ;;
  ret (js_index (passwordParts g) i).

(** Truthiness of a boolean or [undefined]. *)
Definition truthy (v : option bool) : bool :=
  match v with
  | Some b => b
  | None => false
  end.

Definition part (i : Z) : Eff bool :=
  v <- read_passwordParts i ;; ret (truthy v).

Definition not_part (i : Z) : Eff bool :=
  v <- read_passwordParts i ;; ret (negb (truthy v)).

(** [strengthProbs[i]] followed by a property read: a TypeError when the
    entry is [undefined]. *)
Definition read_strengthProbs (i : Z) : Eff StrengthProb :=
  record (mkAccess A_strengthProbs i (List.length strengthProbs)) ;;
  match js_index strengthProbs i with
  | Some p => ret p
  | None => throw TypeError
  end.

(** [this.symbols[i]] *)
Definition read_symbols (i : Z) : Eff (option string) :=
  g <- getThis ;;
  record (mkAccess A_symbols i (String.length (symbols g))) ;;
  ret (js_char_at (symbols g) i).

(** [a && b] and [a || b]: [b] is evaluated only when it decides. *)
Definition andE (a b : Eff bool) : Eff bool :=
  x <- a ;; if x then b else ret false.

Definition orE (a b : Eff bool) : Eff bool :=
  x <- a ;; if x then ret true else b.

(** ** Loops that draw *)

(** [while (guard(s)) { u = Math.random(); s = body(u, s) }]: every turn
    makes one draw.  The recursion is on the draws that are left. *)
Fixpoint while_ {St : Type} (guard : St -> Eff bool) (body : Q -> St -> Eff St)
    (s : St) (w : World) (d : Draws) {struct d} : Outcome St :=
  match guard s w with
  | (Err e, w1) => Thrown e w1
  | (Ok false, w1) => Returned s w1 d
  | (Ok true, w1) =>
      match d with
      | [] => Starved w1
      | u :: rest =>
          match body u s w1 with
          | (Err e, w2) => Thrown e w2
          | (Ok s', w2) => while_ guard body s' w2 rest
          end
      end
  end.

(** ** chooseLetter *)

(** let choice = Math.round(Math.random());
    while (!this.passwordParts[choice]) choice = Math.round(Math.random()); *)
Definition chooseLetter_while (choice : Z) : M Z :=
  while_ not_part (fun u _ => ret (randomInt 1 u)) choice.

Definition chooseLetter : M string :=
  neither <- lift (andE (not_part 0) (not_part 1)) ;;
  if (neither : bool) then ret ""
  else
    u <- random ;;
    choice <- chooseLetter_while (randomInt 1 u) ;;
    u' <- random ;;
    let randomLetter := fromCharCode (97 + randomInt 25 u') in
    ret (if choice =? 1 then randomLetter else toUpperCase randomLetter).

(** ** chooseNumOrSymbol *)

(** The test that breaks the loop:
    (choice <= strengthProbs[this.strength].symbol && this.passwordParts[3])
    || (choice > strengthProbs[this.strength].symbol && this.passwordParts[2]) *)
Definition accepted (choice : Z) : Eff bool :=
  g <- getThis ;;
  orE (andE (p <- read_strengthProbs (strength g) ;; ret (choice <=? symbol p))
            (part 3))
      (andE (p <- read_strengthProbs (strength g) ;; ret (choice >? symbol p))
            (part 2)).

(** while (true) { choice = Math.round(Math.random() * 99); if (...) break; }
    The state of the loop is [choice] and whether [break] was reached. *)
Definition chooseNumOrSymbol_while (choice : Z) : M (Z * bool) :=
  while_ (fun s : Z * bool => ret (negb (snd s)))
         (fun u _ => let c := randomInt 99 u in
                     b <- accepted c ;; ret (c, (b : bool)))
         (choice, false).

Definition chooseNumOrSymbol : M (option string) :=
  u0 <- random ;;
  neither <- lift (andE (not_part 2) (not_part 3)) ;;
  if (neither : bool) then ret (Some "")
  else
    s <- chooseNumOrSymbol_while (randomInt 99 u0) ;;
    let choice := fst s in
    g <- lift getThis ;;
    p <- lift (read_strengthProbs (strength g)) ;;
    if choice <=? symbol p then
      v <- random ;;
      let symbolIndex :=
        randomInt (Z.of_nat (String.length (symbols g)) - 1) v in
      lift (read_symbols symbolIndex)
    else
      v <- random ;;
      let randomNum := randomInt 9 v in
      ret (Some (toString randomNum)).

(** ** generatePassword *)

(** The turns of [for (let i = 0; i < this.charLength; i++)]. *)
Definition iterations (charLength : option Z) : nat :=
  match charLength with
  | Some n => Z.to_nat n
  | None => O
  end.

Fixpoint generatePassword_for (n : nat) (password : string) : M string :=
  match n with
  | O => ret password
  | S n' =>
      letterChosen <- chooseLetter ;;
      numOrSymbol <- chooseNumOrSymbol ;;
      u <- random ;;
      let choice := randomInt 99 u in
      g <- lift getThis ;;
      p <- lift (read_strengthProbs (strength g)) ;;
      if ((choice <=? letter p) && negb (letterChosen =? "")%string)
         || js_is_empty numOrSymbol
      then generatePassword_for n' (password ++ letterChosen)
      else generatePassword_for n' (password ++ js_text numOrSymbol)
  end.

Definition set_dom (f : DomElements -> DomElements) (g : PasswordGenerator)
    : PasswordGenerator :=
  mkGen (charLength g) (f (dom g)) (symbols g) (passwordParts g)
        (strengthTitles g) (strength g).

Definition set_passRes (t : string) (d : DomElements) : DomElements :=
  mkDom (strengthLevels d) t (passLength d) (lengthSlider d)
        (lengthSliderText d) (strengthDesc d) (passContainer d)
        (checkboxes d) (timers d).

(** [classList.add(c)]: a class is listed once. *)
Definition classList_add (c : string) (d : DomElements) : DomElements :=
  mkDom (strengthLevels d) (passRes d) (passLength d) (lengthSlider d)
        (lengthSliderText d) (strengthDesc d)
        (if existsb (String.eqb c) (passContainer d) then passContainer d
         else passContainer d ++ [c])
        (checkboxes d) (timers d).

Definition setTimeout (t : Task) (d : DomElements) : DomElements :=
  mkDom (strengthLevels d) (passRes d) (passLength d) (lengthSlider d)
        (lengthSliderText d) (strengthDesc d) (passContainer d)
        (checkboxes d) (timers d ++ [t]).

Definition generatePassword : M unit :=
  g <- lift getThis ;;
  password <- generatePassword_for (iterations (charLength g)) "" ;;
  lift (modifyThis (set_dom (set_passRes password))) ;;
  lift (modifyThis (set_dom (classList_add "outputted"))) ;;
  lift (modifyThis (set_dom (setTimeout (RemoveClass 250 "outputted")))).

(** ** setPasswordStrength *)

(** Assigning a string or [undefined] to [textContent]: [undefined] leaves
    no text. *)
Definition text_of (v : option string) : string :=
  match v with
  | Some s => s
  | None => ""
  end.

Definition set_strengthDesc (t : string) (d : DomElements) : DomElements :=
  mkDom (strengthLevels d) (passRes d) (passLength d) (lengthSlider d)
        (lengthSliderText d) t (passContainer d) (checkboxes d) (timers d).

Definition set_strength (s : Z) (g : PasswordGenerator) : PasswordGenerator :=
  mkGen (charLength g) (dom g) (symbols g) (passwordParts g)
        (strengthTitles g) s.

(** [l[i] = x] for [i] inside [l]. *)
Fixpoint update_nth {A : Type} (i : nat) (x : A) (l : list A) : list A :=
  match l, i with
  | [], _ => []
  | _ :: t, O => x :: t
  | h :: t, S i' => h :: update_nth i' x t
  end.

(** [asInput.style.backgroundColor = c] on the bar at index [i]. *)
Definition set_backgroundColor (i : nat) (c : string) (d : DomElements)
    : DomElements :=
  mkDom (match nth_error (strengthLevels d) i with
         | Some l => update_nth i (mkLevel (value l) c) (strengthLevels d)
         | None => strengthLevels d
         end)
        (passRes d) (passLength d) (lengthSlider d) (lengthSliderText d)
        (strengthDesc d) (passContainer d) (checkboxes d) (timers d).

(** [a <= b] where [a] may be NaN: false on NaN. *)
Definition nan_leb (a : option Z) (b : Z) : bool :=
  match a with
  | Some x => x <=? b
  | None => false
  end.

(** [l.forEach(f)], the callback taking the element and its index. *)
Fixpoint forEach_from {A : Type} (i : nat) (l : list A)
    (f : A -> nat -> Eff unit) : Eff unit :=
  match l with
  | [] => ret tt
  | x :: l' => f x i ;; forEach_from (S i) l' f
  end.

Definition forEach {A : Type} (l : list A) (f : A -> nat -> Eff unit)
    : Eff unit :=
  forEach_from O l f.

Definition setPasswordStrength (strength' : Z) : Eff unit :=
  g <- getThis ;;
  record (mkAccess A_strengthTitles strength' (List.length (strengthTitles g))) ;;
  modifyThis (set_dom (set_strengthDesc
                         (text_of (js_index (strengthTitles g) strength')))) ;;
  modifyThis (set_strength strength') ;;
  forEach (strengthLevels (dom g)) (fun level i =>
    g' <- getThis ;;
    if nan_leb (value level) (strength g') then
      p <- read_strengthProbs (strength g') ;;
      modifyThis (set_dom (set_backgroundColor i (barColor p)))
    else
      modifyThis (set_dom (set_backgroundColor i ""))).

(** ** setCharacterLength, selectCheckBox and the constructor *)

Definition set_charLength (n : option Z) (g : PasswordGenerator)
    : PasswordGenerator :=
  mkGen n (dom g) (symbols g) (passwordParts g) (strengthTitles g) (strength g).

Definition set_passLength (t : string) (d : DomElements) : DomElements :=
  mkDom (strengthLevels d) (passRes d) t (lengthSlider d)
        (lengthSliderText d) (strengthDesc d) (passContainer d)
        (checkboxes d) (timers d).

Definition setCharacterLength : Eff unit :=
  g <- getThis ;;
  modifyThis (set_charLength (lengthSlider (dom g))) ;;
  modifyThis (set_dom (set_passLength (lengthSliderText (dom g)))).

Definition set_passwordParts (l : list bool) (g : PasswordGenerator)
    : PasswordGenerator :=
  mkGen (charLength g) (dom g) (symbols g) l (strengthTitles g) (strength g).

(** [this.dom.checkboxes[i].checked]: a TypeError when there is no such
    checkbox. *)
Definition read_checkbox (i : nat) : Eff bool :=
  g <- getThis ;;
  record (mkAccess A_checkboxes (Z.of_nat i) (List.length (checkboxes (dom g)))) ;;
  match nth_error (checkboxes (dom g)) i with
  | Some b => ret b
  | None => throw TypeError
  end.

Definition selectCheckBox : Eff unit :=
  g <- getThis ;;
  forEach (passwordParts g) (fun _ i =>
    selected <- read_checkbox i ;;
    g' <- getThis ;;
    modifyThis (set_passwordParts (update_nth i (selected : bool) (passwordParts g')))).

(** [new PasswordGenerator(charLength, dom)]: the field initialisers, then
    the body of the constructor. *)
Definition constructor (charLength0 : Z) (dom0 : DomElements) : Res unit * World :=
  (setPasswordStrength 1 ;; setCharacterLength ;; selectCheckBox)
    (mkWorld (mkGen (Some charLength0) dom0 symbols_literal
                    [false; false; false; false]
                    strengthTitles_literal (ordinal medium))
             []).

(** ** Running a call *)

(** The text a run of [generatePassword] left in [passRes], when it
    returned. *)
Definition generated (o : Outcome unit) : option string :=
  match o with
  | Returned _ w _ => Some (passRes (dom (this w)))
  | _ => None
  end.

(** The configuration, as opposed to the page. *)
Definition config (w : World) : option Z * Z * list bool * string :=
  (charLength (this w), strength (this w), passwordParts (this w),
   symbols (this w)).

(** ** copyToClipboard *)

(** The calls [copyToClipboard] makes on the browser. *)
Inductive BrowserCall : Type :=
| clipboard_writeText (text : string)
| alert (message : string).

(** const copyPass = this.dom.passRes.textContent;
    if (copyPass) { navigator.clipboard.writeText(copyPass); alert(...) }
    A text is truthy when it is not empty.  The calls made on the browser
    are returned, in the order they are made; the object and the page are
    only read. *)
Definition copyToClipboard : Eff (list BrowserCall) :=
  g <- getThis ;;
  let copyPass := passRes (dom g) in
  if (copyPass =? "")%string then ret []
  else ret [clipboard_writeText copyPass;
            alert "Copied the password to clipboard!"].

(** ** The callback of [setTimeout] *)

(** [classList.remove(c)] *)
Definition classList_remove (c : string) (d : DomElements) : DomElements :=
  mkDom (strengthLevels d) (passRes d) (passLength d) (lengthSlider d)
        (lengthSliderText d) (strengthDesc d)
        (filter (fun x => negb (String.eqb c x)) (passContainer d))
        (checkboxes d) (timers d).

(** The body of a scheduled callback:
    () => this.dom.passContainer.classList.remove('outputted') *)
Definition run_task (t : Task) : Eff unit :=
  match t with
  | RemoveClass _ c => modifyThis (set_dom (classList_remove c))
  end.

Definition set_timers (l : list Task) (d : DomElements) : DomElements :=
  mkDom (strengthLevels d) (passRes d) (passLength d) (lengthSlider d)
        (lengthSliderText d) (strengthDesc d) (passContainer d)
        (checkboxes d) l.

(** A timer fires: the callback scheduled first leaves the list and runs.
    The class schedules every callback with the same delay, so they fire in
    the order they were scheduled. *)
Definition timeout : Eff unit :=
  g <- getThis ;;
  match timers (dom g) with
  | [] => ret tt
  | t :: rest => modifyThis (set_dom (set_timers rest)) ;; run_task t
  end.

(** ** The listeners *)

(** The events the module listens to.  The listener of a strength bar is
    [setPasswordStrength] bound to [parseInt(level.value)], read when the
    listener is added: [level_click n] is a click on a bar for which that
    number is [n].  A bar whose value is not a number binds NaN, which no
    [Z] stands for: there is no event for a click on such a bar, and the
    sessions below are those of pages on which every bar has a number for
    value. *)
Inductive Event : Type :=
| checkbox_click
| level_click (n : Z)
| slider_input
| generatePass_click
| clipboard_click.

(** What runs on an event, with the calls it makes on the browser. *)
Definition listener (e : Event) : M (list BrowserCall) :=
  match e with
  | checkbox_click => lift selectCheckBox ;; ret []
  | level_click n => lift (setPasswordStrength n) ;; ret []
  | slider_input => lift setCharacterLength ;; ret []
  | generatePass_click => generatePassword ;; ret []
  | clipboard_click => lift copyToClipboard
  end.

(** The listeners the module adds when it is loaded on a page [d] on which
    every bar has a number for value: one for each checkbox, one for each
    strength bar, and one each for the slider, the button and the clipboard
    icon. *)
Definition listening (d : DomElements) (e : Event) : Prop :=
  match e with
  | checkbox_click => checkboxes d <> []
  | level_click n => exists l, In l (strengthLevels d) /\ value l = Some n
  | _ => True
  end.

(** ** What the user does to the controls *)

Definition set_checkboxes (l : list bool) (d : DomElements) : DomElements :=
  mkDom (strengthLevels d) (passRes d) (passLength d) (lengthSlider d)
        (lengthSliderText d) (strengthDesc d) (passContainer d) l (timers d).

Definition set_lengthSlider (n : option Z) (text : string) (d : DomElements)
    : DomElements :=
  mkDom (strengthLevels d) (passRes d) (passLength d) n text
        (strengthDesc d) (passContainer d) (checkboxes d) (timers d).

(** The user ticks or unticks the checkbox at index [i], or moves the
    slider: [text] is its new value and [n] is [parseInt] of it. *)
Inductive UserInput : Type :=
| tick (i : nat) (checked : bool)
| slide (n : option Z) (text : string).

Definition user_input (a : UserInput) (d : DomElements) : DomElements :=
  match a with
  | tick i checked => set_checkboxes (update_nth i checked (checkboxes d)) d
  | slide n text => set_lengthSlider n text d
  end.

(** * What is stated of the model *)

(** ** Classes, tables and characters *)

(** Whether the class at index [i] of [passwordParts] is switched on. *)
Definition enabled (g : PasswordGenerator) (i : Z) : bool :=
  truthy (js_index (passwordParts g) i).

Definition none_enabled (g : PasswordGenerator) : Prop :=
  enabled g 0 = false /\ enabled g 1 = false /\
  enabled g 2 = false /\ enabled g 3 = false.

(** The entry of [strengthProbs] for a strength of the enumeration. *)
Definition profile (lvl : PasswordStrengths) : StrengthProb :=
  nth (Z.to_nat (ordinal lvl)) strengthProbs (mkStrengthProb 0 0 0 "").

(** An ordinal of the enumeration. *)
Definition valid_ordinal (n : Z) : bool := (0 <=? n) && (n <=? 3).

(** The only cause of a TypeError while generating. *)
Definition invalid_strength (g : PasswordGenerator) : Prop :=
  js_index strengthProbs (strength g) = None.

(** The value of the test that breaks the loop of [chooseNumOrSymbol]. *)
Definition accepts (p : StrengthProb) (g : PasswordGenerator) (choice : Z)
    : bool :=
  ((choice <=? symbol p) && enabled g 3) || ((choice >? symbol p) && enabled g 2).

(** The index [chooseNumOrSymbol] reads [symbols] at, for the draw [v]. *)
Definition symbolIndex (g : PasswordGenerator) (v : Q) : Z :=
  randomInt (Z.of_nat (String.length (symbols g)) - 1) v.

Definition code (c : ascii) : Z := Z.of_N (N_of_ascii c).

Definition is_digit (c : ascii) : bool := (48 <=? code c) && (code c <=? 57).

Definition is_upper (c : ascii) : bool := (65 <=? code c) && (code c <=? 90).

Definition is_lower (c : ascii) : bool := (97 <=? code c) && (code c <=? 122).

Definition is_letter (c : ascii) : bool := is_upper c || is_lower c.

(** A character of the symbol string. *)
Definition is_symbol (c : ascii) : bool :=
  existsb (Ascii.eqb c) (list_ascii_of_string symbols_literal).

(** A character of the class at index 0 (uppercase), 1 (lowercase),
    2 (numbers) or 3 (symbols), that class being switched on. *)
Definition char_ok (g : PasswordGenerator) (c : ascii) : Prop :=
  (is_upper c = true /\ enabled g 0 = true) \/
  (is_lower c = true /\ enabled g 1 = true) \/
  (is_digit c = true /\ enabled g 2 = true) \/
  (is_symbol c = true /\ enabled g 3 = true).

(** ** Outcomes *)

(** Whether a call came to an end on the draws it was given. *)
Definition ended {A : Type} (o : Outcome A) : bool :=
  match o with
  | Starved _ => false
  | _ => true
  end.

(** The value a call returned. *)
Definition value_of {A : Type} (o : Outcome A) : option A :=
  match o with
  | Returned a _ _ => Some a
  | _ => None
  end.

Definition is_err {A : Type} (r : Res A) : bool :=
  match r with
  | Err _ => true
  | Ok _ => false
  end.

(** The call returns [a], leaves the draws [rest] and the object as it
    was. *)
Definition yields {A : Type} (m : M A) (w : World) (d : Draws) (a : A)
    (rest : Draws) : Prop :=
  exists w', m w d = Returned a w' rest /\ this w' = this w.

(** More draws do not change a call that returned. *)
Definition extends {A : Type} (m : M A) : Prop :=
  forall w d a w' r e,
    m w d = Returned a w' r -> m w (d ++ e)%list = Returned a w' (r ++ e)%list.

(** The configuration is the same after the call, however it ends. *)
Definition ekeeps {A : Type} (e : Eff A) : Prop :=
  forall w, config (snd (e w)) = config w.

Definition keeps {A : Type} (m : M A) : Prop :=
  forall w d, config (world_of (m w d)) = config w.

(** ** Invariants of a run *)

(** The object is [g] during the run, and [P] holds of every read made. *)
Definition Inv (g : PasswordGenerator) (P : Access -> Prop) (w : World)
    : Prop :=
  this w = g /\ Forall P (accesses w).

(** A property of every read. *)
Definition any_access (a : Access) : Prop := True.

(** [e] keeps [Inv], returns values in [Q], throws only on
    [invalid_strength]. *)
Definition etriple (g : PasswordGenerator) (P : Access -> Prop) {A : Type}
    (e : Eff A) (Q : A -> Prop) : Prop :=
  forall w, Inv g P w ->
    match e w with
    | (Ok a, w') => Q a /\ Inv g P w'
    | (Err _, w') => invalid_strength g /\ Inv g P w'
    end.

(** The same for a computation that draws, on draws that [Math.random()]
    can make. *)
Definition triple (g : PasswordGenerator) (P : Access -> Prop) {A : Type}
    (m : M A) (Q : A -> Prop) : Prop :=
  forall w d, Inv g P w -> Forall unit_draw d ->
    match m w d with
    | Returned a w' rest => Q a /\ Inv g P w' /\ Forall unit_draw rest
    | Thrown _ w' => invalid_strength g /\ Inv g P w'
    | Starved w' => Inv g P w'
    end.

(** ** What the calls return *)

(** A letter of an enabled case. *)
Definition letter_piece (g : PasswordGenerator) (t : string) : Prop :=
  exists n, 0 <= n <= 25 /\
    ((enabled g 0 = true /\ t = toUpperCase (fromCharCode (97 + n))) \/
     (enabled g 1 = true /\ t = fromCharCode (97 + n))).

(** The character of [symbols] at the index drawn, symbols being enabled. *)
Definition symbol_piece (g : PasswordGenerator) (v : option string) : Prop :=
  enabled g 3 = true /\
  exists x, unit_draw x /\ v = js_char_at (symbols g) (symbolIndex g x).

(** A digit, numbers being enabled. *)
Definition digit_piece (g : PasswordGenerator) (v : option string) : Prop :=
  enabled g 2 = true /\ exists n, 0 <= n <= 9 /\ v = Some (toString n).

(** What [chooseLetter] returns. *)
Definition letter_result (g : PasswordGenerator) (t : string) : Prop :=
  (enabled g 0 = false /\ enabled g 1 = false /\ t = "") \/ letter_piece g t.

(** What [chooseNumOrSymbol] returns. *)
Definition numOrSymbol_result (g : PasswordGenerator) (v : option string)
    : Prop :=
  (enabled g 2 = false /\ enabled g 3 = false /\ v = Some "") \/
  symbol_piece g v \/ digit_piece g v.

(** What one turn of the loop of [generatePassword] appends. *)
Definition piece (g : PasswordGenerator) (t : string) : Prop :=
  (enabled g 0 = false /\ enabled g 1 = false /\ enabled g 2 = false /\
   enabled g 3 = false /\ t = "") \/
  letter_piece g t \/
  (exists v, symbol_piece g v /\ t = js_text v) \/
  (exists v, digit_piece g v /\ t = js_text v).

(** The pieces appended by the turns of the loop, put together. *)
Definition join (pieces : list string) : string :=
  fold_right String.append "" pieces.

(** What [chooseNumOrSymbol] returns, from the accepted draw [u] and the
    draw [v] that follows it. *)
Definition numOrSymbol_of (lvl : PasswordStrengths) (u v : Q)
    : option string :=
  if randomInt 99 u <=? symbol (profile lvl)
  then js_char_at symbols_literal (randomInt 33 v)
  else Some (toString (randomInt 9 v)).

(** The callback that [setPasswordStrength] hands to [forEach]. *)
Definition paint_level (level : Level) (i : nat) : Eff unit :=
  g' <- getThis ;;
  if nan_leb (value level) (strength g') then
    p <- read_strengthProbs (strength g') ;;
    modifyThis (set_dom (set_backgroundColor i (barColor p)))
  else
    modifyThis (set_dom (set_backgroundColor i "")).

(** ** Runs on an infinite sequence of draws *)

(** From position [p] of the sequence, the call comes to an end after
    finitely many draws: it returns a value in [Q] and leaves the object as
    it was, or it throws. *)
Definition halts (g : PasswordGenerator) (s : DrawSeq) {A : Type} (m : M A)
    (Q : A -> Prop) (w : World) (p : nat) : Prop :=
  exists k,
    match m w (segment s p k) with
    | Returned a w' rest => rest = [] /\ Q a /\ this w' = g
    | Thrown _ _ => True
    | Starved _ => False
    end.

Definition live (g : PasswordGenerator) (s : DrawSeq) {A : Type} (m : M A)
    (Q : A -> Prop) : Prop :=
  forall w p, this w = g -> halts g s m Q w p.

(** Draws that end the loops keep occurring in the sequence: a draw that
    picks a letter case that is switched on, when one is; a draw that falls
    on the side of an enabled class, when numbers or symbols are on. *)
Definition fair (g : PasswordGenerator) (s : DrawSeq) : Prop :=
  (enabled g 0 || enabled g 1 = true ->
   forall p, exists q, (p <= q)%nat /\ enabled g (randomInt 1 (s q)) = true) /\
  (enabled g 2 || enabled g 3 = true ->
   forall p, exists q, (p <= q)%nat /\
     forall pr, js_index strengthProbs (strength g) = Some pr ->
                accepts pr g (randomInt 99 (s q)) = true).

(** The sequence 0, 127/128, 0, 127/128, ... *)
Definition alternating : DrawSeq :=
  fun i => if Nat.even i then 0%Q else (127 # 128)%Q.

(** ** Shares of the draws *)

(** How far the edge of a band of draws can be from the edge computed with
    the exact product: the double product of a draw and a number below 128
    is within 2^-46 of the exact one. *)
Definition slack : Q := 1 # Z.to_pos (2 ^ 45).

(** The draws on which the value sampled by [chooseNumOrSymbol] falls in
    the symbol band are those below this bound, (2 * symbol + 1) / 198, up
    to [slack]. *)
Definition symbolProbability (lvl : PasswordStrengths) : Q :=
  (2 * symbol (profile lvl) + 1) # 198.

(** ** A page to run on *)

(** A page with four strength bars valued 0 to 3, a slider at [n] and the
    four checkboxes as given. *)
Definition example_page (n : Z) (checks : list bool) : DomElements :=
  mkDom [mkLevel (Some 0) ""; mkLevel (Some 1) ""; mkLevel (Some 2) "";
         mkLevel (Some 3) ""]
        "" "" (Some n) (toString n) "" [] checks [].

(** The state after [new PasswordGenerator(7, dom)] on that page. *)
Definition started (n : Z) (checks : list bool) : World :=
  snd (constructor 7 (example_page n checks)).

(** The object after the constructor ran on a page where only the symbols
    checkbox is ticked and the slider is at 1. *)
Definition symbols_only : PasswordGenerator :=
  Eval vm_compute in this (started 1 [false; false; false; true]).

(** The same with only the uppercase checkbox ticked. *)
Definition uppercase_only : PasswordGenerator :=
  Eval vm_compute in this (started 1 [true; false; false; false]).

(** The same with only the numbers checkbox ticked. *)
Definition numbers_only : PasswordGenerator :=
  Eval vm_compute in this (started 1 [false; false; true; false]).

(** The same with numbers and symbols ticked. *)
Definition numbers_and_symbols : PasswordGenerator :=
  Eval vm_compute in this (started 1 [false; false; true; true]).

(** The same after [setPasswordStrength(0)], and after
    [setPasswordStrength(3)]. *)
Definition weak_numbers_and_symbols : PasswordGenerator :=
  Eval vm_compute in
    this (snd (setPasswordStrength 0 (mkWorld numbers_and_symbols []))).

Definition veryStrong_numbers_and_symbols : PasswordGenerator :=
  Eval vm_compute in
    this (snd (setPasswordStrength 3 (mkWorld numbers_and_symbols []))).

(** The object after the constructor ran on a page where uppercase and
    numbers are ticked and the slider is at 2. *)
Definition capitals_and_digits : PasswordGenerator :=
  Eval vm_compute in this (started 2 [true; false; true; false]).

(** The same with lowercase and numbers ticked. *)
Definition lowercase_and_digits : PasswordGenerator :=
  Eval vm_compute in this (started 1 [false; true; true; false]).

(** The state after the constructor ran on a page where only the symbols
    checkbox is ticked and [setPasswordStrength(-1)] was called. *)
Definition symbols_only_unchecked : World :=
  Eval vm_compute in
    snd (setPasswordStrength (-1) (started 1 [false; false; false; true])).

(** The state after the constructor ran on a page where no checkbox is
    ticked and the slider is at 7, and [setPasswordStrength(-1)] was
    called. *)
Definition none_unchecked : World :=
  Eval vm_compute in
    snd (setPasswordStrength (-1) (started 7 [false; false; false; false])).

(** [chooseNumOrSymbol] with only numbers enabled, on a first draw that is
    discarded, the draw 127/128 that the loop accepts (value 98), and [v]. *)
Definition digit_for (v : Q) : option (option string) :=
  value_of (chooseNumOrSymbol (mkWorld numbers_only [])
                              [0; 127 # 128; v]%Q).

(** ** The page after a call *)

Definition set_strengthLevels (l : list Level) (d : DomElements) : DomElements :=
  mkDom l (passRes d) (passLength d) (lengthSlider d) (lengthSliderText d)
        (strengthDesc d) (passContainer d) (checkboxes d) (timers d).

(** A bar as [setPasswordStrength] leaves it for the strength [lvl]: the
    colour of the strength when the value of the bar is at most its ordinal,
    no colour otherwise. *)
Definition painted (lvl : PasswordStrengths) (l : Level) : Level :=
  mkLevel (value l)
          (if nan_leb (value l) (ordinal lvl) then barColor (profile lvl)
           else "").

(** The body of the loop of [selectCheckBox]. *)
Definition copy_checkbox (_ : bool) (i : nat) : Eff unit :=
  selected <- read_checkbox i ;;
  g' <- getThis ;;
  modifyThis (set_passwordParts (update_nth i (selected : bool) (passwordParts g'))).

(** Whether the turn [j] of the loop of [selectCheckBox], run for [n] turns
    from the index [i] on, finds a checkbox to copy. *)
Definition copies (i n : nat) (boxes : list bool) (j : nat) : bool :=
  (i <=? j)%nat && (j <? i + n)%nat && (j <? List.length boxes)%nat.

(** What [generatePassword] does to the page once the text is built. *)
Definition show (password : string) (d : DomElements) : DomElements :=
  setTimeout (RemoveClass 250 "outputted")
             (classList_add "outputted" (set_passRes password d)).

(** The fields of the object that no method assigns after the constructor,
    the four toggles and a strength of the enumeration. *)
Definition well_formed (g : PasswordGenerator) : Prop :=
  symbols g = symbols_literal /\
  strengthTitles g = strengthTitles_literal /\
  List.length (passwordParts g) = 4%nat /\
  exists lvl, strength g = ordinal lvl.

(** The value of every bar of the page is a number, not NaN. *)
Definition bars_numbered (d : DomElements) : Prop :=
  Forall (fun l => value l <> None) (strengthLevels d).

(** The value of every bar of the page is a number of the enumeration:
    0, 1, 2 or 3. *)
Definition bars_valid (d : DomElements) : Prop :=
  Forall (fun l => exists n, value l = Some n /\ valid_ordinal n = true)
         (strengthLevels d).

(** The states of a session on a page [d0] on which every bar has a number
    for value: the module is loaded, then listeners run on events (with
    draws of [Math.random()]), timers fire and the user changes the
    controls, in any order. *)
Inductive reachable (d0 : DomElements) : World -> Prop :=
| reach_new w :
    bars_numbered d0 -> constructor 7 d0 = (Ok tt, w) -> reachable d0 w
| reach_event w e d :
    reachable d0 w -> listening d0 e -> Forall unit_draw d ->
    reachable d0 (world_of (listener e w d))
| reach_timeout w :
    reachable d0 w -> reachable d0 (snd (timeout w))
| reach_input w a :
    reachable d0 w ->
    reachable d0 (mkWorld (set_dom (user_input a) (this w)) (accesses w)).

(** What a step of a session keeps of the object [g] in [g']: the symbol
    string, the titles, the numbers of toggles and of checkboxes. *)
Definition same_shape (g g' : PasswordGenerator) : Prop :=
  symbols g' = symbols g /\
  strengthTitles g' = strengthTitles g /\
  List.length (passwordParts g') = List.length (passwordParts g) /\
  List.length (checkboxes (dom g')) = List.length (checkboxes (dom g)).

(** Whether the class 'outputted' is on the container. *)
Definition flashing (g : PasswordGenerator) : bool :=
  existsb (String.eqb "outputted") (passContainer (dom g)).

(** Every pending callback is the one [generatePassword] schedules, and
    the class 'outputted' is on the container only while one is pending. *)
Definition flash_ends (g : PasswordGenerator) : Prop :=
  Forall (eq (RemoveClass 250 "outputted")) (timers (dom g)) /\
  (flashing g = true -> timers (dom g) <> []).

(** ** Letters and the choice between a letter and the other character *)

(** What [chooseLetter] returns, from the draw [u] that picks an enabled
    case and the draw [v] that follows it. *)
Definition letter_of (u v : Q) : string :=
  let randomLetter := fromCharCode (97 + randomInt 25 v) in
  if randomInt 1 u =? 1 then randomLetter else toUpperCase randomLetter.

(** The draws on which the value sampled by [generatePassword] is at most
    the letter percentage are those below this bound,
    (2 * letter + 1) / 198, up to [slack]. *)
Definition letterProbability (lvl : PasswordStrengths) : Q :=
  (2 * letter (profile lvl) + 1) # 198.

(** ** A session to run *)

(** The state after the module is loaded on a page with the four
    checkboxes ticked and the slider at 2. *)
Definition loaded : World :=
  Eval vm_compute in started 2 [true; true; true; true].

(** Then the bar of value 3 is clicked. *)
Definition clicked : World :=
  Eval vm_compute in world_of (listener (level_click 3) loaded []).

(** Draws for two positions with the four classes on: six for each. *)
Definition two_turns : Draws :=
  [0; 1 # 2; 0; 1 # 8; 1 # 2; 0;
   7 # 8; 0; 0; 7 # 8; 1 # 2; 7 # 8]%Q.

(** Then the button is clicked. *)
Definition shown : World :=
  Eval vm_compute in world_of (listener generatePass_click clicked two_turns).

(** The object of [loaded] after [setPasswordStrength(0)]. *)
Definition weakest : PasswordGenerator :=
  Eval vm_compute in this (snd (setPasswordStrength 0 loaded)).

(** The state after [generatePassword] ran on [capitals_and_digits]. *)
Definition capitals_and_digits_shown : World :=
  Eval vm_compute in
    world_of (generatePassword (mkWorld capitals_and_digits [])
                [0; 1 # 2; 0; 127 # 128; 0; 0;
                 0; 0; 0; 127 # 128; 1 # 2; 127 # 128]%Q).


(** * Properties *)

(** ** Rounding *)

Lemma Math_round_bounds (x : Q) (v : Z) :
  Math_round x = v <-> (inject_Z v - (1#2) <= x /\ x < inject_Z v + (1#2))%Q.
Proof.
  unfold Math_round. split.
  - intros <-. pose proof (Qfloor_le (x + (1#2))) as H1.
    pose proof (Qlt_floor (x + (1#2))) as H2.
    rewrite inject_Z_plus in H2. change (inject_Z 1) with 1%Q in H2.
    split; lra.
  - intros [H1 H2].
    assert (Ha : v <= Qfloor (x + (1#2))).
    { rewrite <- (Qfloor_Z v). apply Qfloor_resp_le. lra. }
    assert (Hb : Qfloor (x + (1#2)) < v + 1).
    { rewrite Zlt_Qlt. eapply Qle_lt_trans; [apply Qfloor_le|].
      rewrite inject_Z_plus. change (inject_Z 1) with 1%Q. lra. }
    lia.
Qed.

Lemma Math_round_le (x : Q) (v : Z) :
  Math_round x <= v <-> (x < inject_Z v + (1#2))%Q.
Proof.
  split; intros H.
  - destruct (proj1 (Math_round_bounds x _) eq_refl) as [_ H2].
    rewrite Zle_Qle in H. lra.
  - destruct (proj1 (Math_round_bounds x _) eq_refl) as [H1 _].
    assert (Hlt : (inject_Z (Math_round x) < inject_Z (v + 1))%Q).
    { rewrite inject_Z_plus. change (inject_Z 1) with 1%Q. lra. }
    rewrite <- Zlt_Qlt in Hlt. lia.
Qed.

(** ** The nearest double *)

Lemma pow2_pos (e : Z) : (0 < pow2 e)%Q.
Proof.
  unfold pow2. destruct (0 <=? e) eqn:E.
  - apply Z.leb_le in E. change 0%Q with (inject_Z 0). rewrite <- Zlt_Qlt.
    apply Z.pow_pos_nonneg; lia.
  - reflexivity.
Qed.

Lemma pow2_neg (e : Z) :
  e < 0 -> (pow2 e * inject_Z (2 ^ (- e)) == 1)%Q.
Proof.
  intros He. unfold pow2.
  replace (0 <=? e) with false by (symmetry; apply Z.leb_gt; exact He).
  assert (Hp : 0 < 2 ^ (- e)) by (apply Z.pow_pos_nonneg; lia).
  unfold Qeq, Qmult, inject_Z. cbn [Qnum Qden].
  rewrite Pos.mul_1_r, Z2Pos.id by exact Hp. lia.
Qed.

Lemma round_half_even_near (y : Q) :
  (inject_Z (round_half_even y) - (1 # 2) <= y /\
   y <= inject_Z (round_half_even y) + (1 # 2))%Q.
Proof.
  unfold round_half_even.
  pose proof (Qfloor_le y) as H1. pose proof (Qlt_floor y) as H2.
  rewrite inject_Z_plus in H2. change (inject_Z 1) with 1%Q in H2.
  destruct (y - inject_Z (Qfloor y) ?= 1 # 2)%Q eqn:E.
  - apply Qeq_alt in E.
    destruct (Z.even (Qfloor y)); rewrite ?inject_Z_plus;
      change (inject_Z 1) with 1%Q; split; lra.
  - apply Qlt_alt in E. split; lra.
  - apply Qgt_alt in E. rewrite inject_Z_plus. change (inject_Z 1) with 1%Q.
    split; lra.
Qed.

Lemma round_half_even_ge (y : Q) (n : Z) :
  (inject_Z n <= y)%Q -> n <= round_half_even y.
Proof.
  intros H. assert (Hf : n <= Qfloor y).
  { rewrite <- (Qfloor_Z n). now apply Qfloor_resp_le. }
  unfold round_half_even.
  destruct (y - inject_Z (Qfloor y) ?= 1 # 2)%Q;
    [destruct (Z.even (Qfloor y)) | |]; lia.
Qed.

Lemma round_half_even_le (y : Q) (n : Z) :
  (y <= inject_Z n)%Q -> round_half_even y <= n.
Proof.
  intros H. pose proof (Qfloor_le y) as H1.
  assert (Hf : Qfloor y <= n).
  { rewrite Zle_Qle. lra. }
  unfold round_half_even.
  destruct (Z.eq_dec (Qfloor y) n) as [He | Hne].
  - assert (E : (y - inject_Z (Qfloor y) ?= 1 # 2)%Q = Lt).
    { rewrite <- Qlt_alt, He. lra. }
    rewrite E. lia.
  - destruct (y - inject_Z (Qfloor y) ?= 1 # 2)%Q;
      [destruct (Z.even (Qfloor y)) | |]; lia.
Qed.

(** Below 128 the doubles are at most 2^-45 apart. *)
Lemma ulp_exponent (x : Q) :
  (0 < x)%Q -> (x < 128)%Q -> Z.max (binade x) (-1022) - 52 <= -45.
Proof.
  intros H0 H1.
  assert (He : binade x <= Z.log2 (Qnum x) - Z.log2 (Zpos (Qden x))).
  { unfold binade. destruct (Qle_bool _ x); lia. }
  assert (Hn : Qnum x < Zpos (Qden x) * 2 ^ 7).
  { unfold Qlt in H1. cbn in H1. lia. }
  assert (Hl : Z.log2 (Qnum x) <= Z.log2 (Zpos (Qden x) * 2 ^ 7)).
  { apply Z.log2_le_mono. lia. }
  rewrite Z.log2_mul_pow2 in Hl by lia. lia.
Qed.

Section Nearest.
Variable x : Q.
Hypothesis x_pos : (0 < x)%Q.
Hypothesis x_small : (x < 128)%Q.

Lemma ulp_small : (ulp x <= 1 # Z.to_pos (2 ^ 45))%Q.
Proof.
  pose proof (ulp_exponent x x_pos x_small) as Hq. unfold ulp, pow2.
  set (q := Z.max (binade x) (-1022) - 52) in *.
  replace (0 <=? q) with false by (symmetry; apply Z.leb_gt; lia).
  assert (Hp : 2 ^ 45 <= 2 ^ (- q)) by (apply Z.pow_le_mono_r; lia).
  unfold Qle. cbn [Qnum Qden]. rewrite !Z2Pos.id by lia. lia.
Qed.

(** A multiple of 1/2 is a whole number of spacings. *)
Lemma half_on_grid (m : Z) :
  exists n, (inject_Z m * (1 # 2) == inject_Z n * ulp x)%Q.
Proof.
  pose proof (ulp_exponent x x_pos x_small) as Hq. unfold ulp.
  set (q := Z.max (binade x) (-1022) - 52) in *.
  exists (m * 2 ^ (- q - 1)).
  pose proof (pow2_neg q ltac:(lia)) as Hp.
  replace (- q) with (Z.succ (- q - 1)) in Hp by lia.
  rewrite Z.pow_succ_r in Hp by lia.
  rewrite inject_Z_mult in Hp |- *. change (inject_Z 2) with 2%Q in Hp.
  set (t := inject_Z (2 ^ (- q - 1))) in *. set (p := pow2 q) in *.
  setoid_replace (inject_Z m * t * p)%Q
    with (inject_Z m * (p * (2 * t)) * (1 # 2))%Q by ring.
  rewrite Hp. ring.
Qed.

Lemma nearest_double_pos_eq :
  nearest_double x = nearest_double_pos x.
Proof.
  unfold nearest_double. apply Qgt_alt in x_pos. now rewrite x_pos.
Qed.

Lemma nearest_double_ge (m : Z) :
  (inject_Z m * (1 # 2) <= x)%Q -> (inject_Z m * (1 # 2) <= nearest_double x)%Q.
Proof.
  intros H. rewrite nearest_double_pos_eq. unfold nearest_double_pos.
  destruct (half_on_grid m) as [n Hn]. pose proof (pow2_pos (Z.max (binade x) (-1022) - 52)) as Hp.
  fold (ulp x) in Hp. rewrite Hn in H |- *.
  apply Qmult_le_compat_r; [| lra].
  rewrite <- Zle_Qle. apply round_half_even_ge.
  apply Qle_shift_div_l; assumption.
Qed.

Lemma nearest_double_le (m : Z) :
  (x <= inject_Z m * (1 # 2))%Q -> (nearest_double x <= inject_Z m * (1 # 2))%Q.
Proof.
  intros H. rewrite nearest_double_pos_eq. unfold nearest_double_pos.
  destruct (half_on_grid m) as [n Hn]. pose proof (pow2_pos (Z.max (binade x) (-1022) - 52)) as Hp.
  fold (ulp x) in Hp. rewrite Hn in H |- *.
  apply Qmult_le_compat_r; [| lra].
  rewrite <- Zle_Qle. apply round_half_even_le.
  apply Qle_shift_div_r; assumption.
Qed.

Lemma nearest_double_near :
  (nearest_double x - ((1 # 2) * slack) <= x /\ x <= nearest_double x + ((1 # 2) * slack))%Q.
Proof.
  rewrite nearest_double_pos_eq. unfold nearest_double_pos.
  pose proof (pow2_pos (Z.max (binade x) (-1022) - 52)) as Hp.
  fold (ulp x) in Hp. pose proof ulp_small as Hs. fold slack in Hs.
  destruct (round_half_even_near (x / ulp x)) as [H1 H2].
  set (r := inject_Z (round_half_even (x / ulp x))) in *.
  assert (Hx : (x == (x / ulp x) * ulp x)%Q) by (field; lra).
  assert (Ha : ((r - (1 # 2)) * ulp x <= x / ulp x * ulp x)%Q)
    by (apply Qmult_le_compat_r; lra).
  assert (Hb : (x / ulp x * ulp x <= (r + (1 # 2)) * ulp x)%Q)
    by (apply Qmult_le_compat_r; lra).
  rewrite <- Hx in Ha, Hb. clear H1 H2 Hx. clearbody r.
  revert Hp Hs Ha Hb. generalize (ulp x). intros p Hp Hs Ha Hb.
  split; lra.
Qed.

End Nearest.

(** The same for a product that may be 0. *)
Lemma nearest_double_zero (x : Q) : (x == 0)%Q -> nearest_double x = 0%Q.
Proof. intros H. unfold nearest_double. apply Qeq_alt in H. now rewrite H. Qed.

Lemma nearest_double_above (x : Q) (m : Z) :
  (0 <= x)%Q -> (x < 128)%Q ->
  (inject_Z m * (1 # 2) <= x)%Q -> (inject_Z m * (1 # 2) <= nearest_double x)%Q.
Proof.
  intros H0 H1 H. destruct (Qlt_le_dec 0 x) as [Hp | Hz].
  - now apply nearest_double_ge.
  - rewrite nearest_double_zero by lra. lra.
Qed.

Lemma nearest_double_below (x : Q) (m : Z) :
  (0 <= x)%Q -> (x < 128)%Q ->
  (x <= inject_Z m * (1 # 2))%Q -> (nearest_double x <= inject_Z m * (1 # 2))%Q.
Proof.
  intros H0 H1 H. destruct (Qlt_le_dec 0 x) as [Hp | Hz].
  - now apply nearest_double_le.
  - rewrite nearest_double_zero by lra. lra.
Qed.

Lemma nearest_double_close (x : Q) :
  (0 <= x)%Q -> (x < 128)%Q ->
  (nearest_double x - (1 # 2) * slack <= x /\
   x <= nearest_double x + (1 # 2) * slack)%Q.
Proof.
  intros H0 H1. destruct (Qlt_le_dec 0 x) as [Hp | Hz].
  - now apply nearest_double_near.
  - rewrite nearest_double_zero by lra.
    assert (Hs : (0 < slack)%Q) by reflexivity. split; lra.
Qed.

Lemma product_small (k : Z) (u : Q) :
  0 <= k < 128 -> unit_draw u ->
  (0 <= u * inject_Z k)%Q /\ (u * inject_Z k <= inject_Z k)%Q /\
  (u * inject_Z k < 128)%Q.
Proof.
  intros [Hk0 Hk1] [H0 H1].
  assert (Hk : (0 <= inject_Z k)%Q).
  { change 0%Q with (inject_Z 0). now rewrite <- Zle_Qle. }
  assert (Hk' : (inject_Z k < 128)%Q).
  { change 128%Q with (inject_Z 128). now rewrite <- Zlt_Qlt. }
  assert (Hm0 : (0 <= u * inject_Z k)%Q) by (apply Qmult_le_0_compat; assumption).
  assert (Hm1 : (u * inject_Z k <= 1 * inject_Z k)%Q)
    by (apply Qmult_le_compat_r; [lra | assumption]).
  repeat split; lra.
Qed.

(** [Math.round(Math.random() * k)] is one of 0, ..., k. *)
Lemma randomInt_range (k : Z) (u : Q) :
  0 <= k < 128 -> unit_draw u -> 0 <= randomInt k u <= k.
Proof.
  intros Hk Hu. destruct (product_small k u Hk Hu) as [H0 [H1 H2]].
  unfold randomInt.
  pose proof (nearest_double_above _ 0 H0 H2) as Ha.
  pose proof (nearest_double_below _ (2 * k) H0 H2) as Hb.
  rewrite inject_Z_mult in Hb. change (inject_Z 2) with 2%Q in Hb.
  change (inject_Z 0) with 0%Q in Ha.
  specialize (Ha ltac:(lra)). specialize (Hb ltac:(lra)).
  set (y := nearest_double (u * inject_Z k)) in *.
  destruct (proj1 (Math_round_bounds y _) eq_refl) as [B1 B2].
  split.
  - assert (Hlt : (inject_Z (-1) < inject_Z (Math_round y))%Q).
    { change (inject_Z (-1)) with (-1)%Q. lra. }
    rewrite <- Zlt_Qlt in Hlt. lia.
  - assert (Hlt : (inject_Z (Math_round y) < inject_Z (k + 1))%Q).
    { rewrite inject_Z_plus. change (inject_Z 1) with 1%Q. lra. }
    rewrite <- Zlt_Qlt in Hlt. lia.
Qed.

(** The draws on which [Math.round(Math.random() * k)] is [i]: those of the
    band from (2i - 1) / 2k to (2i + 1) / 2k of the exact product, up to
    the rounding of the double product at the two edges. *)
Lemma randomInt_inside (k i : Z) (v : Q) :
  1 <= k < 128 -> unit_draw v ->
  (2 * inject_Z i - 1 <= 2 * inject_Z k * v /\
   2 * inject_Z k * (v + slack) <= 2 * inject_Z i + 1)%Q ->
  randomInt k v = i.
Proof.
  intros Hk Hv [Hlo Hhi].
  destruct (product_small k v ltac:(lia) Hv) as [H0 [_ H2]].
  assert (Hk1 : (1 <= inject_Z k)%Q).
  { change 1%Q with (inject_Z 1). rewrite <- Zle_Qle. lia. }
  assert (Hs : (0 < slack)%Q) by reflexivity.
  assert (Hks : (1 * slack <= inject_Z k * slack)%Q)
    by (apply Qmult_le_compat_r; lra).
  unfold randomInt. apply Math_round_bounds.
  pose proof (nearest_double_above _ (2 * i - 1) H0 H2) as Ha.
  unfold Zminus in Ha. rewrite inject_Z_plus, inject_Z_mult in Ha.
  change (inject_Z 2) with 2%Q in Ha. change (inject_Z (- (1))) with (-1)%Q in Ha.
  destruct (nearest_double_close _ H0 H2) as [_ Hc].
  set (x := (v * inject_Z k)%Q) in *. set (y := nearest_double x) in *.
  assert (Hx : (2 * inject_Z k * v == 2 * x)%Q) by (unfold x; ring).
  assert (Hy : (2 * inject_Z k * (v + slack) == 2 * x + 2 * (inject_Z k * slack))%Q)
    by (unfold x; ring).
  rewrite Hx in Hlo. rewrite Hy in Hhi.
  split; [lra |].
  destruct (Qlt_le_dec y (inject_Z i + (1 # 2))) as [Hlt | Hge]; [exact Hlt |].
  exfalso.
  destruct (nearest_double_close x H0 H2) as [Hn _]. fold y in Hn. lra.
Qed.

Lemma randomInt_outside (k i : Z) (v : Q) :
  1 <= k < 128 -> unit_draw v -> randomInt k v = i ->
  (2 * inject_Z i - 1 <= 2 * inject_Z k * (v + slack) /\
   2 * inject_Z k * v < 2 * inject_Z i + 1)%Q.
Proof.
  intros Hk Hv Hr.
  destruct (product_small k v ltac:(lia) Hv) as [H0 [_ H2]].
  assert (Hk1 : (1 <= inject_Z k)%Q).
  { change 1%Q with (inject_Z 1). rewrite <- Zle_Qle. lia. }
  assert (Hs : (0 < slack)%Q) by reflexivity.
  assert (Hks : (1 * slack <= inject_Z k * slack)%Q)
    by (apply Qmult_le_compat_r; lra).
  unfold randomInt in Hr. apply Math_round_bounds in Hr. destruct Hr as [R1 R2].
  pose proof (nearest_double_above _ (2 * i + 1) H0 H2) as Ha.
  rewrite inject_Z_plus, inject_Z_mult in Ha.
  change (inject_Z 2) with 2%Q in Ha. change (inject_Z 1) with 1%Q in Ha.
  destruct (nearest_double_close _ H0 H2) as [Hn _].
  set (x := (v * inject_Z k)%Q) in *. set (y := nearest_double x) in *.
  setoid_replace (2 * inject_Z k * (v + slack))%Q
    with (2 * x + 2 * (inject_Z k * slack))%Q by (unfold x; ring).
  setoid_replace (2 * inject_Z k * v)%Q with (2 * x)%Q by (unfold x; ring).
  split; [lra |].
  destruct (Qlt_le_dec (2 * x) (2 * inject_Z i + 1)) as [Hlt | Hge];
    [exact Hlt |].
  exfalso. specialize (Ha ltac:(lra)). lra.
Qed.

(** The draws on which [Math.round(Math.random() * k)] is at most [s]. *)
Lemma randomInt_at_most_inside (k s : Z) (v : Q) :
  1 <= k < 128 -> unit_draw v ->
  (2 * inject_Z k * (v + slack) <= 2 * inject_Z s + 1)%Q ->
  randomInt k v <= s.
Proof.
  intros Hk Hv Hhi.
  destruct (product_small k v ltac:(lia) Hv) as [H0 [_ H2]].
  assert (Hk1 : (1 <= inject_Z k)%Q).
  { change 1%Q with (inject_Z 1). rewrite <- Zle_Qle. lia. }
  assert (Hs : (0 < slack)%Q) by reflexivity.
  assert (Hks : (1 * slack <= inject_Z k * slack)%Q)
    by (apply Qmult_le_compat_r; lra).
  unfold randomInt. apply Math_round_le.
  destruct (nearest_double_close _ H0 H2) as [Hn _].
  set (x := (v * inject_Z k)%Q) in *. set (y := nearest_double x) in *.
  assert (Hy : (2 * inject_Z k * (v + slack) == 2 * x + 2 * (inject_Z k * slack))%Q)
    by (unfold x; ring).
  rewrite Hy in Hhi. lra.
Qed.

Lemma randomInt_at_most_outside (k s : Z) (v : Q) :
  1 <= k < 128 -> unit_draw v -> randomInt k v <= s ->
  (2 * inject_Z k * v < 2 * inject_Z s + 1)%Q.
Proof.
  intros Hk Hv Hr.
  destruct (product_small k v ltac:(lia) Hv) as [H0 [_ H2]].
  unfold randomInt in Hr. apply Math_round_le in Hr.
  pose proof (nearest_double_above _ (2 * s + 1) H0 H2) as Ha.
  rewrite inject_Z_plus, inject_Z_mult in Ha.
  change (inject_Z 2) with 2%Q in Ha. change (inject_Z 1) with 1%Q in Ha.
  set (x := (v * inject_Z k)%Q) in *. set (y := nearest_double x) in *.
  setoid_replace (2 * inject_Z k * v)%Q with (2 * x)%Q by (unfold x; ring).
  destruct (Qlt_le_dec (2 * x) (2 * inject_Z s + 1)) as [Hlt | Hge];
    [exact Hlt |].
  exfalso. specialize (Ha ltac:(lra)). lra.
Qed.

(** ** Invariants of a run *)

Section Safety.

(** The object as it is during the run, and what is claimed of every read. *)
Variable g : PasswordGenerator.
Variable P : Access -> Prop.

Lemma etriple_ret {A : Type} (a : A) (Q : A -> Prop) :
  Q a -> etriple g P (ret a) Q.
Proof. intros H w Hw. cbn. auto. Qed.

Lemma etriple_bind {A B : Type} (e : Eff A) (k : A -> Eff B)
    (Q1 : A -> Prop) (Q2 : B -> Prop) :
  etriple g P e Q1 -> (forall a, Q1 a -> etriple g P (k a) Q2) ->
  etriple g P (bind e k) Q2.
Proof.
  intros He Hk w Hw. specialize (He w Hw). cbn.
  destruct (e w) as [[a|err] w']; [| exact He].
  destruct He as [Ha Hw']. exact (Hk a Ha w' Hw').
Qed.

Lemma etriple_conseq {A : Type} (e : Eff A) (Q1 Q2 : A -> Prop) :
  etriple g P e Q1 -> (forall a, Q1 a -> Q2 a) -> etriple g P e Q2.
Proof.
  intros He HQ w Hw. specialize (He w Hw).
  destruct (e w) as [[a|err] w']; [| exact He].
  destruct He; auto.
Qed.

Lemma etriple_getThis : etriple g P getThis (fun x => x = g).
Proof. intros w Hw. cbn. split; [apply Hw | exact Hw]. Qed.

Lemma etriple_record (a : Access) :
  P a -> etriple g P (record a) (fun _ => True).
Proof.
  intros Ha w [Hg Hl]. cbn. repeat split; [exact Hg |].
  apply Forall_app. split; [exact Hl | constructor; [exact Ha | constructor]].
Qed.

Lemma etriple_throw {A : Type} (e : JsError) (Q : A -> Prop) :
  invalid_strength g -> etriple g P (throw e) Q.
Proof. intros H w Hw. cbn. auto. Qed.

Lemma triple_ret {A : Type} (a : A) (Q : A -> Prop) :
  Q a -> triple g P (ret a) Q.
Proof. intros H w d Hw Hd. cbn. auto. Qed.

Lemma triple_bind {A B : Type} (m : M A) (k : A -> M B)
    (Q1 : A -> Prop) (Q2 : B -> Prop) :
  triple g P m Q1 -> (forall a, Q1 a -> triple g P (k a) Q2) ->
  triple g P (bind m k) Q2.
Proof.
  intros Hm Hk w d Hw Hd. specialize (Hm w d Hw Hd). cbn.
  destruct (m w d) as [a w' d'| err w' | w']; [| exact Hm | exact Hm].
  destruct Hm as [Ha [Hw' Hd']]. exact (Hk a Ha w' d' Hw' Hd').
Qed.

Lemma triple_conseq {A : Type} (m : M A) (Q1 Q2 : A -> Prop) :
  triple g P m Q1 -> (forall a, Q1 a -> Q2 a) -> triple g P m Q2.
Proof.
  intros Hm HQ w d Hw Hd. specialize (Hm w d Hw Hd).
  destruct (m w d) as [a w' d'| err w' | w']; [| exact Hm | exact Hm].
  destruct Hm as [Ha H]. split; auto.
Qed.

Lemma triple_lift {A : Type} (e : Eff A) (Q : A -> Prop) :
  etriple g P e Q -> triple g P (lift e) Q.
Proof.
  intros He w d Hw Hd. specialize (He w Hw). unfold lift.
  destruct (e w) as [[a|err] w']; [| exact He].
  destruct He. auto.
Qed.

Lemma triple_random : triple g P random unit_draw.
Proof.
  intros w d Hw Hd. unfold random. destruct d as [|u rest]; [exact Hw |].
  inversion Hd; subst. auto.
Qed.

(** The rule of the loop: [J] holds of the state at every test of the
    guard, [Post] once the guard is false. *)
Lemma triple_while {St : Type} (guard : St -> Eff bool)
    (body : Q -> St -> Eff St) (J Post : St -> Prop) :
  (forall s, J s -> etriple g P (guard s) (fun b => b = false -> Post s)) ->
  (forall u s, unit_draw u -> J s -> etriple g P (body u s) J) ->
  forall s, J s -> triple g P (while_ guard body s) (fun s' => J s' /\ Post s').
Proof.
  intros Hg Hb s Hs w d. revert s Hs w.
  induction d as [|u rest IH]; intros s Hs w Hw Hd; cbn;
    pose proof (Hg s Hs w Hw) as H;
    destruct (guard s w) as [[[|]|err] w1]; try exact H.
  - apply H.
  - destruct H as [HP Hw1]. auto.
  - inversion Hd; subst.
    pose proof (Hb u s H2 Hs w1 (proj2 H)) as H'.
    destruct (body u s w1) as [[s'|err] w2]; [| exact H'].
    destruct H' as [Hs' Hw2]. exact (IH s' Hs' w2 Hw2 H3).
  - destruct H as [HP Hw1]. auto.
Qed.

End Safety.

(** ** What the calls return *)

Lemma append_empty_r (s : string) : s ++ "" = s.
Proof. induction s as [|c s IH]; cbn; [reflexivity | now rewrite IH]. Qed.

Lemma append_assoc (s t r : string) : (s ++ t) ++ r = s ++ (t ++ r).
Proof. induction s as [|c s IH]; cbn; [reflexivity | now rewrite IH]. Qed.

Lemma length_append (s t : string) :
  String.length (s ++ t) = (String.length s + String.length t)%nat.
Proof. induction s as [|c s IH]; cbn; [reflexivity | now rewrite IH]. Qed.

Section GenerationSafety.
Variable g : PasswordGenerator.
Variable P : Access -> Prop.
Hypothesis P_case : forall i, 0 <= i <= 1 ->
  P (mkAccess A_passwordParts i (List.length (passwordParts g))).
Hypothesis P_class : forall i, 2 <= i <= 3 ->
  P (mkAccess A_passwordParts i (List.length (passwordParts g))).
Hypothesis P_probs :
  P (mkAccess A_strengthProbs (strength g) (List.length strengthProbs)).
Hypothesis P_symbols : forall v, unit_draw v ->
  P (mkAccess A_symbols (symbolIndex g v) (String.length (symbols g))).

Lemma read_passwordParts_safe (i : Z) :
  P (mkAccess A_passwordParts i (List.length (passwordParts g))) ->
  etriple g P (read_passwordParts i) (fun v => truthy v = enabled g i).
Proof.
  intros Hi. unfold read_passwordParts.
  eapply etriple_bind; [apply etriple_getThis |]. intros g' ->.
  eapply etriple_bind; [apply etriple_record, Hi |]. intros _ _.
  apply etriple_ret. reflexivity.
Qed.

Lemma part_safe (i : Z) :
  P (mkAccess A_passwordParts i (List.length (passwordParts g))) ->
  etriple g P (part i) (fun b => b = enabled g i).
Proof.
  intros Hi. unfold part.
  eapply etriple_bind; [apply read_passwordParts_safe, Hi |]. intros v Hv.
  apply etriple_ret. exact Hv.
Qed.

Lemma not_part_safe (i : Z) :
  P (mkAccess A_passwordParts i (List.length (passwordParts g))) ->
  etriple g P (not_part i) (fun b => b = negb (enabled g i)).
Proof.
  intros Hi. unfold not_part.
  eapply etriple_bind; [apply read_passwordParts_safe, Hi |]. intros v Hv.
  apply etriple_ret. now rewrite Hv.
Qed.

Lemma andE_safe (a b : Eff bool) (va vb : bool) :
  etriple g P a (fun x => x = va) -> etriple g P b (fun x => x = vb) ->
  etriple g P (andE a b) (fun x => x = va && vb).
Proof.
  intros Ha Hb. unfold andE.
  eapply etriple_bind; [exact Ha |]. intros x ->.
  destruct va; [exact Hb | now apply etriple_ret].
Qed.

Lemma orE_safe (a b : Eff bool) (va vb : bool) :
  etriple g P a (fun x => x = va) -> etriple g P b (fun x => x = vb) ->
  etriple g P (orE a b) (fun x => x = va || vb).
Proof.
  intros Ha Hb. unfold orE.
  eapply etriple_bind; [exact Ha |]. intros x ->.
  destruct va; [now apply etriple_ret | exact Hb].
Qed.

Lemma read_strengthProbs_safe :
  etriple g P (read_strengthProbs (strength g))
          (fun p => js_index strengthProbs (strength g) = Some p).
Proof.
  unfold read_strengthProbs.
  eapply etriple_bind; [apply etriple_record, P_probs |]. intros _ _.
  destruct (js_index strengthProbs (strength g)) as [p|] eqn:E.
  - now apply etriple_ret.
  - apply etriple_throw. exact E.
Qed.

Lemma read_symbols_safe (v : Q) :
  unit_draw v ->
  etriple g P (read_symbols (symbolIndex g v))
          (fun r => r = js_char_at (symbols g) (symbolIndex g v)).
Proof.
  intros Hv. unfold read_symbols.
  eapply etriple_bind; [apply etriple_getThis |]. intros g' ->.
  eapply etriple_bind; [apply etriple_record, (P_symbols v Hv) |].
  intros _ _. now apply etriple_ret.
Qed.

Lemma accepted_safe (choice : Z) :
  etriple g P (accepted choice)
          (fun b => exists p, js_index strengthProbs (strength g) = Some p /\
                              b = accepts p g choice).
Proof.
  unfold accepted.
  eapply etriple_bind; [apply etriple_getThis |]. intros g' ->.
  destruct (js_index strengthProbs (strength g)) as [p|] eqn:E.
  - eapply etriple_conseq.
    + apply (orE_safe _ _ ((choice <=? symbol p) && enabled g 3)
                         ((choice >? symbol p) && enabled g 2)).
      * apply andE_safe; [| apply part_safe, P_class; lia].
        eapply etriple_bind; [apply read_strengthProbs_safe |].
        intros p' Hp'. apply etriple_ret. congruence.
      * apply andE_safe; [| apply part_safe, P_class; lia].
        eapply etriple_bind; [apply read_strengthProbs_safe |].
        intros p' Hp'. apply etriple_ret. congruence.
    + intros b ->. exists p. split; reflexivity.
  - unfold orE, andE.
    eapply etriple_bind.
    + eapply etriple_bind.
      * eapply etriple_bind; [apply read_strengthProbs_safe |].
        intros p' Hp'. congruence.
      * intros a Ha. exact (False_ind _ Ha).
    + intros a Ha. exact (False_ind _ Ha).
Qed.

Lemma chooseLetter_while_safe (choice : Z) :
  0 <= choice <= 1 ->
  triple g P (chooseLetter_while choice)
         (fun c => 0 <= c <= 1 /\ enabled g c = true).
Proof.
  intros Hc. unfold chooseLetter_while.
  apply (triple_while g P not_part _ (fun c => 0 <= c <= 1)
                      (fun c => enabled g c = true)).
  - intros s Hs. eapply etriple_conseq; [apply not_part_safe, P_case; lia |].
    intros b -> Hb. now apply negb_false_iff.
  - intros u s Hu _. apply etriple_ret. apply randomInt_range; [lia | exact Hu].
  - exact Hc.
Qed.

Lemma chooseLetter_safe : triple g P chooseLetter (letter_result g).
Proof.
  unfold chooseLetter.
  eapply triple_bind.
  { apply triple_lift. apply andE_safe; apply not_part_safe, P_case; lia. }
  intros neither ->.
  destruct (enabled g 0) eqn:E0; cbn [negb andb].
  - eapply triple_bind; [apply triple_random |]. intros u Hu.
    eapply triple_bind.
    { apply chooseLetter_while_safe. apply randomInt_range; [lia | exact Hu]. }
    intros c [Hc Hen].
    eapply triple_bind; [apply triple_random |]. intros u' Hu'.
    apply triple_ret. right. exists (randomInt 25 u').
    split; [apply randomInt_range; [lia | exact Hu'] |].
    destruct (c =? 1) eqn:Ec.
    + right. apply Z.eqb_eq in Ec. subst c. auto.
    + left. split; [exact E0 | reflexivity].
  - destruct (enabled g 1) eqn:E1; cbn [negb].
    + eapply triple_bind; [apply triple_random |]. intros u Hu.
      eapply triple_bind.
      { apply chooseLetter_while_safe. apply randomInt_range; [lia | exact Hu]. }
      intros c [Hc Hen].
      eapply triple_bind; [apply triple_random |]. intros u' Hu'.
      apply triple_ret. right. exists (randomInt 25 u').
      split; [apply randomInt_range; [lia | exact Hu'] |].
      destruct (c =? 1) eqn:Ec.
      * right. auto.
      * apply Z.eqb_neq in Ec. assert (c = 0) by lia. subst c. congruence.
    + apply triple_ret. left. auto.
Qed.

Lemma chooseNumOrSymbol_while_safe (choice : Z) :
  triple g P (chooseNumOrSymbol_while choice)
         (fun s => exists p, js_index strengthProbs (strength g) = Some p /\
                             accepts p g (fst s) = true).
Proof.
  unfold chooseNumOrSymbol_while.
  eapply triple_conseq.
  - apply (triple_while g P _ _
             (fun s : Z * bool => snd s = true ->
                exists p, js_index strengthProbs (strength g) = Some p /\
                          accepts p g (fst s) = true)
             (fun s => snd s = true)).
    + intros s _. apply etriple_ret. intros H. now apply negb_false_iff.
    + intros u s _ _.
      eapply etriple_bind; [apply accepted_safe |]. intros b [p [Hp Hb]].
      apply etriple_ret. cbn. intros ->. exists p. auto.
    + cbn. discriminate.
  - cbn. intros s [H1 H2]. auto.
Qed.

Lemma chooseNumOrSymbol_safe :
  triple g P chooseNumOrSymbol (numOrSymbol_result g).
Proof.
  unfold chooseNumOrSymbol.
  eapply triple_bind; [apply triple_random |]. intros u0 Hu0.
  eapply triple_bind.
  { apply triple_lift. apply andE_safe; apply not_part_safe, P_class; lia. }
  intros neither ->.
  destruct (negb (enabled g 2) && negb (enabled g 3)) eqn:En.
  { apply triple_ret. left. apply andb_true_iff in En. destruct En as [E2 E3].
    apply negb_true_iff in E2, E3. auto. }
  eapply triple_bind; [apply chooseNumOrSymbol_while_safe |].
  intros s [p [Hp Hacc]]. cbn zeta.
  eapply triple_bind; [apply triple_lift, etriple_getThis |]. intros g' ->.
  eapply triple_bind; [apply triple_lift, read_strengthProbs_safe |].
  intros p' Hp'. assert (p' = p) by congruence. subst p'.
  unfold accepts in Hacc.
  destruct (fst s <=? symbol p) eqn:Ec.
  - eapply triple_bind; [apply triple_random |]. intros v Hv.
    eapply triple_conseq.
    + apply triple_lift. apply (read_symbols_safe v Hv).
    + cbn beta. intros r ->. right. left. split.
      * assert (Hgt : (fst s >? symbol p) = false) by lia.
        rewrite Hgt in Hacc. cbn in Hacc.
        rewrite orb_false_r in Hacc. exact Hacc.
      * exists v. split; [exact Hv | reflexivity].
  - eapply triple_bind; [apply triple_random |]. intros v Hv.
    apply triple_ret. right. right. split.
    + cbn in Hacc. apply andb_true_iff in Hacc. apply Hacc.
    + exists (randomInt 9 v). split; [apply randomInt_range; [lia | exact Hv] | reflexivity].
Qed.

Lemma js_char_at_not_empty (s : string) (i : Z) : js_char_at s i <> Some "".
Proof.
  unfold js_char_at. destruct (i <? 0); [discriminate |].
  destruct (String.get (Z.to_nat i) s); discriminate.
Qed.

(** A property of the ten digits, checked one by one. *)
Lemma digit_cases (R : Z -> Prop) :
  Forall R (map Z.of_nat (seq 0 10)) -> forall n, 0 <= n <= 9 -> R n.
Proof.
  intros H n Hn. rewrite Forall_forall in H. apply H.
  apply in_map_iff. exists (Z.to_nat n). split; [lia | apply in_seq; lia].
Qed.

Lemma toString_digit (n : Z) :
  0 <= n <= 9 -> exists c, toString n = String c "" /\ is_digit c = true.
Proof.
  revert n. apply digit_cases. cbn [map seq Z.of_nat Pos.of_succ_nat Pos.succ].
  repeat (apply Forall_cons; [eexists; split; reflexivity |]).
  apply Forall_nil.
Qed.

Lemma generatePassword_for_safe (n : nat) (password : string) :
  triple g P (generatePassword_for n password)
         (fun r => exists pieces, List.length pieces = n /\
                     Forall (piece g) pieces /\
                     r = password ++ join pieces).
Proof.
  revert password. induction n as [|n IH]; intros password.
  - apply triple_ret. exists []. cbn. repeat split; auto.
    now rewrite append_empty_r.
  - cbn [generatePassword_for].
    eapply triple_bind; [apply chooseLetter_safe |]. intros lc Hlc.
    eapply triple_bind; [apply chooseNumOrSymbol_safe |]. intros ns Hns.
    eapply triple_bind; [apply triple_random |]. intros u Hu. cbn zeta.
    eapply triple_bind; [apply triple_lift, etriple_getThis |]. intros g' ->.
    eapply triple_bind; [apply triple_lift, read_strengthProbs_safe |].
    intros p Hp.
    assert (Hstep : forall t, piece g t ->
              triple g P (generatePassword_for n (password ++ t))
                (fun r => exists pieces, List.length pieces = S n /\
                   Forall (piece g) pieces /\ r = password ++ join pieces)).
    { intros t Ht. eapply triple_conseq; [apply IH |].
      intros r [pieces [Hl [Hf ->]]]. exists (t :: pieces). cbn.
      repeat split; auto. apply append_assoc. }
    destruct (((randomInt 99 u <=? letter p) && negb (lc =? "")%string)
              || js_is_empty ns) eqn:Ec; apply Hstep.
    + destruct Hlc as [[E0 [E1 ->]] | Hl]; [| right; left; exact Hl].
      cbn in Ec. rewrite andb_false_r in Ec. cbn in Ec.
      destruct Hns as [[E2 [E3 ->]] | [[_ [x [_ ->]]] | [_ [k [Hk ->]]]]].
      * left. auto.
      * unfold js_is_empty in Ec.
        destruct (js_char_at (symbols g) (symbolIndex g x)) as [s|] eqn:Es;
          [| discriminate].
        apply String.eqb_eq in Ec. subst s.
        now apply js_char_at_not_empty in Es.
      * destruct (toString_digit k Hk) as [c [Hc _]].
        cbn in Ec. rewrite Hc in Ec. discriminate.
    + apply orb_false_iff in Ec. destruct Ec as [_ Ee].
      destruct Hns as [[E2 [E3 ->]] | [Hs | Hd]].
      * discriminate.
      * right. right. left. exists ns. auto.
      * right. right. right. exists ns. auto.
Qed.

(** The outcome of a call of [generatePassword]. *)
Lemma generatePassword_safe (w : World) (d : Draws) :
  Inv g P w -> Forall unit_draw d ->
  match generatePassword w d with
  | Returned _ w' rest =>
      (exists pieces, List.length pieces = iterations (charLength g) /\
         Forall (piece g) pieces /\ passRes (dom (this w')) = join pieces) /\
      config w' = config w /\ Forall P (accesses w') /\ Forall unit_draw rest
  | Thrown _ w' => invalid_strength g /\ Inv g P w'
  | Starved w' => Inv g P w'
  end.
Proof.
  intros Hw Hd. unfold generatePassword. cbn.
  pose proof (generatePassword_for_safe (iterations (charLength (this w))) ""
                w d Hw Hd) as H.
  destruct (generatePassword_for _ _ w d) as [r w' rest | e w' | w']; cbn.
  - destruct H as [[pieces [Hl [Hf ->]]] [[Hg Ha] Hr]].
    destruct Hw as [Hg0 _]. rewrite Hg0 in Hl.
    repeat split; auto.
    + exists pieces. repeat split; auto.
    + unfold config. cbn. rewrite Hg, Hg0. reflexivity.
  - exact H.
  - exact H.
Qed.

End GenerationSafety.

(** ** More draws do not change a call that returned *)

Lemma extends_ret {A : Type} (a : A) : extends (ret a).
Proof. intros w d a' w' r e H. cbn in *. congruence. Qed.

Lemma extends_bind {A B : Type} (m : M A) (k : A -> M B) :
  extends m -> (forall a, extends (k a)) -> extends (bind m k).
Proof.
  intros Hm Hk w d b w' r e. cbn.
  destruct (m w d) as [a w1 d1 | |] eqn:E; try discriminate.
  intros H. rewrite (Hm _ _ _ _ _ e E). exact (Hk a _ _ _ _ _ e H).
Qed.

Lemma extends_lift {A : Type} (e : Eff A) : extends (lift e).
Proof.
  intros w d a w' r e'. unfold lift. destruct (e w) as [[x|err] w1]; congruence.
Qed.

Lemma extends_random : extends random.
Proof.
  intros w d a w' r e. unfold random. destruct d as [|u d]; cbn; congruence.
Qed.

Lemma extends_while {St : Type} (guard : St -> Eff bool)
    (body : Q -> St -> Eff St) (s : St) : extends (while_ guard body s).
Proof.
  intros w d. revert s w. induction d as [|u d IH]; intros s w a w' r e; cbn.
  - destruct (guard s w) as [[[|]|err] w1] eqn:E; try discriminate.
    intros H. injection H as <- <- <-. cbn.
    destruct e; cbn; rewrite E; reflexivity.
  - destruct (guard s w) as [[[|]|err] w1] eqn:E; try discriminate.
    + destruct (body u s w1) as [[s'|err] w2]; try discriminate. apply IH.
    + intros H. injection H as <- <- <-. reflexivity.
Qed.

Lemma extends_chooseLetter : extends chooseLetter.
Proof.
  unfold chooseLetter. apply extends_bind; [apply extends_lift |].
  intros [|]; [apply extends_ret |].
  apply extends_bind; [apply extends_random |]. intros u.
  apply extends_bind; [apply extends_while |]. intros c.
  apply extends_bind; [apply extends_random |]. intros u'. apply extends_ret.
Qed.

Lemma extends_chooseNumOrSymbol : extends chooseNumOrSymbol.
Proof.
  unfold chooseNumOrSymbol. apply extends_bind; [apply extends_random |].
  intros u0. apply extends_bind; [apply extends_lift |].
  intros [|]; [apply extends_ret |].
  apply extends_bind; [apply extends_while |]. intros s. cbn zeta.
  apply extends_bind; [apply extends_lift |]. intros g.
  apply extends_bind; [apply extends_lift |]. intros p.
  destruct (fst s <=? symbol p).
  - apply extends_bind; [apply extends_random |]. intros v. apply extends_lift.
  - apply extends_bind; [apply extends_random |]. intros v. apply extends_ret.
Qed.

Lemma extends_generatePassword_for (n : nat) (password : string) :
  extends (generatePassword_for n password).
Proof.
  revert password. induction n as [|n IH]; intros password;
    cbn [generatePassword_for].
  - apply extends_ret.
  - apply extends_bind; [apply extends_chooseLetter |]. intros lc.
    apply extends_bind; [apply extends_chooseNumOrSymbol |]. intros ns.
    apply extends_bind; [apply extends_random |]. intros u. cbn zeta.
    apply extends_bind; [apply extends_lift |]. intros g.
    apply extends_bind; [apply extends_lift |]. intros p.
    destruct (_ || _); apply IH.
Qed.

Lemma extends_generatePassword : extends generatePassword.
Proof.
  unfold generatePassword. apply extends_bind; [apply extends_lift |].
  intros g. apply extends_bind; [apply extends_generatePassword_for |].
  intros password. apply extends_bind; [apply extends_lift |]. intros _.
  apply extends_bind; [apply extends_lift |]. intros _. apply extends_lift.
Qed.

(** ** Runs on an infinite sequence of draws *)

Lemma segment_S (s : DrawSeq) (p k : nat) :
  segment s p (S k) = s p :: segment s (S p) k.
Proof. reflexivity. Qed.

Lemma segment_app (s : DrawSeq) (p k1 k2 : nat) :
  segment s p (k1 + k2) = (segment s p k1 ++ segment s (p + k1) k2)%list.
Proof. unfold segment. now rewrite seq_app, map_app. Qed.

Lemma while_unfold {St : Type} (guard : St -> Eff bool)
    (body : Q -> St -> Eff St) (st : St) (w : World) (d : Draws) :
  while_ guard body st w d =
  match guard st w with
  | (Err e, w1) => Thrown e w1
  | (Ok false, w1) => Returned st w1 d
  | (Ok true, w1) =>
      match d with
      | [] => Starved w1
      | u :: rest =>
          match body u st w1 with
          | (Err e, w2) => Thrown e w2
          | (Ok st', w2) => while_ guard body st' w2 rest
          end
      end
  end.
Proof. destruct d; reflexivity. Qed.

Section Liveness.
Variable g : PasswordGenerator.
Variable s : DrawSeq.

Lemma live_ret {A : Type} (a : A) (Q : A -> Prop) : Q a -> live g s (ret a) Q.
Proof. intros H w p Hw. exists O. cbn. auto. Qed.

Lemma live_bind {A B : Type} (m : M A) (k : A -> M B)
    (Q1 : A -> Prop) (Q2 : B -> Prop) :
  live g s m Q1 -> extends m -> (forall a, Q1 a -> live g s (k a) Q2) ->
  live g s (bind m k) Q2.
Proof.
  intros Hm He Hk w p Hw. destruct (Hm w p Hw) as [k1 H1].
  destruct (m w (segment s p k1)) as [a w1 r1 | err w1 | w1] eqn:E.
  - destruct H1 as [-> [Ha Hw1]].
    destruct (Hk a Ha w1 (p + k1)%nat Hw1) as [k2 H2].
    exists (k1 + k2)%nat. rewrite segment_app. cbn.
    rewrite (He _ _ _ _ _ (segment s (p + k1) k2) E). exact H2.
  - exists k1. cbn. rewrite E. exact I.
  - contradiction.
Qed.

Lemma live_lift {A : Type} (e : Eff A) (Q : A -> Prop) :
  etriple g any_access e Q -> live g s (lift e) Q.
Proof.
  intros He w p Hw. exists O. cbn. unfold lift.
  assert (Hi : Inv g any_access w).
  { split; [exact Hw |]. apply Forall_forall. intros; exact I. }
  specialize (He w Hi). destruct (e w) as [[a|err] w1]; [| exact I].
  destruct He as [Ha [Hw1 _]]. auto.
Qed.

Lemma live_random : live g s random (fun _ => True).
Proof. intros w p Hw. exists 1%nat. cbn. auto. Qed.

(** The loop comes to an end when the draws that end it keep occurring. *)
Lemma live_while {St : Type} (guard : St -> Eff bool) (body : Q -> St -> Eff St)
    (acc : Q -> Prop) :
  (forall st w, this w = g -> this (snd (guard st w)) = g) ->
  (forall u st w, this w = g -> this (snd (body u st w)) = g) ->
  (forall u st w, this w = g -> acc u ->
     match body u st w with
     | (Ok st', _) => forall w', this w' = g -> fst (guard st' w') <> Ok true
     | (Err _, _) => True
     end) ->
  (forall p, exists q, (p <= q)%nat /\ acc (s q)) ->
  forall st, live g s (while_ guard body st) (fun _ => True).
Proof.
  intros Hg Hb Hstop Hfair st w p Hw.
  destruct (Hfair p) as [q [Hpq Hq]].
  replace q with (p + (q - p))%nat in Hq by lia.
  generalize dependent (q - p)%nat. clear q Hpq. intros dist. revert p st w Hw.
  induction dist as [|dist IH]; intros p st w Hw Hacc;
    pose proof (Hg st w Hw) as Hw1;
    destruct (guard st w) as [[[|]|err] w1] eqn:Eg; cbn in Hw1;
    try (exists O; rewrite while_unfold, Eg; cbn; auto; fail).
  - rewrite Nat.add_0_r in Hacc.
    pose proof (Hstop (s p) st w1 Hw1 Hacc) as Hs.
    pose proof (Hb (s p) st w1 Hw1) as Hw2.
    exists 1%nat. rewrite segment_S, while_unfold, Eg.
    destruct (body (s p) st w1) as [[st'|err] w2]; [| exact I].
    cbn in Hw2. specialize (Hs w2 Hw2). pose proof (Hg st' w2 Hw2) as Hw3.
    cbn. destruct (guard st' w2) as [[[|]|err] w3]; cbn in *;
      [congruence | auto | exact I].
  - pose proof (Hb (s p) st w1 Hw1) as Hw2.
    destruct (body (s p) st w1) as [[st'|err] w2] eqn:Eb.
    + cbn in Hw2.
      replace (p + S dist)%nat with (S p + dist)%nat in Hacc by lia.
      destruct (IH (S p) st' w2 Hw2 Hacc) as [k Hk].
      exists (S k). rewrite segment_S, while_unfold, Eg, Eb. exact Hk.
    + exists 1%nat. rewrite segment_S, while_unfold, Eg, Eb. exact I.
Qed.

Hypothesis Hfair : fair g s.

Lemma any_parts (i : Z) :
  any_access (mkAccess A_passwordParts i (List.length (passwordParts g))).
Proof. exact I. Qed.

Lemma live_chooseLetter : live g s chooseLetter (fun _ => True).
Proof.
  unfold chooseLetter. eapply live_bind.
  { apply live_lift.
    apply andE_safe; apply not_part_safe, any_parts. }
  { apply extends_lift. }
  intros neither ->.
  destruct (negb (enabled g 0) && negb (enabled g 1)) eqn:En.
  { now apply live_ret. }
  eapply live_bind; [apply live_random | apply extends_random |]. intros u _.
  eapply live_bind; [| apply extends_while |].
  - unfold chooseLetter_while.
    apply (live_while _ _ (fun u => enabled g (randomInt 1 u) = true)).
    + intros st w Hw. exact Hw.
    + intros u' st w Hw. exact Hw.
    + intros u' st w Hw Hacc. cbn -[randomInt]. intros w' Hw'. rewrite Hw'.
      fold (enabled g (randomInt 1 u')). rewrite Hacc. discriminate.
    + apply Hfair. destruct (enabled g 0), (enabled g 1); auto.
  - intros c _. eapply live_bind; [apply live_random | apply extends_random |].
    intros u' _. now apply live_ret.
Qed.

Lemma any_probs :
  any_access (mkAccess A_strengthProbs (strength g) (List.length strengthProbs)).
Proof. exact I. Qed.

Lemma read_symbols_frame (i : Z) :
  etriple g any_access (read_symbols i) (fun _ => True).
Proof.
  unfold read_symbols.
  eapply etriple_bind; [apply etriple_getThis |]. intros g' ->.
  eapply etriple_bind; [now apply etriple_record |]. intros _ _.
  now apply etriple_ret.
Qed.

Lemma Inv_any (w : World) : this w = g -> Inv g any_access w.
Proof.
  intros Hw. split; [exact Hw |]. apply Forall_forall. intros; exact I.
Qed.

Lemma live_chooseNumOrSymbol : live g s chooseNumOrSymbol (fun _ => True).
Proof.
  unfold chooseNumOrSymbol.
  eapply live_bind; [apply live_random | apply extends_random |]. intros u0 _.
  eapply live_bind.
  { apply live_lift.
    apply andE_safe; apply not_part_safe, any_parts. }
  { apply extends_lift. }
  intros neither ->.
  destruct (negb (enabled g 2) && negb (enabled g 3)) eqn:En.
  { now apply live_ret. }
  eapply live_bind; [| apply extends_while |].
  - unfold chooseNumOrSymbol_while.
    apply (live_while _ _
             (fun u => forall pr, js_index strengthProbs (strength g) = Some pr ->
                                  accepts pr g (randomInt 99 u) = true)).
    + intros st w Hw. exact Hw.
    + intros u st w Hw.
      pose proof (accepted_safe g any_access (fun i _ => any_parts i) any_probs
                    (randomInt 99 u) w (Inv_any w Hw)) as H.
      cbn -[randomInt accepted].
      destruct (accepted (randomInt 99 u) w) as [[b|err] w1]; apply H.
    + intros u st w Hw Hacc.
      pose proof (accepted_safe g any_access (fun i _ => any_parts i) any_probs
                    (randomInt 99 u) w (Inv_any w Hw)) as H.
      cbn -[randomInt accepted].
      destruct (accepted (randomInt 99 u) w) as [[b|err] w1]; [| exact I].
      destruct H as [[pr [Hpr ->]] _]. rewrite (Hacc pr Hpr).
      cbn. discriminate.
    + apply Hfair. destruct (enabled g 2), (enabled g 3); auto.
  - intros st _. cbn zeta.
    eapply live_bind;
      [apply live_lift, etriple_getThis | apply extends_lift |].
    intros g' ->.
    eapply live_bind;
      [apply live_lift, (read_strengthProbs_safe g any_access any_probs)
      | apply extends_lift |].
    intros p _. destruct (fst st <=? symbol p).
    + eapply live_bind; [apply live_random | apply extends_random |].
      intros v _. apply live_lift, read_symbols_frame.
    + eapply live_bind; [apply live_random | apply extends_random |].
      intros v _. now apply live_ret.
Qed.

Lemma live_generatePassword_for (n : nat) (password : string) :
  live g s (generatePassword_for n password) (fun _ => True).
Proof.
  revert password. induction n as [|n IH]; intros password;
    cbn [generatePassword_for].
  - now apply live_ret.
  - eapply live_bind;
      [apply live_chooseLetter | apply extends_chooseLetter |]. intros lc _.
    eapply live_bind;
      [apply live_chooseNumOrSymbol | apply extends_chooseNumOrSymbol |].
    intros ns _.
    eapply live_bind; [apply live_random | apply extends_random |].
    intros u _. cbn zeta.
    eapply live_bind;
      [apply live_lift, etriple_getThis | apply extends_lift |].
    intros g' ->.
    eapply live_bind;
      [apply live_lift, (read_strengthProbs_safe g any_access any_probs)
      | apply extends_lift |].
    intros p _. destruct (_ || _); apply IH.
Qed.

(** On a fair sequence a call of [generatePassword] comes to an end. *)
Lemma generatePassword_halts (w : World) (p : nat) :
  this w = g ->
  exists k,
    match generatePassword w (segment s p k) with
    | Returned _ _ rest => rest = []
    | Thrown _ _ => True
    | Starved _ => False
    end.
Proof.
  intros Hw.
  destruct (live_generatePassword_for (iterations (charLength (this w))) ""
              w p Hw) as [k Hk].
  exists k. unfold generatePassword. cbn.
  destruct (generatePassword_for _ _ w (segment s p k)); cbn; auto.
  apply Hk.
Qed.

End Liveness.

(** ** The configuration is only read *)

Lemma ekeeps_ret {A : Type} (a : A) : ekeeps (ret a).
Proof. intros w. reflexivity. Qed.

Lemma ekeeps_bind {A B : Type} (e : Eff A) (k : A -> Eff B) :
  ekeeps e -> (forall a, ekeeps (k a)) -> ekeeps (bind e k).
Proof.
  intros He Hk w. specialize (He w). cbn.
  destruct (e w) as [[a|err] w1]; cbn in *; [| exact He].
  now rewrite Hk.
Qed.

Lemma ekeeps_read_passwordParts (i : Z) : ekeeps (read_passwordParts i).
Proof. intros w. reflexivity. Qed.

Lemma ekeeps_not_part (i : Z) : ekeeps (not_part i).
Proof. intros w. reflexivity. Qed.

Lemma ekeeps_part (i : Z) : ekeeps (part i).
Proof. intros w. reflexivity. Qed.

Lemma ekeeps_read_strengthProbs (i : Z) : ekeeps (read_strengthProbs i).
Proof.
  intros w. unfold read_strengthProbs. cbn.
  destruct (js_index strengthProbs i); reflexivity.
Qed.

Lemma ekeeps_read_symbols (i : Z) : ekeeps (read_symbols i).
Proof. intros w. reflexivity. Qed.

Lemma ekeeps_andE (a b : Eff bool) : ekeeps a -> ekeeps b -> ekeeps (andE a b).
Proof.
  intros Ha Hb. apply ekeeps_bind; [exact Ha |].
  intros [|]; [exact Hb | apply ekeeps_ret].
Qed.

Lemma ekeeps_orE (a b : Eff bool) : ekeeps a -> ekeeps b -> ekeeps (orE a b).
Proof.
  intros Ha Hb. apply ekeeps_bind; [exact Ha |].
  intros [|]; [apply ekeeps_ret | exact Hb].
Qed.

Lemma ekeeps_accepted (choice : Z) : ekeeps (accepted choice).
Proof.
  unfold accepted. apply ekeeps_bind; [intros w; reflexivity |]. intros g.
  apply ekeeps_orE; apply ekeeps_andE; try apply ekeeps_part;
    (apply ekeeps_bind; [apply ekeeps_read_strengthProbs |]);
    intros p; apply ekeeps_ret.
Qed.

Lemma keeps_ret {A : Type} (a : A) : keeps (ret a).
Proof. intros w d. reflexivity. Qed.

Lemma keeps_bind {A B : Type} (m : M A) (k : A -> M B) :
  keeps m -> (forall a, keeps (k a)) -> keeps (bind m k).
Proof.
  intros Hm Hk w d. specialize (Hm w d). cbn.
  destruct (m w d) as [a w1 d1 | err w1 | w1]; cbn in *; try exact Hm.
  now rewrite Hk.
Qed.

Lemma keeps_lift {A : Type} (e : Eff A) : ekeeps e -> keeps (lift e).
Proof.
  intros He w d. specialize (He w). unfold lift.
  destruct (e w) as [[a|err] w1]; exact He.
Qed.

Lemma keeps_random : keeps random.
Proof. intros w [|u d]; reflexivity. Qed.

Lemma keeps_while {St : Type} (guard : St -> Eff bool)
    (body : Q -> St -> Eff St) :
  (forall s, ekeeps (guard s)) -> (forall u s, ekeeps (body u s)) ->
  forall s, keeps (while_ guard body s).
Proof.
  intros Hg Hb s w d. revert s w.
  induction d as [|u d IH]; intros s w; cbn;
    pose proof (Hg s w) as H1;
    destruct (guard s w) as [[[|]|err] w1]; cbn in *; try exact H1.
  pose proof (Hb u s w1) as H2.
  destruct (body u s w1) as [[s'|err] w2]; cbn in *; [| congruence].
  rewrite IH. congruence.
Qed.

Lemma keeps_chooseLetter : keeps chooseLetter.
Proof.
  unfold chooseLetter. apply keeps_bind.
  { apply keeps_lift, ekeeps_andE; apply ekeeps_not_part. }
  intros [|]; [apply keeps_ret |].
  apply keeps_bind; [apply keeps_random |]. intros u.
  apply keeps_bind.
  { apply keeps_while; [apply ekeeps_not_part | intros; apply ekeeps_ret]. }
  intros c. apply keeps_bind; [apply keeps_random |]. intros u'.
  apply keeps_ret.
Qed.

Lemma keeps_chooseNumOrSymbol : keeps chooseNumOrSymbol.
Proof.
  unfold chooseNumOrSymbol. apply keeps_bind; [apply keeps_random |].
  intros u0. apply keeps_bind.
  { apply keeps_lift, ekeeps_andE; apply ekeeps_not_part. }
  intros [|]; [apply keeps_ret |].
  apply keeps_bind.
  { apply keeps_while; [intros; apply ekeeps_ret |].
    intros u s. apply ekeeps_bind; [apply ekeeps_accepted |].
    intros b. apply ekeeps_ret. }
  intros s. cbn zeta.
  apply keeps_bind; [apply keeps_lift; intros w; reflexivity |]. intros g.
  apply keeps_bind; [apply keeps_lift, ekeeps_read_strengthProbs |].
  intros p. destruct (fst s <=? symbol p).
  - apply keeps_bind; [apply keeps_random |]. intros v.
    apply keeps_lift, ekeeps_read_symbols.
  - apply keeps_bind; [apply keeps_random |]. intros v. apply keeps_ret.
Qed.

Lemma keeps_generatePassword_for (n : nat) (password : string) :
  keeps (generatePassword_for n password).
Proof.
  revert password. induction n as [|n IH]; intros password;
    cbn [generatePassword_for].
  - apply keeps_ret.
  - apply keeps_bind; [apply keeps_chooseLetter |]. intros lc.
    apply keeps_bind; [apply keeps_chooseNumOrSymbol |]. intros ns.
    apply keeps_bind; [apply keeps_random |]. intros u. cbn zeta.
    apply keeps_bind; [apply keeps_lift; intros w; reflexivity |]. intros g.
    apply keeps_bind; [apply keeps_lift, ekeeps_read_strengthProbs |].
    intros p. destruct (_ || _); apply IH.
Qed.

Lemma keeps_generatePassword : keeps generatePassword.
Proof.
  unfold generatePassword.
  apply keeps_bind; [apply keeps_lift; intros w; reflexivity |]. intros g.
  apply keeps_bind; [apply keeps_generatePassword_for |]. intros password.
  apply keeps_bind; [apply keeps_lift; intros w; reflexivity |]. intros _.
  apply keeps_bind; [apply keeps_lift; intros w; reflexivity |]. intros _.
  apply keeps_lift; intros w; reflexivity.
Qed.

(** C9. A call of [generatePassword], [chooseLetter] or [chooseNumOrSymbol]
    leaves [charLength], [strength], [passwordParts] and [symbols] as they
    were: in every starting state, on every list of draws, and however the
    call ends (it returned, it threw, or it is still drawing). *)
Theorem generation_keeps_config (w : World) (d : Draws) :
  config (world_of (generatePassword w d)) = config w /\
  config (world_of (chooseLetter w d)) = config w /\
  config (world_of (chooseNumOrSymbol w d)) = config w.
Proof.
  split; [apply keeps_generatePassword |].
  split; [apply keeps_chooseLetter | apply keeps_chooseNumOrSymbol].
Qed.

(** ** Characters *)

Lemma profile_defined (lvl : PasswordStrengths) :
  js_index strengthProbs (ordinal lvl) = Some (profile lvl).
Proof. destruct lvl; reflexivity. Qed.

Lemma valid_not_invalid (g : PasswordGenerator) (lvl : PasswordStrengths) :
  strength g = ordinal lvl -> ~ invalid_strength g.
Proof.
  unfold invalid_strength. intros ->. rewrite profile_defined. discriminate.
Qed.

Lemma get_in (s : string) (n : nat) :
  (n < String.length s)%nat ->
  exists c, String.get n s = Some c /\ In c (list_ascii_of_string s).
Proof.
  revert n. induction s as [|a s IH]; intros n Hn; cbn in Hn; [lia |].
  destruct n as [|n]; cbn.
  - exists a. auto.
  - destruct (IH n) as [c [Hc Hin]]; [lia |]. exists c. auto.
Qed.

Lemma js_char_at_in (s : string) (i : Z) :
  0 <= i < Z.of_nat (String.length s) ->
  exists c, js_char_at s i = Some (String c "") /\ In c (list_ascii_of_string s).
Proof.
  intros Hi. unfold js_char_at.
  destruct (i <? 0) eqn:E; [lia |].
  destruct (get_in s (Z.to_nat i)) as [c [Hc Hin]]; [lia |].
  exists c. rewrite Hc. auto.
Qed.

(** The symbol read by [chooseNumOrSymbol] is a character of the string. *)
Lemma symbol_piece_char (g : PasswordGenerator) (v : option string) :
  symbols g = symbols_literal -> symbol_piece g v ->
  exists c, v = Some (String c "") /\ is_symbol c = true.
Proof.
  intros Hs [_ [x [Hx ->]]]. unfold symbolIndex. rewrite Hs.
  pose proof (randomInt_range (Z.of_nat (String.length symbols_literal) - 1) x
                ltac:(cbn; lia) Hx) as Hr.
  destruct (js_char_at_in symbols_literal
              (randomInt (Z.of_nat (String.length symbols_literal) - 1) x))
    as [c [Hc Hin]]; [lia |].
  exists c. split; [exact Hc |].
  unfold is_symbol. apply existsb_exists. exists c. split; [exact Hin |].
  apply Ascii.eqb_refl.
Qed.

Lemma symbols_not_letters :
  forallb (fun c => negb (is_letter c) && negb (is_digit c))
          (list_ascii_of_string symbols_literal) = true.
Proof. vm_compute. reflexivity. Qed.

Lemma is_symbol_not_letter (c : ascii) :
  is_symbol c = true -> is_letter c = false /\ is_digit c = false.
Proof.
  unfold is_symbol. intros H. apply existsb_exists in H.
  destruct H as [c' [Hin Heq]]. apply Ascii.eqb_eq in Heq. subst c'.
  pose proof symbols_not_letters as Hall.
  rewrite forallb_forall in Hall. specialize (Hall c Hin).
  apply andb_true_iff in Hall. destruct Hall as [H1 H2].
  apply negb_true_iff in H1, H2. auto.
Qed.

Lemma digit_piece_char (g : PasswordGenerator) (v : option string) :
  digit_piece g v -> exists c, v = Some (String c "") /\ is_digit c = true.
Proof.
  intros [_ [n [Hn ->]]]. destruct (toString_digit n Hn) as [c [Hc Hd]].
  exists c. rewrite Hc. split; [reflexivity | exact Hd].
Qed.

Lemma letters_table :
  forallb (fun n =>
             match fromCharCode (97 + Z.of_nat n),
                   toUpperCase (fromCharCode (97 + Z.of_nat n)) with
             | String l EmptyString, String u EmptyString =>
                 is_lower l && negb (is_upper l) && is_upper u && negb (is_lower u)
             | _, _ => false
             end) (seq 0 26) = true.
Proof. vm_compute. reflexivity. Qed.

Lemma letter_chars (n : Z) :
  0 <= n <= 25 ->
  exists l u, fromCharCode (97 + n) = String l "" /\
              toUpperCase (fromCharCode (97 + n)) = String u "" /\
              is_lower l = true /\ is_upper l = false /\
              is_upper u = true /\ is_lower u = false.
Proof.
  intros Hn. pose proof letters_table as H. rewrite forallb_forall in H.
  specialize (H (Z.to_nat n)). rewrite Z2Nat.id in H by lia.
  assert (Hin : In (Z.to_nat n) (seq 0 26)) by (apply in_seq; lia).
  specialize (H Hin).
  destruct (fromCharCode (97 + n)) as [|l [|? ?]]; try discriminate.
  destruct (toUpperCase (String l "")) as [|u [|? ?]]; try discriminate.
  exists l, u.
  apply andb_true_iff in H. destruct H as [H H4].
  apply andb_true_iff in H. destruct H as [H H3].
  apply andb_true_iff in H. destruct H as [H1 H2].
  apply negb_true_iff in H2, H4.
  repeat split; assumption || reflexivity.
Qed.

(** ** The text that is generated *)

Lemma piece_shape (g : PasswordGenerator) (t : string) :
  symbols g = symbols_literal -> piece g t ->
  (none_enabled g /\ t = "") \/ (exists c, t = String c "" /\ char_ok g c).
Proof.
  intros Hs [[E0 [E1 [E2 [E3 ->]]]] | [[n [Hn Hl]] | [[v [Hv ->]] | [v [Hv ->]]]]].
  - left. unfold none_enabled. auto.
  - right. destruct (letter_chars n Hn) as [l [u [Hl' [Hu' [L1 [L2 [U1 U2]]]]]]].
    destruct Hl as [[E ->] | [E ->]].
    + exists u. split; [exact Hu' |]. left. auto.
    + exists l. split; [exact Hl' |]. right. left. auto.
  - right. destruct (symbol_piece_char g v Hs Hv) as [c [-> Hc]].
    exists c. split; [reflexivity |]. right. right. right. split; [exact Hc |].
    apply Hv.
  - right. destruct (digit_piece_char g v Hv) as [c [-> Hc]].
    exists c. split; [reflexivity |]. right. right. left. split; [exact Hc |].
    apply Hv.
Qed.

Lemma list_ascii_append (s t : string) :
  list_ascii_of_string (s ++ t) =
  (list_ascii_of_string s ++ list_ascii_of_string t)%list.
Proof. induction s as [|c s IH]; cbn; [reflexivity | now rewrite IH]. Qed.

Lemma join_shape (g : PasswordGenerator) (pieces : list string) :
  symbols g = symbols_literal -> Forall (piece g) pieces ->
  Forall (char_ok g) (list_ascii_of_string (join pieces)) /\
  (~ none_enabled g -> String.length (join pieces) = List.length pieces) /\
  (none_enabled g -> join pieces = "").
Proof.
  intros Hs Hf. induction Hf as [|t pieces Ht Hf [IH1 [IH2 IH3]]].
  - cbn. repeat split; auto.
  - change (join (t :: pieces)) with (t ++ join pieces).
    rewrite list_ascii_append, length_append.
    destruct (piece_shape g t Hs Ht) as [[Hn ->] | [c [-> Hc]]].
    + cbn. repeat split; auto. intros H. contradiction.
    + repeat split.
      * cbn. constructor; assumption.
      * intros H. cbn. now rewrite IH2.
      * intros [E0 [E1 [E2 E3]]].
        destruct Hc as [[_ H] | [[_ H] | [[_ H] | [_ H]]]]; congruence.
Qed.

(** The outcome of [generatePassword] on draws of [Math.random()]: when it
    returns, the text is made of characters of enabled classes, one per
    requested position; it throws only for a strength outside the table. *)
Lemma generatePassword_output (g : PasswordGenerator) (w : World) (d : Draws) :
  this w = g -> symbols g = symbols_literal -> Forall unit_draw d ->
  match generatePassword w d with
  | Returned _ w' _ =>
      Forall (char_ok g) (list_ascii_of_string (passRes (dom (this w')))) /\
      (~ none_enabled g ->
       String.length (passRes (dom (this w'))) = iterations (charLength g)) /\
      (none_enabled g -> passRes (dom (this w')) = "")
  | Thrown _ _ => invalid_strength g
  | Starved _ => True
  end.
Proof.
  intros Hw Hs Hd.
  pose proof (generatePassword_safe g any_access (fun _ _ => I) (fun _ _ => I)
                I (fun _ _ => I) w d (Inv_any g w Hw) Hd) as H.
  destruct (generatePassword w d) as [[] w' rest | err w' | w']; [| apply H | exact I].
  destruct H as [[pieces [Hl [Hf Ht]]] _]. rewrite Ht, <- Hl.
  apply join_shape; assumption.
Qed.

(** ** Sequences of draws on which the loops end *)

Lemma table_bounds (i : Z) (p : StrengthProb) :
  js_index strengthProbs i = Some p -> 5 <= symbol p <= 80.
Proof.
  unfold js_index. destruct (i <? 0); [discriminate |].
  destruct (Z.to_nat i) as [|[|[|[|n]]]]; cbn;
    try (intros [= <-]; cbn; lia).
  destruct n; discriminate.
Qed.

(** Accepted draws keep occurring in [alternating], whatever the object. *)
Lemma alternating_fair (g : PasswordGenerator) : fair g alternating.
Proof.
  split.
  - intros He p. destruct (enabled g 0) eqn:E0.
    + exists (2 * p)%nat. split; [lia |]. unfold alternating.
      rewrite Nat.even_even. exact E0.
    + cbn in He. exists (2 * p + 1)%nat. split; [lia |]. unfold alternating.
      rewrite Nat.even_odd. exact He.
  - intros He p. destruct (enabled g 3) eqn:E3.
    + exists (2 * p)%nat. split; [lia |]. unfold alternating.
      rewrite Nat.even_even. intros pr Hpr. apply table_bounds in Hpr.
      unfold accepts. rewrite E3.
      change (randomInt 99 0) with 0.
      replace (0 <=? symbol pr) with true by (symmetry; apply Z.leb_le; lia).
      reflexivity.
    + rewrite orb_false_r in He. exists (2 * p + 1)%nat. split; [lia |].
      unfold alternating. rewrite Nat.even_odd. intros pr Hpr.
      apply table_bounds in Hpr. unfold accepts. rewrite E3, He.
      change (randomInt 99 (127 # 128)) with 98.
      replace (98 >? symbol pr) with true by (symmetry; apply Z.gtb_lt; lia).
      now rewrite andb_false_r.
Qed.

Lemma alternating_unit (i : nat) : unit_draw (alternating i).
Proof.
  unfold alternating, unit_draw. destruct (Nat.even i); split; lra.
Qed.

Lemma segment_unit (s : DrawSeq) (p k : nat) :
  (forall i, unit_draw (s i)) -> Forall unit_draw (segment s p k).
Proof.
  intros H. unfold segment. apply Forall_forall. intros x Hx.
  apply in_map_iff in Hx. destruct Hx as [i [<- _]]. apply H.
Qed.

(** C1, as amended. With a strength of the table, the symbol string of the
    class and at least one class enabled: on draws of [Math.random()] a call
    of [generatePassword] never throws and never leaves a text of another
    length than [charLength]; and on every sequence of such draws in which
    draws accepted by the sampling loops keep occurring it returns, with a
    text of exactly that length. *)
Theorem generate_length (g : PasswordGenerator) (lvl : PasswordStrengths)
    (n : Z) :
  charLength g = Some n -> 0 <= n -> strength g = ordinal lvl ->
  symbols g = symbols_literal -> ~ none_enabled g ->
  (forall w d, this w = g -> Forall unit_draw d ->
     match generatePassword w d with
     | Returned _ w' _ => String.length (passRes (dom (this w'))) = Z.to_nat n
     | Thrown _ _ => False
     | Starved _ => True
     end) /\
  (forall w s, this w = g -> (forall i, unit_draw (s i)) -> fair g s ->
     exists k t, generated (generatePassword w (segment s 0 k)) = Some t /\
                 String.length t = Z.to_nat n).
Proof.
  intros Hn Hpos Hstr Hsym Hen.
  assert (Hsafe : forall w d, this w = g -> Forall unit_draw d ->
     match generatePassword w d with
     | Returned _ w' _ => String.length (passRes (dom (this w'))) = Z.to_nat n
     | Thrown _ _ => False
     | Starved _ => True
     end).
  { intros w d Hw Hd. pose proof (generatePassword_output g w d Hw Hsym Hd) as H.
    destruct (generatePassword w d) as [[] w' rest | err w' | w']; [| | exact I].
    - destruct H as [_ [H _]]. rewrite (H Hen), Hn. reflexivity.
    - exact (valid_not_invalid g lvl Hstr H). }
  split; [exact Hsafe |].
  intros w s Hw Hs Hf.
  destruct (generatePassword_halts g s Hf w O Hw) as [k Hk].
  specialize (Hsafe w (segment s 0 k) Hw (segment_unit s 0 k Hs)).
  exists k.
  destruct (generatePassword w (segment s 0 k)) as [[] w' rest | err w' | w'];
    try contradiction.
  exists (passRes (dom (this w'))). split; [reflexivity | exact Hsafe].
Qed.

Lemma started_enabled :
  ~ none_enabled (this (started 7 [true; true; true; true])).
Proof. intros [H _]. vm_compute in H. discriminate H. Qed.

Lemma generate_length_witness :
  exists k t,
    generated (generatePassword (started 7 [true; true; true; true])
                                (segment alternating 0 k)) = Some t /\
    String.length t = 7%nat.
Proof.
  apply (proj2 (generate_length (this (started 7 [true; true; true; true]))
                  medium 7 eq_refl ltac:(lia) eq_refl eq_refl started_enabled)).
  - reflexivity.
  - exact alternating_unit.
  - apply alternating_fair.
Defined.

(** ** Sequences of draws on which a loop never ends *)

Lemma bind_M {A B : Type} (m : M A) (k : A -> M B) (w : World) (d : Draws) :
  bind m k w d =
  match m w d with
  | Returned a w' d' => k a w' d'
  | Thrown e w' => Thrown e w'
  | Starved w' => Starved w'
  end.
Proof. reflexivity. Qed.

(** Strength medium has the symbol band 0..20 and every draw is 7/8: the
    value sampled is 87 at every turn, which only numbers would accept. *)
Lemma symbols_only_rejects (l : list Access) :
  exists l', accepted (randomInt 99 (7 # 8)) (mkWorld symbols_only l)
             = (Ok false, mkWorld symbols_only l').
Proof. eexists. vm_compute. reflexivity. Qed.

Lemma symbols_only_loop (n : nat) (l : list Access) (choice : Z) :
  exists l',
    chooseNumOrSymbol_while choice (mkWorld symbols_only l)
                            (repeat (7 # 8)%Q n)
    = Starved (mkWorld symbols_only l').
Proof.
  unfold chooseNumOrSymbol_while. revert l choice.
  induction n as [|n IH]; intros l choice.
  - exists l. reflexivity.
  - destruct (symbols_only_rejects l) as [l1 H1].
    destruct (IH l1 (randomInt 99 (7 # 8))) as [l' Hl'].
    exists l'. rewrite <- Hl'.
    change (repeat (7 # 8)%Q (S n)) with ((7 # 8)%Q :: repeat (7 # 8)%Q n).
    rewrite while_unfold.
    cbv beta iota zeta delta [ret bind Monad_Eff snd fst negb].
    rewrite H1. reflexivity.
Qed.

Lemma symbols_only_letter (l : list Access) (d : Draws) :
  exists l', chooseLetter (mkWorld symbols_only l) d
             = Returned "" (mkWorld symbols_only l') d.
Proof. eexists. vm_compute. reflexivity. Qed.

Lemma symbols_only_guard (l : list Access) :
  exists l', andE (not_part 2) (not_part 3) (mkWorld symbols_only l)
             = (Ok false, mkWorld symbols_only l').
Proof. eexists. vm_compute. reflexivity. Qed.

Lemma symbols_only_starved (n : nat) (l : list Access) :
  generated (generatePassword (mkWorld symbols_only l) (repeat (7 # 8)%Q n))
  = None.
Proof.
  unfold generatePassword. rewrite bind_M.
  change (lift getThis (mkWorld symbols_only l) (repeat (7 # 8)%Q n))
    with (Returned symbols_only (mkWorld symbols_only l) (repeat (7 # 8)%Q n)).
  cbv beta iota.
  change (iterations (charLength symbols_only)) with 1%nat.
  rewrite bind_M. cbn [generatePassword_for]. rewrite bind_M.
  destruct (symbols_only_letter l (repeat (7 # 8)%Q n)) as [l1 ->].
  cbv beta iota.
  rewrite bind_M. unfold chooseNumOrSymbol at 1. rewrite bind_M.
  destruct n as [|n]; [reflexivity |].
  change (repeat (7 # 8)%Q (S n)) with ((7 # 8)%Q :: repeat (7 # 8)%Q n).
  cbn [random]. cbv beta iota. rewrite bind_M. unfold lift at 1.
  destruct (symbols_only_guard l1) as [l2 ->].
  cbv beta iota.
  rewrite bind_M.
  destruct (symbols_only_loop n l2 (randomInt 99 (7 # 8))) as [l3 ->].
  reflexivity.
Qed.

(** C1, counterexample. One class (symbols) is enabled and the requested
    length is 1, yet on the sequence of draws 7/8, 7/8, ... the call
    returns no text, however many draws it is given.  And after
    [setPasswordStrength(-1)], which returns normally and stores -1, the
    call throws at its second draw: with a strength outside the table
    there is no text either. *)
Lemma generate_length_counterexample :
  this (started 1 [false; false; false; true]) = symbols_only /\
  strength symbols_only = ordinal medium /\
  symbols symbols_only = symbols_literal /\
  ~ none_enabled symbols_only /\
  charLength symbols_only = Some 1 /\
  unit_draw (7 # 8) /\
  (~ exists n t,
       generated (generatePassword (mkWorld symbols_only [])
                                   (repeat (7 # 8)%Q n)) = Some t) /\
  setPasswordStrength (-1) (started 1 [false; false; false; true])
    = (Ok tt, symbols_only_unchecked) /\
  strength (this symbols_only_unchecked) = -1 /\
  ~ none_enabled (this symbols_only_unchecked) /\
  charLength (this symbols_only_unchecked) = Some 1 /\
  exists w', generatePassword symbols_only_unchecked [0; 0]%Q
             = Thrown TypeError w'.
Proof.
  split; [vm_compute; reflexivity |].
  split; [reflexivity |].
  split; [reflexivity |].
  split; [intros [_ [_ [_ H]]]; discriminate H |].
  split; [reflexivity |].
  split; [unfold unit_draw; split; lra |].
  split; [intros [n [t H]]; rewrite symbols_only_starved in H; discriminate |].
  split; [vm_compute; reflexivity |].
  split; [reflexivity |].
  split; [intros [_ [_ [_ H]]]; discriminate H |].
  split; [reflexivity |].
  eexists. vm_compute. reflexivity.
Qed.

(** Every draw is 7/8, which picks lowercase: the loop of [chooseLetter]
    never sees an enabled case. *)
Lemma uppercase_only_loop (n : nat) (l : list Access) :
  exists l',
    chooseLetter_while (randomInt 1 (7 # 8)) (mkWorld uppercase_only l)
                       (repeat (7 # 8)%Q n)
    = Starved (mkWorld uppercase_only l').
Proof.
  unfold chooseLetter_while. revert l.
  induction n as [|n IH]; intros l.
  - eexists. vm_compute. reflexivity.
  - destruct (IH (l ++ [mkAccess A_passwordParts 1 4])%list) as [l' Hl'].
    exists l'. rewrite <- Hl'.
    change (repeat (7 # 8)%Q (S n)) with ((7 # 8)%Q :: repeat (7 # 8)%Q n).
    rewrite while_unfold. reflexivity.
Qed.

Lemma uppercase_only_guard (l : list Access) :
  exists l', andE (not_part 0) (not_part 1) (mkWorld uppercase_only l)
             = (Ok false, mkWorld uppercase_only l').
Proof. eexists. vm_compute. reflexivity. Qed.

Lemma uppercase_only_letter (n : nat) (l : list Access) :
  ended (chooseLetter (mkWorld uppercase_only l) (repeat (7 # 8)%Q n)) = false.
Proof.
  unfold chooseLetter. rewrite bind_M. unfold lift at 1.
  destruct (uppercase_only_guard l) as [l1 ->]. cbv beta iota.
  rewrite bind_M. destruct n as [|n]; [reflexivity |].
  change (repeat (7 # 8)%Q (S n)) with ((7 # 8)%Q :: repeat (7 # 8)%Q n).
  cbn [random]. cbv beta iota. rewrite bind_M.
  destruct (uppercase_only_loop n l1) as [l2 ->]. reflexivity.
Qed.

Lemma uppercase_only_generate (n : nat) (l : list Access) :
  ended (generatePassword (mkWorld uppercase_only l) (repeat (7 # 8)%Q n))
  = false.
Proof.
  pose proof (uppercase_only_letter n l) as H.
  unfold generatePassword. rewrite bind_M.
  change (lift getThis (mkWorld uppercase_only l) (repeat (7 # 8)%Q n))
    with (Returned uppercase_only (mkWorld uppercase_only l)
                   (repeat (7 # 8)%Q n)).
  cbv beta iota.
  change (iterations (charLength uppercase_only)) with 1%nat.
  rewrite bind_M. cbn [generatePassword_for]. rewrite bind_M.
  destruct (chooseLetter (mkWorld uppercase_only l) (repeat (7 # 8)%Q n));
    [discriminate H | discriminate H | reflexivity].
Qed.

Lemma symbols_only_numOrSymbol (n : nat) (l : list Access) :
  ended (chooseNumOrSymbol (mkWorld symbols_only l) (repeat (7 # 8)%Q n))
  = false.
Proof.
  unfold chooseNumOrSymbol. rewrite bind_M.
  destruct n as [|n]; [reflexivity |].
  change (repeat (7 # 8)%Q (S n)) with ((7 # 8)%Q :: repeat (7 # 8)%Q n).
  cbn [random]. cbv beta iota. rewrite bind_M. unfold lift at 1.
  destruct (symbols_only_guard l) as [l2 ->]. cbv beta iota.
  rewrite bind_M.
  destruct (symbols_only_loop n l2 (randomInt 99 (7 # 8))) as [l3 ->].
  reflexivity.
Qed.

(** C5, counterexample. On the sequence of draws 7/8, 7/8, ... the loop
    of [chooseLetter] does not end when only uppercase is enabled, so
    neither does [generatePassword]; and the loop of [chooseNumOrSymbol]
    does not end when only symbols are enabled: each call is still drawing
    after any number of draws. *)
Lemma sampling_ends_counterexample :
  this (started 1 [true; false; false; false]) = uppercase_only /\
  this (started 1 [false; false; false; true]) = symbols_only /\
  (~ exists n, ended (chooseLetter (mkWorld uppercase_only [])
                                   (repeat (7 # 8)%Q n)) = true) /\
  (~ exists n, ended (chooseNumOrSymbol (mkWorld symbols_only [])
                                        (repeat (7 # 8)%Q n)) = true) /\
  (~ exists n, ended (generatePassword (mkWorld uppercase_only [])
                                       (repeat (7 # 8)%Q n)) = true).
Proof.
  split; [vm_compute; reflexivity |].
  split; [vm_compute; reflexivity |].
  split; [| split]; intros [n H].
  - rewrite uppercase_only_letter in H. discriminate.
  - rewrite symbols_only_numOrSymbol in H. discriminate.
  - rewrite uppercase_only_generate in H. discriminate.
Qed.

Lemma halts_ended {A : Type} (g : PasswordGenerator) (s : DrawSeq) (m : M A)
    (Q : A -> Prop) (w : World) (p : nat) :
  halts g s m Q w p -> exists k, ended (m w (segment s p k)) = true.
Proof.
  intros [k H]. exists k.
  destruct (m w (segment s p k)); [reflexivity | reflexivity | contradiction].
Qed.

(** C5, as amended. Each sampling loop is entered only with one of its
    classes enabled, and then some draw of [Math.random()] ends it (a draw
    that picks an enabled case; for a strength of the table, a draw on the
    side of an enabled class).  So on every sequence of draws in which such
    draws keep occurring, [chooseLetter], [chooseNumOrSymbol] and
    [generatePassword] come to an end (they return, or throw for a strength
    outside the table), in every configuration; the sequence
    0, 127/128, 0, 127/128, ... is one, for every configuration. *)
Theorem sampling_ends (g : PasswordGenerator) (s : DrawSeq) (w : World)
    (p : nat) :
  this w = g -> fair g s ->
  (enabled g 0 || enabled g 1 = true ->
   exists u, unit_draw u /\ enabled g (randomInt 1 u) = true) /\
  (forall lvl, strength g = ordinal lvl -> enabled g 2 || enabled g 3 = true ->
   exists u, unit_draw u /\ accepts (profile lvl) g (randomInt 99 u) = true) /\
  (exists k, ended (chooseLetter w (segment s p k)) = true) /\
  (exists k, ended (chooseNumOrSymbol w (segment s p k)) = true) /\
  (exists k, ended (generatePassword w (segment s p k)) = true) /\
  fair g alternating.
Proof.
  intros Hw Hf. pose proof (alternating_fair g) as [Ha1 Ha2].
  split; [| split; [| split; [| split; [| split]]]].
  - intros He. destruct (Ha1 He O) as [q [_ Hq]].
    exists (alternating q). split; [apply alternating_unit | exact Hq].
  - intros lvl Hl He. destruct (Ha2 He O) as [q [_ Hq]].
    exists (alternating q). split; [apply alternating_unit |].
    apply Hq. rewrite Hl. apply profile_defined.
  - exact (halts_ended g s _ _ w p (live_chooseLetter g s Hf w p Hw)).
  - exact (halts_ended g s _ _ w p (live_chooseNumOrSymbol g s Hf w p Hw)).
  - destruct (generatePassword_halts g s Hf w p Hw) as [k Hk]. exists k.
    destruct (generatePassword w (segment s p k));
      [reflexivity | reflexivity | contradiction].
  - apply alternating_fair.
Qed.

Lemma sampling_ends_witness :
  ended (chooseLetter (mkWorld lowercase_and_digits [])
                      (segment alternating 0 2)) = false /\
  (exists k, ended (chooseLetter (mkWorld lowercase_and_digits [])
                                 (segment alternating 0 k)) = true) /\
  ended (chooseNumOrSymbol (mkWorld lowercase_and_digits [])
                           (segment alternating 1 3)) = false /\
  (exists k, ended (chooseNumOrSymbol (mkWorld lowercase_and_digits [])
                                      (segment alternating 1 k)) = true) /\
  ended (generatePassword (mkWorld lowercase_and_digits [])
                          (segment alternating 0 7)) = false /\
  (exists k, ended (generatePassword (mkWorld lowercase_and_digits [])
                                     (segment alternating 0 k)) = true).
Proof.
  pose proof (sampling_ends lowercase_and_digits alternating
                (mkWorld lowercase_and_digits []) 0 eq_refl
                (alternating_fair lowercase_and_digits)) as H0.
  pose proof (sampling_ends lowercase_and_digits alternating
                (mkWorld lowercase_and_digits []) 1 eq_refl
                (alternating_fair lowercase_and_digits)) as H1.
  destruct H0 as [_ [_ [L0 [_ [G0 _]]]]].
  destruct H1 as [_ [_ [_ [N1 _]]]].
  split; [vm_compute; reflexivity |].
  split; [exact L0 |].
  split; [vm_compute; reflexivity |].
  split; [exact N1 |].
  split; [vm_compute; reflexivity | exact G0].
Defined.

(** ** Every class disabled *)

Lemma none_enabled_piece (g : PasswordGenerator) (t : string) :
  none_enabled g -> piece g t -> t = "".
Proof.
  intros [E0 [E1 [E2 E3]]]
         [[_ [_ [_ [_ ->]]]] | [[n [_ [[H _] | [H _]]]] | [[v [[H _] _]] | [v [[H _] _]]]]];
    congruence.
Qed.

Lemma none_enabled_join (g : PasswordGenerator) (pieces : list string) :
  none_enabled g -> Forall (piece g) pieces -> join pieces = "".
Proof.
  intros Hn Hf. induction Hf as [|t pieces Ht Hf IH]; [reflexivity |].
  change (join (t :: pieces)) with (t ++ join pieces).
  now rewrite IH, (none_enabled_piece g t Hn Ht).
Qed.

Lemma none_enabled_fair (g : PasswordGenerator) (s : DrawSeq) :
  none_enabled g -> fair g s.
Proof.
  intros [E0 [E1 [E2 E3]]]. split; intros H; rewrite ?E0, ?E1, ?E2, ?E3 in H;
    discriminate H.
Qed.

(** C3, as amended. With the four classes disabled and a strength of the
    table, a call of [generatePassword] returns the empty text, whatever
    [charLength] is: on draws of [Math.random()] it never throws and never
    leaves another text, and on every sequence of such draws it returns
    after finitely many. *)
Theorem all_disabled_empty (g : PasswordGenerator) (lvl : PasswordStrengths) :
  strength g = ordinal lvl -> none_enabled g ->
  (forall w d, this w = g -> Forall unit_draw d ->
     match generatePassword w d with
     | Returned _ w' _ => passRes (dom (this w')) = ""
     | Thrown _ _ => False
     | Starved _ => True
     end) /\
  (forall w s, this w = g -> (forall i, unit_draw (s i)) ->
     exists k, generated (generatePassword w (segment s 0 k)) = Some "").
Proof.
  intros Hstr Hn.
  assert (Hsafe : forall w d, this w = g -> Forall unit_draw d ->
     match generatePassword w d with
     | Returned _ w' _ => passRes (dom (this w')) = ""
     | Thrown _ _ => False
     | Starved _ => True
     end).
  { intros w d Hw Hd.
    pose proof (generatePassword_safe g any_access (fun _ _ => I)
                  (fun _ _ => I) I (fun _ _ => I) w d (Inv_any g w Hw) Hd) as H.
    destruct (generatePassword w d) as [[] w' rest | err w' | w']; [| | exact I].
    - destruct H as [[pieces [_ [Hf ->]]] _]. now apply (none_enabled_join g).
    - exact (valid_not_invalid g lvl Hstr (proj1 H)). }
  split; [exact Hsafe |].
  intros w s Hw Hs.
  destruct (generatePassword_halts g s (none_enabled_fair g s Hn) w O Hw)
    as [k Hk].
  specialize (Hsafe w (segment s 0 k) Hw (segment_unit s 0 k Hs)).
  exists k.
  destruct (generatePassword w (segment s 0 k)) as [[] w' rest | err w' | w'];
    try contradiction.
  cbn. now rewrite Hsafe.
Qed.

Lemma all_disabled_empty_witness :
  exists k,
    generated (generatePassword (started 7 [false; false; false; false])
                                (segment alternating 0 k)) = Some "".
Proof.
  apply (proj2 (all_disabled_empty
                  (this (started 7 [false; false; false; false])) medium
                  eq_refl
                  (conj eq_refl (conj eq_refl (conj eq_refl eq_refl))))).
  - reflexivity.
  - exact alternating_unit.
Defined.

(** C3, counterexample. No class is enabled and the length is 7, but the
    strength is -1, which [setPasswordStrength(-1)] stored without an
    error: the call throws at its first position and returns no text. *)
Lemma all_disabled_empty_counterexample :
  none_enabled (this (started 7 [false; false; false; false])) /\
  setPasswordStrength (-1) (started 7 [false; false; false; false])
    = (Ok tt, none_unchecked) /\
  none_enabled (this none_unchecked) /\
  charLength (this none_unchecked) = Some 7 /\
  strength (this none_unchecked) = -1 /\
  (exists w', generatePassword none_unchecked [0; 0]%Q = Thrown TypeError w') /\
  generated (generatePassword none_unchecked [0; 0]%Q) = None.
Proof.
  split; [vm_compute; repeat split; reflexivity |].
  split; [vm_compute; reflexivity |].
  split; [repeat split; reflexivity |].
  split; [reflexivity |].
  split; [reflexivity |].
  split; [eexists; vm_compute; reflexivity | vm_compute; reflexivity].
Qed.

(** ** Letters *)

Lemma digit_not_letter (c : ascii) : is_digit c = true -> is_letter c = false.
Proof.
  unfold is_digit, is_letter, is_upper, is_lower. intros H.
  apply andb_true_iff in H. destruct H as [H1 H2].
  apply Z.leb_le in H1, H2. apply orb_false_iff.
  split; apply andb_false_iff; left; apply Z.leb_gt; lia.
Qed.

(** C7. With uppercase and lowercase both disabled, every character of a
    text that [generatePassword] leaves is a digit or a character of the
    symbol string, and none is an ASCII letter: on every list of draws of
    [Math.random()] and for every requested length. *)
Theorem no_letters_when_cases_off (g : PasswordGenerator) (w : World)
    (d : Draws) (t : string) :
  this w = g -> symbols g = symbols_literal ->
  enabled g 0 = false -> enabled g 1 = false ->
  Forall unit_draw d ->
  generated (generatePassword w d) = Some t ->
  Forall (fun c => (is_digit c || is_symbol c) = true /\ is_letter c = false)
         (list_ascii_of_string t).
Proof.
  intros Hw Hs E0 E1 Hd Ht.
  pose proof (generatePassword_output g w d Hw Hs Hd) as H.
  destruct (generatePassword w d) as [[] w' rest | err w' | w'];
    try discriminate Ht.
  injection Ht as <-. destruct H as [H _].
  eapply Forall_impl; [| exact H]. cbn beta.
  intros c [[_ E] | [[_ E] | [[Hc _] | [Hc _]]]]; try congruence.
  - rewrite Hc. split; [reflexivity | now apply digit_not_letter].
  - rewrite Hc, orb_true_r. split; [reflexivity |].
    now apply is_symbol_not_letter.
Qed.

Lemma no_letters_when_cases_off_witness :
  generated (generatePassword (started 2 [false; false; true; true])
               [0; 0; 1 # 2; 0; 0; 127 # 128; 1 # 2; 0]%Q) = Some "]5" /\
  Forall (fun c => (is_digit c || is_symbol c) = true /\ is_letter c = false)
         (list_ascii_of_string "]5").
Proof.
  split; [vm_compute; reflexivity |].
  apply (no_letters_when_cases_off
           (this (started 2 [false; false; true; true]))
           (started 2 [false; false; true; true])
           [0; 0; 1 # 2; 0; 0; 127 # 128; 1 # 2; 0]%Q "]5").
  - reflexivity.
  - reflexivity.
  - reflexivity.
  - reflexivity.
  - repeat (apply Forall_cons; [split; lra |]). apply Forall_nil.
  - vm_compute. reflexivity.
Defined.

Lemma chooseLetter_value (g : PasswordGenerator) (w w' : World)
    (d rest : Draws) (t : string) :
  this w = g -> Forall unit_draw d -> chooseLetter w d = Returned t w' rest ->
  letter_result g t.
Proof.
  intros Hw Hd E.
  pose proof (chooseLetter_safe g any_access (fun _ _ => I) w d
                (Inv_any g w Hw) Hd) as H.
  rewrite E in H. apply H.
Qed.

Lemma letter_result_upper (g : PasswordGenerator) (t : string) :
  enabled g 0 = true -> enabled g 1 = false -> letter_result g t ->
  exists c, t = String c "" /\ is_upper c = true.
Proof.
  intros E0 E1 [[H _] | [n [Hn [[_ ->] | [H _]]]]]; try congruence.
  destruct (letter_chars n Hn) as [l [u [_ [Hu [_ [_ [U _]]]]]]].
  exists u. auto.
Qed.

Lemma letter_result_lower (g : PasswordGenerator) (t : string) :
  enabled g 0 = false -> enabled g 1 = true -> letter_result g t ->
  exists c, t = String c "" /\ is_lower c = true.
Proof.
  intros E0 E1 [[_ [H _]] | [n [Hn [[H _] | [_ ->]]]]]; try congruence.
  destruct (letter_chars n Hn) as [l [u [Hl [_ [L _]]]]].
  exists l. auto.
Qed.

(** C8. With uppercase enabled and lowercase disabled, the letter that
    [chooseLetter] returns is uppercase, and every letter of a text that
    [generatePassword] leaves is uppercase; with lowercase enabled and
    uppercase disabled, the same with lowercase: on every list of draws of
    [Math.random()]. *)
Theorem single_case_letters (g : PasswordGenerator) (w : World) (d : Draws) :
  this w = g -> symbols g = symbols_literal -> Forall unit_draw d ->
  (enabled g 0 = true -> enabled g 1 = false ->
   (forall t w' rest, chooseLetter w d = Returned t w' rest ->
      exists c, t = String c "" /\ is_upper c = true) /\
   (forall t, generated (generatePassword w d) = Some t ->
      Forall (fun c => is_letter c = true -> is_upper c = true)
             (list_ascii_of_string t))) /\
  (enabled g 0 = false -> enabled g 1 = true ->
   (forall t w' rest, chooseLetter w d = Returned t w' rest ->
      exists c, t = String c "" /\ is_lower c = true) /\
   (forall t, generated (generatePassword w d) = Some t ->
      Forall (fun c => is_letter c = true -> is_lower c = true)
             (list_ascii_of_string t))).
Proof.
  intros Hw Hs Hd.
  pose proof (generatePassword_output g w d Hw Hs Hd) as H.
  split; intros E0 E1; split.
  - intros t w' rest E.
    exact (letter_result_upper g t E0 E1 (chooseLetter_value g w w' d rest t Hw Hd E)).
  - intros t Ht.
    destruct (generatePassword w d) as [[] w' rest | err w' | w'];
      try discriminate Ht.
    injection Ht as <-. destruct H as [H _].
    eapply Forall_impl; [| exact H]. cbn beta.
    intros c [[Hc _] | [[_ E] | [[Hc _] | [Hc _]]]] Hl; try congruence.
    + rewrite (digit_not_letter c Hc) in Hl. discriminate.
    + rewrite (proj1 (is_symbol_not_letter c Hc)) in Hl. discriminate.
  - intros t w' rest E.
    exact (letter_result_lower g t E0 E1 (chooseLetter_value g w w' d rest t Hw Hd E)).
  - intros t Ht.
    destruct (generatePassword w d) as [[] w' rest | err w' | w'];
      try discriminate Ht.
    injection Ht as <-. destruct H as [H _].
    eapply Forall_impl; [| exact H]. cbn beta.
    intros c [[_ E] | [[Hc _] | [[Hc _] | [Hc _]]]] Hl; try congruence.
    + rewrite (digit_not_letter c Hc) in Hl. discriminate.
    + rewrite (proj1 (is_symbol_not_letter c Hc)) in Hl. discriminate.
Qed.

Lemma single_case_letters_witness :
  generated (generatePassword (started 2 [true; false; true; false])
               [0; 1 # 2; 0; 127 # 128; 0; 0; 0; 0; 0; 127 # 128; 1 # 2; 127 # 128]%Q)
  = Some "N5" /\
  Forall (fun c => is_letter c = true -> is_upper c = true)
         (list_ascii_of_string "N5").
Proof.
  split; [vm_compute; reflexivity |].
  apply (proj1 (single_case_letters
                  (this (started 2 [true; false; true; false]))
                  (started 2 [true; false; true; false])
                  [0; 1 # 2; 0; 127 # 128; 0; 0; 0; 0; 0; 127 # 128; 1 # 2; 127 # 128]%Q
                  eq_refl eq_refl
                  ltac:(repeat (apply Forall_cons; [split; lra |]);
                        apply Forall_nil))
               eq_refl eq_refl).
  vm_compute. reflexivity.
Defined.

(** ** Indexed reads stay inside their tables *)

Lemma triple_accesses {A : Type} (g : PasswordGenerator) (P : Access -> Prop)
    (m : M A) (Q : A -> Prop) (w : World) (d : Draws) :
  triple g P m Q -> this w = g -> accesses w = [] -> Forall unit_draw d ->
  Forall P (accesses (world_of (m w d))).
Proof.
  intros Hm Hw Ha Hd.
  assert (Hi : Inv g P w) by (split; [exact Hw | rewrite Ha; constructor]).
  specialize (Hm w d Hi Hd).
  destruct (m w d) as [a w' rest | err w' | w']; cbn; apply Hm.
Qed.

Lemma parts_in_bounds (g : PasswordGenerator) (i : Z) :
  List.length (passwordParts g) = 4%nat -> 0 <= i <= 3 ->
  in_bounds (mkAccess A_passwordParts i (List.length (passwordParts g))) = true.
Proof.
  intros Hparts Hi. unfold in_bounds. cbn. rewrite Hparts.
  apply andb_true_iff. split; [apply Z.leb_le | apply Z.ltb_lt]; lia.
Qed.

Lemma probs_in_bounds (g : PasswordGenerator) (lvl : PasswordStrengths) :
  strength g = ordinal lvl ->
  in_bounds (mkAccess A_strengthProbs (strength g) (List.length strengthProbs))
  = true.
Proof. intros ->. destruct lvl; reflexivity. Qed.

Lemma symbols_in_bounds (g : PasswordGenerator) (v : Q) :
  symbols g = symbols_literal -> unit_draw v ->
  in_bounds (mkAccess A_symbols (symbolIndex g v) (String.length (symbols g)))
  = true.
Proof.
  intros Hsym Hv. unfold in_bounds, symbolIndex. cbn [idx len]. rewrite Hsym.
  pose proof (randomInt_range (Z.of_nat (String.length symbols_literal) - 1) v
                ltac:(cbn; lia) Hv) as Hr.
  apply andb_true_iff. split; [apply Z.leb_le | apply Z.ltb_lt]; lia.
Qed.

Lemma case_reads (g : PasswordGenerator) (i : Z) :
  List.length (passwordParts g) = 4%nat -> 0 <= i <= 1 ->
  (fun a => arr a = A_passwordParts /\ 0 <= idx a <= 1 /\ in_bounds a = true)
    (mkAccess A_passwordParts i (List.length (passwordParts g))).
Proof.
  intros Hparts Hi. cbn beta. split; [reflexivity |]. split; [exact Hi |].
  apply parts_in_bounds; [exact Hparts | lia].
Qed.

(** C10. With a strength of the table (and the four toggles and the symbol
    string the constructor sets up), on draws of [Math.random()]: every
    indexed read made by a call of [generatePassword] is inside its table;
    [chooseLetter] reads [passwordParts] only, at index 0 or 1;
    [chooseNumOrSymbol] never returns [undefined]; and no call throws. *)
Theorem reads_in_bounds (g : PasswordGenerator) (lvl : PasswordStrengths)
    (w : World) (d : Draws) :
  strength g = ordinal lvl -> List.length (passwordParts g) = 4%nat ->
  symbols g = symbols_literal ->
  this w = g -> accesses w = [] -> Forall unit_draw d ->
  Forall (fun a => in_bounds a = true)
         (accesses (world_of (generatePassword w d))) /\
  Forall (fun a => arr a = A_passwordParts /\ 0 <= idx a <= 1 /\
                   in_bounds a = true)
         (accesses (world_of (chooseLetter w d))) /\
  Forall (fun a => in_bounds a = true)
         (accesses (world_of (chooseNumOrSymbol w d))) /\
  (forall v w' rest, chooseNumOrSymbol w d = Returned v w' rest -> v <> None) /\
  (forall e w', generatePassword w d <> Thrown e w').
Proof.
  intros Hstr Hparts Hsym Hw Ha Hd.
  assert (Hi : forall P, Inv g P w).
  { intros P. split; [exact Hw | rewrite Ha; constructor]. }
  pose proof (generatePassword_safe g (fun a => in_bounds a = true)
                (fun i Hi => parts_in_bounds g i Hparts ltac:(lia))
                (fun i Hi => parts_in_bounds g i Hparts ltac:(lia))
                (probs_in_bounds g lvl Hstr) (fun v => symbols_in_bounds g v Hsym)
                w d (Hi _) Hd) as Hgen.
  split; [| split; [| split; [| split]]].
  - destruct (generatePassword w d) as [[] w' rest | err w' | w']; cbn;
      apply Hgen.
  - exact (triple_accesses g _ _ _ w d
             (chooseLetter_safe g _ (fun i => case_reads g i Hparts)) Hw Ha Hd).
  - refine (triple_accesses g _ _ _ w d
              (chooseNumOrSymbol_safe g (fun a => in_bounds a = true)
                 (fun i Hi => parts_in_bounds g i Hparts ltac:(lia))
                 (probs_in_bounds g lvl Hstr) (fun v => symbols_in_bounds g v Hsym))
              Hw Ha Hd).
  - intros v w' rest E.
    pose proof (chooseNumOrSymbol_safe g any_access (fun _ _ => I) I
                  (fun _ _ => I) w d (Hi _) Hd) as H.
    rewrite E in H. destruct H as [[[_ [_ ->]] | [Hp | Hp]] _].
    + discriminate.
    + destruct (symbol_piece_char g v Hsym Hp) as [c [-> _]]. discriminate.
    + destruct (digit_piece_char g v Hp) as [c [-> _]]. discriminate.
  - intros e w' E. rewrite E in Hgen.
    exact (valid_not_invalid g lvl Hstr (proj1 Hgen)).
Qed.

Lemma example_draws_unit :
  Forall unit_draw
    [0; 1 # 2; 0; 127 # 128; 0; 0; 0; 0; 0; 127 # 128; 1 # 2; 127 # 128]%Q.
Proof. repeat (apply Forall_cons; [split; lra |]). apply Forall_nil. Qed.

Lemma reads_in_bounds_witness :
  Forall (fun a => in_bounds a = true)
         (accesses (world_of (generatePassword
            (mkWorld capitals_and_digits [])
            [0; 1 # 2; 0; 127 # 128; 0; 0; 0; 0; 0; 127 # 128; 1 # 2; 127 # 128]%Q))).
Proof.
  exact (proj1 (reads_in_bounds capitals_and_digits medium
           (mkWorld capitals_and_digits [])
           [0; 1 # 2; 0; 127 # 128; 0; 0; 0; 0; 0; 127 # 128; 1 # 2; 127 # 128]%Q
           eq_refl eq_refl eq_refl eq_refl eq_refl example_draws_unit)).
Defined.

(** ** setPasswordStrength *)

Lemma valid_ordinal_defined (n : Z) :
  valid_ordinal n = true -> exists p, js_index strengthProbs n = Some p.
Proof.
  unfold valid_ordinal. intros H. apply andb_true_iff in H.
  destruct H as [H1 H2]. apply Z.leb_le in H1, H2.
  assert (Hn : n = 0 \/ n = 1 \/ n = 2 \/ n = 3) by lia.
  destruct Hn as [-> | [-> | [-> | ->]]]; eexists; reflexivity.
Qed.

Lemma invalid_ordinal_undefined (n : Z) :
  valid_ordinal n = false -> js_index strengthProbs n = None.
Proof.
  unfold valid_ordinal, js_index. intros H.
  destruct (n <? 0) eqn:E; [reflexivity |].
  apply Z.ltb_ge in E. rewrite (proj2 (Z.leb_le 0 n) E) in H. cbn in H.
  apply Z.leb_gt in H.
  destruct (Z.to_nat n) as [|[|[|[|k]]]] eqn:Ek; try lia.
  cbn. destruct k; reflexivity.
Qed.

(** The bars are painted in turn; the strength is not touched, and the
    first bar whose value is at most an ordinal outside the table throws. *)
Lemma forEach_paint (n : Z) (l : list Level) (i : nat) (w : World) :
  strength (this w) = n ->
  strength (this (snd (forEach_from i l paint_level w))) = n /\
  charLength (this (snd (forEach_from i l paint_level w))) = charLength (this w) /\
  passwordParts (this (snd (forEach_from i l paint_level w)))
    = passwordParts (this w) /\
  symbols (this (snd (forEach_from i l paint_level w))) = symbols (this w) /\
  is_err (fst (forEach_from i l paint_level w))
    = negb (valid_ordinal n) && existsb (fun lv => nan_leb (value lv) n) l.
Proof.
  revert i w. induction l as [|lv l IH]; intros i w Hw.
  - cbn. rewrite andb_false_r. auto.
  - cbn [forEach_from existsb]. unfold paint_level at 1 3 5 7 9.
    cbn [bind Monad_Eff getThis]. rewrite Hw.
    destruct (nan_leb (value lv) n) eqn:En.
    + unfold read_strengthProbs. cbn [bind Monad_Eff record ret].
      destruct (valid_ordinal n) eqn:Ev.
      * destruct (valid_ordinal_defined n Ev) as [p Hp]. rewrite Hp.
        cbn [ret Monad_Eff modifyThis].
        match goal with
        | |- context [forEach_from (S i) l paint_level ?w1] =>
            destruct (IH (S i) w1 Hw) as [H1 [H2 [H3 [H4 H5]]]]
        end.
        cbn [negb andb orb] in H5 |- *.
        repeat split; assumption.
      * rewrite (invalid_ordinal_undefined n Ev). cbn. auto.
    + cbn [modifyThis].
      match goal with
      | |- context [forEach_from (S i) l paint_level ?w1] =>
          destruct (IH (S i) w1 Hw) as [H1 [H2 [H3 [H4 H5]]]]
      end.
      cbn [orb]. repeat split; assumption.
Qed.

(** C2, as amended. The setter does not check its argument: for every
    ordinal it stores the ordinal as the new strength, and leaves
    [charLength], [passwordParts] and [symbols] alone.  It throws exactly
    when the ordinal is outside 0..3 and some strength bar has a value at
    most the ordinal, and then the strength is already overwritten.  So
    the stored strength is an enumerant exactly when the ordinal passed
    was one. *)
Theorem setPasswordStrength_stores (n : Z) (w : World) :
  strength (this (snd (setPasswordStrength n w))) = n /\
  charLength (this (snd (setPasswordStrength n w))) = charLength (this w) /\
  passwordParts (this (snd (setPasswordStrength n w))) = passwordParts (this w) /\
  symbols (this (snd (setPasswordStrength n w))) = symbols (this w) /\
  is_err (fst (setPasswordStrength n w))
    = negb (valid_ordinal n)
      && existsb (fun lv => nan_leb (value lv) n) (strengthLevels (dom (this w))) /\
  ((exists lvl, strength (this (snd (setPasswordStrength n w))) = ordinal lvl)
   <-> valid_ordinal n = true).
Proof.
  assert (H : setPasswordStrength n w =
              forEach_from O (strengthLevels (dom (this w))) paint_level
                (mkWorld (set_strength n
                            (set_dom (set_strengthDesc
                               (text_of (js_index (strengthTitles (this w)) n)))
                               (this w)))
                         (accesses w ++ [mkAccess A_strengthTitles n
                            (List.length (strengthTitles (this w)))]))).
  { reflexivity. }
  rewrite H.
  match goal with
  | |- context [forEach_from O ?l paint_level ?w1] =>
      destruct (forEach_paint n l O w1 eq_refl) as [H1 [H2 [H3 [H4 H5]]]]
  end.
  repeat split; try assumption.
  - intros [lvl Hl]. rewrite H1 in Hl. subst n. destruct lvl; reflexivity.
  - intros Hv. rewrite H1. unfold valid_ordinal in Hv.
    apply andb_true_iff in Hv. destruct Hv as [Ha Hb].
    apply Z.leb_le in Ha, Hb.
    assert (Hn : n = 0 \/ n = 1 \/ n = 2 \/ n = 3) by lia.
    destruct Hn as [-> | [-> | [-> | ->]]];
      [exists weak | exists medium | exists strong | exists veryStrong];
      reflexivity.
Qed.

(** C2, counterexample. After the constructor the strength is 1.  The
    setter with ordinal -1 reports no error and stores -1; with ordinal 7 it
    throws, and the stored strength is 7 all the same. *)
Lemma setPasswordStrength_counterexample :
  strength (this (started 7 [true; true; true; true])) = 1 /\
  fst (setPasswordStrength (-1) (started 7 [true; true; true; true])) = Ok tt /\
  strength (this (snd (setPasswordStrength (-1)
                         (started 7 [true; true; true; true])))) = -1 /\
  fst (setPasswordStrength 7 (started 7 [true; true; true; true]))
    = Err TypeError /\
  strength (this (snd (setPasswordStrength 7
                         (started 7 [true; true; true; true])))) = 7.
Proof. vm_compute. repeat split; reflexivity. Qed.

(** ** The value of a call on given draws *)

Lemma bind_Eff {A B : Type} (e : Eff A) (k : A -> Eff B) (w : World) :
  bind e k w =
  match e w with
  | (Ok a, w') => k a w'
  | (Err err, w') => (Err err, w')
  end.
Proof. reflexivity. Qed.

Lemma yields_ret {A : Type} (a : A) (w : World) (d : Draws) :
  yields (ret a) w d a d.
Proof. exists w. split; reflexivity. Qed.

Lemma yields_random (w : World) (u : Q) (d : Draws) :
  yields random w (u :: d) u d.
Proof. exists w. split; reflexivity. Qed.

Lemma yields_bind {A B : Type} (m : M A) (k : A -> M B) (w : World)
    (d r r' : Draws) (a : A) (b : B) :
  yields m w d a r ->
  (forall w', this w' = this w -> yields (k a) w' r b r') ->
  yields (bind m k) w d b r'.
Proof.
  intros [w1 [E1 H1]] Hk. destruct (Hk w1 H1) as [w2 [E2 H2]].
  exists w2. rewrite bind_M, E1. split; [exact E2 | congruence].
Qed.

Section Exact.
Variable g : PasswordGenerator.
Variable lvl : PasswordStrengths.
Hypothesis Hstr : strength g = ordinal lvl.

Lemma exact_value {A : Type} (e : Eff A) (a : A) (w : World) :
  etriple g any_access e (fun x => x = a) -> this w = g ->
  exists w', e w = (Ok a, w') /\ this w' = g.
Proof.
  intros He Hw. specialize (He w (Inv_any g w Hw)).
  destruct (e w) as [[x|err] w'].
  - destruct He as [-> [Hw' _]]. exists w'. auto.
  - destruct He as [Hi _]. destruct (valid_not_invalid g lvl Hstr Hi).
Qed.

Lemma yields_lift {A : Type} (e : Eff A) (a : A) (w : World) (d : Draws) :
  etriple g any_access e (fun x => x = a) -> this w = g ->
  yields (lift e) w d a d.
Proof.
  intros He Hw. destruct (exact_value e a w He Hw) as [w' [E Hw']].
  exists w'. unfold lift. rewrite E. split; [reflexivity | congruence].
Qed.

Lemma accepted_exact (choice : Z) :
  etriple g any_access (accepted choice)
          (fun b => b = accepts (profile lvl) g choice).
Proof.
  eapply etriple_conseq.
  - apply (accepted_safe g any_access (fun i _ => any_parts g i) (any_probs g)).
  - cbn beta. intros b [p [Hp ->]]. rewrite Hstr, profile_defined in Hp.
    congruence.
Qed.

Lemma read_strengthProbs_exact :
  etriple g any_access (read_strengthProbs (strength g))
          (fun p => p = profile lvl).
Proof.
  eapply etriple_conseq.
  - apply (read_strengthProbs_safe g any_access (any_probs g)).
  - cbn beta. intros p Hp. rewrite Hstr, profile_defined in Hp. congruence.
Qed.

(** The loop of [chooseNumOrSymbol] on draws that are rejected up to one
    that is accepted. *)
Lemma numOrSymbol_loop (pre : Draws) (u : Q) (rest : Draws) (choice : Z)
    (w : World) :
  this w = g ->
  Forall (fun x => accepts (profile lvl) g (randomInt 99 x) = false) pre ->
  accepts (profile lvl) g (randomInt 99 u) = true ->
  yields (chooseNumOrSymbol_while choice) w (pre ++ u :: rest)%list
         (randomInt 99 u, true) rest.
Proof.
  unfold chooseNumOrSymbol_while. intros Hw Hpre Hu. revert choice w Hw.
  induction Hpre as [|x pre Hx Hpre IH]; intros choice w Hw.
  - destruct (exact_value _ _ w (accepted_exact (randomInt 99 u)) Hw)
      as [w1 [E1 Hw1]].
    exists w1. cbn [app]. rewrite while_unfold.
    cbn [ret Monad_Eff snd negb]. cbv zeta. rewrite bind_Eff, E1, Hu.
    cbn [ret Monad_Eff]. rewrite while_unfold. cbn [ret Monad_Eff snd negb].
    split; [reflexivity | congruence].
  - destruct (exact_value _ _ w (accepted_exact (randomInt 99 x)) Hw)
      as [w1 [E1 Hw1]].
    destruct (IH (randomInt 99 x) w1 Hw1) as [w2 [E2 Hw2]].
    exists w2. cbn [app]. rewrite while_unfold.
    cbn [ret Monad_Eff snd negb]. cbv zeta. rewrite bind_Eff, E1, Hx.
    cbn [ret Monad_Eff]. split; [exact E2 | congruence].
Qed.

Hypothesis Hsym : symbols g = symbols_literal.

Lemma accepts_enabled (choice : Z) :
  accepts (profile lvl) g choice = true ->
  negb (enabled g 2) && negb (enabled g 3) = false.
Proof.
  unfold accepts. destruct (enabled g 2), (enabled g 3); try reflexivity.
  rewrite !andb_false_r. discriminate.
Qed.

Lemma numOrSymbol_run (u0 u v : Q) (pre rest : Draws) (w : World) :
  this w = g ->
  Forall (fun x => accepts (profile lvl) g (randomInt 99 x) = false) pre ->
  accepts (profile lvl) g (randomInt 99 u) = true ->
  yields chooseNumOrSymbol w (u0 :: pre ++ u :: v :: rest)%list
         (numOrSymbol_of lvl u v) rest.
Proof.
  intros Hw Hpre Hu. unfold chooseNumOrSymbol.
  eapply yields_bind; [apply yields_random |]. intros w1 H1.
  eapply yields_bind.
  { apply yields_lift; [| congruence].
    apply andE_safe; apply not_part_safe, any_parts. }
  intros w2 H2. rewrite (accepts_enabled _ Hu).
  eapply yields_bind.
  { apply numOrSymbol_loop; [congruence | exact Hpre | exact Hu]. }
  intros w3 H3. cbn zeta. cbn [fst].
  eapply yields_bind.
  { apply yields_lift; [apply etriple_getThis | congruence]. }
  intros w4 H4.
  eapply yields_bind.
  { apply yields_lift; [apply read_strengthProbs_exact | congruence]. }
  intros w5 H5. unfold numOrSymbol_of.
  destruct (randomInt 99 u <=? symbol (profile lvl)).
  - eapply yields_bind; [apply yields_random |]. intros w6 H6.
    rewrite Hsym.
    change (Z.of_nat (String.length symbols_literal) - 1) with 33.
    exists (mkWorld (this w6)
              (accesses w6 ++ [mkAccess A_symbols (randomInt 33 v)
                                 (String.length (symbols (this w6)))])).
    unfold lift, read_symbols. rewrite !bind_Eff.
    cbn [getThis record ret Monad_Eff this].
    replace (symbols (this w6)) with symbols_literal by (rewrite <- Hsym; congruence).
    split; reflexivity.
  - eapply yields_bind; [apply yields_random |]. intros w6 H6.
    apply yields_ret.
Qed.

End Exact.

(** ** Which draws give which symbol, which digit *)

Lemma toString_is (n d : Z) :
  0 <= n <= 9 -> 0 <= d <= 9 -> (toString n = toString d <-> n = d).
Proof.
  intros Hn Hd. revert d Hd. revert n Hn.
  apply (digit_cases (fun n => forall d, 0 <= d <= 9 ->
                                 (toString n = toString d <-> n = d))).
  cbn [map seq Z.of_nat Pos.of_succ_nat Pos.succ].
  repeat (apply Forall_cons;
          [apply digit_cases; cbn [map seq Z.of_nat Pos.of_succ_nat Pos.succ];
           repeat (apply Forall_cons;
                   [split; intros H; (reflexivity || discriminate H) |]);
           apply Forall_nil |]).
  apply Forall_nil.
Qed.

(** C4, as amended. Once the loop of [chooseNumOrSymbol] accepted a sampled
    value (draw [u], after the rejected draws [pre]): if the value is at most
    the symbol percentage of the strength, the result is the character of
    the 34-character symbol string at index [Math.round(v * 33)], [v] the
    next draw; otherwise it is the digit [Math.round(v * 9)].  Every index
    and every digit occurs, but not with equal weight: index [i] is read on
    every draw from (2i - 1)/66 up to (2i + 1)/66 - 2^-45 and on no draw
    outside (2i - 1)/66 - 2^-45 <= v < (2i + 1)/66, and digit [n] likewise
    with 18 for 66 (the edges are those of the double product, within 2^-46
    of the exact one), so the two ends get about half the share of the
    others. *)
Theorem numOrSymbol_choice (g : PasswordGenerator) (lvl : PasswordStrengths)
    (w : World) (u0 u v : Q) (pre rest : Draws) :
  this w = g -> strength g = ordinal lvl -> symbols g = symbols_literal ->
  unit_draw u -> unit_draw v ->
  Forall (fun x => accepts (profile lvl) g (randomInt 99 x) = false) pre ->
  accepts (profile lvl) g (randomInt 99 u) = true ->
  yields chooseNumOrSymbol w (u0 :: pre ++ u :: v :: rest)%list
         (if randomInt 99 u <=? symbol (profile lvl)
          then js_char_at symbols_literal (randomInt 33 v)
          else Some (toString (randomInt 9 v)))
         rest /\
  0 <= randomInt 99 u <= 99 /\
  String.length symbols_literal = 34%nat /\
  (exists c, js_char_at symbols_literal (randomInt 33 v) = Some (String c "") /\
             is_symbol c = true) /\
  (exists c, toString (randomInt 9 v) = String c "" /\ is_digit c = true) /\
  (forall i, (2 * inject_Z i - 1 <= 66 * v /\
              66 * (v + slack) <= 2 * inject_Z i + 1)%Q ->
             randomInt 33 v = i) /\
  (forall i, randomInt 33 v = i ->
             (2 * inject_Z i - 1 <= 66 * (v + slack) /\
              66 * v < 2 * inject_Z i + 1)%Q) /\
  (forall n, (2 * inject_Z n - 1 <= 18 * v /\
              18 * (v + slack) <= 2 * inject_Z n + 1)%Q ->
             randomInt 9 v = n) /\
  (forall n, randomInt 9 v = n ->
             (2 * inject_Z n - 1 <= 18 * (v + slack) /\
              18 * v < 2 * inject_Z n + 1)%Q).
Proof.
  intros Hw Hstr Hsym Hu Hv Hpre Hacc.
  split; [exact (numOrSymbol_run g lvl Hstr Hsym u0 u v pre rest w Hw Hpre Hacc) |].
  split; [apply randomInt_range; [lia | exact Hu] |].
  split; [reflexivity |].
  pose proof (randomInt_range 33 v ltac:(lia) Hv) as H33.
  pose proof (randomInt_range 9 v ltac:(lia) Hv) as H9.
  split; [| split; [| split; [| split; [| split]]]].
  - destruct (js_char_at_in symbols_literal (randomInt 33 v)) as [c [Hc Hin]].
    { change (Z.of_nat (String.length symbols_literal)) with 34. lia. }
    exists c. split; [exact Hc |]. unfold is_symbol. apply existsb_exists.
    exists c. split; [exact Hin | apply Ascii.eqb_refl].
  - exact (toString_digit (randomInt 9 v) H9).
  - intros i [H1 H2]. apply randomInt_inside; [lia | exact Hv |].
    change (inject_Z 33) with (33 # 1)%Q. split; lra.
  - intros i Hi. apply (randomInt_outside 33 i v ltac:(lia) Hv) in Hi.
    change (inject_Z 33) with (33 # 1)%Q in Hi. destruct Hi. split; lra.
  - intros n [H1 H2]. apply randomInt_inside; [lia | exact Hv |].
    change (inject_Z 9) with (9 # 1)%Q. split; lra.
  - intros n Hn. apply (randomInt_outside 9 n v ltac:(lia) Hv) in Hn.
    change (inject_Z 9) with (9 # 1)%Q in Hn. destruct Hn. split; lra.
Qed.

Lemma numOrSymbol_choice_witness :
  yields chooseNumOrSymbol (mkWorld numbers_only [])
         [0; 1 # 8; 127 # 128; 1 # 2]%Q (Some "5") [].
Proof.
  exact (proj1 (numOrSymbol_choice numbers_only medium
                  (mkWorld numbers_only []) 0 (127 # 128) (1 # 2)
                  [(1 # 8)%Q] [] eq_refl eq_refl eq_refl
                  ltac:(split; lra) ltac:(split; lra)
                  ltac:(repeat constructor) eq_refl)).
Defined.

Lemma digit_for_value (v : Q) :
  digit_for v = Some (Some (toString (randomInt 9 v))).
Proof.
  destruct (numOrSymbol_run numbers_only medium eq_refl eq_refl
              0 (127 # 128) v [] [] (mkWorld numbers_only []) eq_refl
              (Forall_nil _) eq_refl) as [w' [E _]].
  unfold digit_for. cbn [app] in E. rewrite E. reflexivity.
Qed.

Lemma digit_inside (n : Z) (v : Q) :
  unit_draw v ->
  (2 * inject_Z n - 1 <= 18 * v /\ 18 * (v + slack) <= 2 * inject_Z n + 1)%Q ->
  digit_for v = Some (Some (toString n)).
Proof.
  intros Hv [H1 H2]. rewrite digit_for_value. do 3 f_equal.
  apply randomInt_inside; [lia | exact Hv |].
  change (inject_Z 9) with (9 # 1)%Q. split; lra.
Qed.

Lemma digit_outside (n : Z) (v : Q) :
  0 <= n <= 9 -> unit_draw v -> digit_for v = Some (Some (toString n)) ->
  (2 * inject_Z n - 1 <= 18 * (v + slack) /\ 18 * v < 2 * inject_Z n + 1)%Q.
Proof.
  intros Hn Hv H. rewrite digit_for_value in H. injection H as H.
  apply toString_is in H;
    [| apply randomInt_range; [lia | exact Hv] | exact Hn].
  apply (randomInt_outside 9 n v ltac:(lia) Hv) in H.
  change (inject_Z 9) with (9 # 1)%Q in H. destruct H. split; lra.
Qed.

(** C4, counterexample. The digit is not chosen uniformly from 0 to 9: with
    only numbers enabled, the result is 0 on no draw from 1/18 on, and it is
    1 on every draw from 1/18 up to 3/18 - 2^-45, a band that is about twice
    as wide. *)
Lemma numOrSymbol_choice_counterexample :
  this (started 1 [false; false; true; false]) = numbers_only /\
  (forall v, unit_draw v -> digit_for v = Some (Some "0") -> (v < 1 # 18)%Q) /\
  (forall v, unit_draw v -> (1 # 18 <= v)%Q -> (v + slack <= 3 # 18)%Q ->
             digit_for v = Some (Some "1")) /\
  ((1 # 18) - 0 < (3 # 18) - slack - (1 # 18))%Q.
Proof.
  split; [vm_compute; reflexivity |].
  split; [| split].
  - intros v Hv H. change (Some "0") with (Some (toString 0)) in H.
    apply (digit_outside 0 v ltac:(lia) Hv) in H.
    change (inject_Z 0) with 0%Q in H. destruct H. lra.
  - intros v Hv H1 H2. change (Some "1") with (Some (toString 1)).
    apply (digit_inside 1 v Hv). change (inject_Z 1) with 1%Q. split; lra.
  - reflexivity.
Qed.

(** ** The share of symbols *)

Lemma symbol_inside (lvl : PasswordStrengths) (u : Q) :
  unit_draw u -> (u + slack <= symbolProbability lvl)%Q ->
  (randomInt 99 u <=? symbol (profile lvl)) = true.
Proof.
  intros Hu H. apply Z.leb_le.
  apply randomInt_at_most_inside; [lia | exact Hu |].
  change (inject_Z 99) with (99 # 1)%Q.
  destruct lvl.
  - change (symbolProbability weak) with (11 # 198)%Q in H.
    change (inject_Z (symbol (profile weak))) with (5 # 1)%Q. lra.
  - change (symbolProbability medium) with (41 # 198)%Q in H.
    change (inject_Z (symbol (profile medium))) with (20 # 1)%Q. lra.
  - change (symbolProbability strong) with (81 # 198)%Q in H.
    change (inject_Z (symbol (profile strong))) with (40 # 1)%Q. lra.
  - change (symbolProbability veryStrong) with (161 # 198)%Q in H.
    change (inject_Z (symbol (profile veryStrong))) with (80 # 1)%Q. lra.
Qed.

Lemma symbol_outside (lvl : PasswordStrengths) (u : Q) :
  unit_draw u -> (randomInt 99 u <=? symbol (profile lvl)) = true ->
  (u < symbolProbability lvl)%Q.
Proof.
  intros Hu H. apply Z.leb_le in H.
  apply (randomInt_at_most_outside 99 _ u ltac:(lia) Hu) in H.
  change (inject_Z 99) with (99 # 1)%Q in H.
  destruct lvl.
  - change (symbolProbability weak) with (11 # 198)%Q.
    change (inject_Z (symbol (profile weak))) with (5 # 1)%Q in H. lra.
  - change (symbolProbability medium) with (41 # 198)%Q.
    change (inject_Z (symbol (profile medium))) with (20 # 1)%Q in H. lra.
  - change (symbolProbability strong) with (81 # 198)%Q.
    change (inject_Z (symbol (profile strong))) with (40 # 1)%Q in H. lra.
  - change (symbolProbability veryStrong) with (161 # 198)%Q.
    change (inject_Z (symbol (profile veryStrong))) with (80 # 1)%Q in H. lra.
Qed.

Section SymbolShare.
Variable g : PasswordGenerator.
Variable lvl : PasswordStrengths.
Hypothesis Hstr : strength g = ordinal lvl.
Hypothesis Hsym : symbols g = symbols_literal.
Hypothesis Hparts : passwordParts g = [false; false; true; true].

Lemma chooseLetter_off (w : World) (d : Draws) :
  this w = g -> yields chooseLetter w d "" d.
Proof.
  intros Hw. unfold chooseLetter. eapply yields_bind.
  { apply (yields_lift g lvl Hstr); [| exact Hw].
    apply andE_safe; apply not_part_safe, any_parts. }
  intros w1 H1. unfold enabled. rewrite Hparts. cbn [js_index Z.ltb Z.compare
    Z.to_nat nth_error truthy negb andb Pos.to_nat Pos.iter_op Nat.add].
  apply yields_ret.
Qed.

Lemma accepts_both (choice : Z) : accepts (profile lvl) g choice = true.
Proof.
  unfold accepts, enabled. rewrite Hparts.
  change (truthy (js_index [false; false; true; true] 3)) with true.
  change (truthy (js_index [false; false; true; true] 2)) with true.
  rewrite !andb_true_r.
  destruct (choice <=? symbol (profile lvl)) eqn:E; [reflexivity |].
  apply Z.leb_gt in E. cbn [orb]. apply Z.gtb_lt. lia.
Qed.

Lemma numOrSymbol_char (u v : Q) :
  unit_draw v ->
  exists c, numOrSymbol_of lvl u v = Some (String c "") /\
            (is_symbol c = true <->
             (randomInt 99 u <=? symbol (profile lvl)) = true) /\
            (is_symbol c = false -> is_digit c = true).
Proof.
  intros Hv. unfold numOrSymbol_of.
  destruct (randomInt 99 u <=? symbol (profile lvl)) eqn:Eb.
  - destruct (js_char_at_in symbols_literal (randomInt 33 v)) as [c [Hc Hin]].
    { pose proof (randomInt_range 33 v ltac:(lia) Hv).
      change (Z.of_nat (String.length symbols_literal)) with 34. lia. }
    assert (Hs : is_symbol c = true).
    { unfold is_symbol. apply existsb_exists. exists c.
      split; [exact Hin | apply Ascii.eqb_refl]. }
    exists c. split; [exact Hc |]. split.
    + split; intros _; [reflexivity | exact Hs].
    + intros H. congruence.
  - destruct (toString_digit (randomInt 9 v)
                (randomInt_range 9 v ltac:(lia) Hv)) as [c [Hc Hd]].
    exists c. rewrite Hc. split; [reflexivity |]. split.
    + split; intros H.
      * apply is_symbol_not_letter in H. destruct H. congruence.
      * discriminate H.
    + intros _. exact Hd.
Qed.

(** One turn of the loop of [generatePassword] with only numbers and
    symbols enabled: four draws are made; the character appended is a
    symbol when the value sampled from the second draw is at most the
    symbol percentage, a digit otherwise. *)
Lemma numbers_and_symbols_turn (w : World) (u0 u v sel : Q) (rest : Draws)
    (n : nat) (password : string) :
  this w = g -> unit_draw v ->
  exists c w',
    generatePassword_for (S n) password w (u0 :: u :: v :: sel :: rest)
      = generatePassword_for n (password ++ String c "") w' rest /\
    this w' = g /\
    (is_symbol c = true <->
     (randomInt 99 u <=? symbol (profile lvl)) = true) /\
    (is_symbol c = false -> is_digit c = true).
Proof.
  intros Hw Hv.
  destruct (chooseLetter_off w (u0 :: u :: v :: sel :: rest) Hw)
    as [w1 [E1 H1]].
  assert (Hw1 : this w1 = g) by congruence.
  destruct (numOrSymbol_run g lvl Hstr Hsym u0 u v [] (sel :: rest) w1 Hw1
              (Forall_nil _) (accepts_both _)) as [w2 [E2 H2]].
  assert (Hw2 : this w2 = g) by congruence.
  destruct (exact_value g lvl Hstr _ _ w2 (read_strengthProbs_exact g lvl Hstr)
              Hw2) as [w3 [E3 Hw3]].
  destruct (numOrSymbol_char u v Hv) as [c [Hc [Hc1 Hc2]]].
  exists c, w3. split; [| auto].
  cbn [generatePassword_for]. rewrite bind_M, E1. cbv beta iota.
  cbn [app] in E2. rewrite bind_M, E2. cbv beta iota.
  rewrite bind_M. cbn [random]. cbv beta iota zeta.
  rewrite bind_M. unfold lift at 1. cbn [getThis]. cbv beta iota.
  rewrite bind_M. unfold lift at 1. rewrite Hw2, E3. cbv beta iota.
  rewrite Hc. cbn [js_is_empty js_text String.eqb negb andb orb].
  rewrite andb_false_r. reflexivity.
Qed.

End SymbolShare.

(** C6, as amended. With only numbers and symbols enabled, every position of
    the password takes four draws and holds a symbol exactly when the value
    [Math.round(u * 99)] sampled from the second of them is at most the
    symbol percentage [s] of the strength, a digit otherwise: a symbol on
    every draw [u] up to (2s + 1)/198 - 2^-45 and on no draw from
    (2s + 1)/198 on.  For a uniform draw the share of symbols is therefore
    (2s + 1)/198 up to 2^-45: 11/198 at weak, which is more than 5.5%, and
    41/198, 81/198 and 161/198 at medium, strong and veryStrong; it grows
    strictly from weak to veryStrong. *)
Theorem symbol_share (g : PasswordGenerator) (lvl : PasswordStrengths)
    (w : World) (u0 u v sel : Q) (rest : Draws) (n : nat) (password : string) :
  this w = g -> strength g = ordinal lvl -> symbols g = symbols_literal ->
  passwordParts g = [false; false; true; true] ->
  unit_draw u -> unit_draw v ->
  (exists c w',
     generatePassword_for (S n) password w (u0 :: u :: v :: sel :: rest)
       = generatePassword_for n (password ++ String c "") w' rest /\
     this w' = g /\
     (is_symbol c = true <->
      (randomInt 99 u <=? symbol (profile lvl)) = true) /\
     ((u + slack <= symbolProbability lvl)%Q -> is_symbol c = true) /\
     (is_symbol c = true -> (u < symbolProbability lvl)%Q) /\
     (is_symbol c = false -> is_digit c = true)) /\
  (symbolProbability weak == 11 # 198 /\
   symbolProbability medium == 41 # 198 /\
   symbolProbability strong == 81 # 198 /\
   symbolProbability veryStrong == 161 # 198)%Q /\
  (55 # 1000 < symbolProbability weak - slack)%Q /\
  (symbolProbability weak < symbolProbability medium - slack /\
   symbolProbability medium < symbolProbability strong - slack /\
   symbolProbability strong < symbolProbability veryStrong - slack)%Q.
Proof.
  intros Hw Hstr Hsym Hparts Hu Hv.
  split; [| split; [repeat split | split; [reflexivity | repeat split]]].
  destruct (numbers_and_symbols_turn g lvl Hstr Hsym Hparts w u0 u v sel
              rest n password Hw Hv) as [c [w' [E [Hw' [Hc Hd]]]]].
  exists c, w'. split; [exact E |]. split; [exact Hw' |].
  split; [exact Hc |]. split; [| split; [| exact Hd]].
  - intros H. apply Hc. now apply symbol_inside.
  - intros H. apply Hc in H. now apply symbol_outside.
Qed.

Lemma symbol_share_witness :
  generated (generatePassword (mkWorld numbers_and_symbols [])
                              [0; 1 # 8; 1 # 2; 0]%Q) = Some "]" /\
  ((1 # 8) + slack <= symbolProbability medium)%Q /\
  exists c w',
    generatePassword_for 1 "" (mkWorld numbers_and_symbols [])
                         [0; 1 # 8; 1 # 2; 0]%Q
      = generatePassword_for 0 ("" ++ String c "") w' [] /\
    this w' = numbers_and_symbols /\
    (is_symbol c = true <->
     (randomInt 99 (1 # 8) <=? symbol (profile medium)) = true) /\
    (((1 # 8) + slack <= symbolProbability medium)%Q -> is_symbol c = true) /\
    (is_symbol c = true -> (1 # 8 < symbolProbability medium)%Q) /\
    (is_symbol c = false -> is_digit c = true).
Proof.
  split; [vm_compute; reflexivity |].
  split; [vm_compute; discriminate |].
  exact (proj1 (symbol_share numbers_and_symbols medium
                  (mkWorld numbers_and_symbols []) 0 (1 # 8) (1 # 2) 0 [] O ""
                  eq_refl eq_refl eq_refl eq_refl
                  ltac:(split; lra) ltac:(split; lra))).
Defined.

Lemma symbol_on_draw (g : PasswordGenerator) (lvl : PasswordStrengths)
    (u0 u v sel : Q) :
  strength g = ordinal lvl -> symbols g = symbols_literal ->
  passwordParts g = [false; false; true; true] -> charLength g = Some 1 ->
  unit_draw u -> unit_draw v -> (u + slack <= symbolProbability lvl)%Q ->
  exists c,
    generated (generatePassword (mkWorld g []) [u0; u; v; sel])
      = Some (String c "") /\
    is_symbol c = true.
Proof.
  intros Hstr Hsym Hparts Hlen Hu Hv Hle.
  destruct (numbers_and_symbols_turn g lvl Hstr Hsym Hparts (mkWorld g [])
              u0 u v sel [] O "" eq_refl Hv) as [c [w' [E [Hw' [Hc _]]]]].
  exists c. split.
  - unfold generatePassword. rewrite bind_M. unfold lift at 1.
    cbn [getThis this]. rewrite Hlen.
    change (iterations (Some 1)) with 1%nat.
    rewrite bind_M, E. reflexivity.
  - apply Hc. now apply symbol_inside.
Qed.

(** C6, counterexample. The share of symbols is not the percentage of the
    table.  With only numbers and symbols enabled and a length of 1, the
    text is a symbol on every second draw up to 55/1000 at weak, so on more
    than 5.5% of the draws where the table has 5; and on every second draw
    up to 81/100 at veryStrong, so on more than 81% of the draws where the
    table has 80. *)
Lemma symbol_share_counterexample :
  strength weak_numbers_and_symbols = ordinal weak /\
  symbol (profile weak) = 5 /\
  (forall u0 u v sel, unit_draw u -> unit_draw v -> (u <= 55 # 1000)%Q ->
     exists c,
       generated (generatePassword (mkWorld weak_numbers_and_symbols [])
                                   [u0; u; v; sel]) = Some (String c "") /\
       is_symbol c = true) /\
  (5 # 100 < 55 # 1000)%Q /\
  strength veryStrong_numbers_and_symbols = ordinal veryStrong /\
  symbol (profile veryStrong) = 80 /\
  (forall u0 u v sel, unit_draw u -> unit_draw v -> (u <= 81 # 100)%Q ->
     exists c,
       generated (generatePassword (mkWorld veryStrong_numbers_and_symbols [])
                                   [u0; u; v; sel]) = Some (String c "") /\
       is_symbol c = true) /\
  (80 # 100 < 81 # 100)%Q.
Proof.
  assert (Hs : (slack <= 1 # 2000)%Q) by (vm_compute; discriminate).
  split; [reflexivity |]. split; [reflexivity |]. split.
  { intros u0 u v sel Hu Hv Hle.
    apply (symbol_on_draw weak_numbers_and_symbols weak u0 u v sel
             eq_refl eq_refl eq_refl eq_refl Hu Hv).
    change (symbolProbability weak) with (11 # 198)%Q. lra. }
  split; [reflexivity |]. split; [reflexivity |]. split; [reflexivity |].
  split; [| reflexivity].
  intros u0 u v sel Hu Hv Hle.
  apply (symbol_on_draw veryStrong_numbers_and_symbols veryStrong u0 u v sel
           eq_refl eq_refl eq_refl eq_refl Hu Hv).
  change (symbolProbability veryStrong) with (161 # 198)%Q. lra.
Qed.

(** * The rest of the class and the page *)

(** ** Runs of the session *)

Lemma two_turns_unit : Forall unit_draw two_turns.
Proof. repeat (apply Forall_cons; [split; lra |]). apply Forall_nil. Qed.

Lemma example_bars (n : Z) (checks : list bool) :
  bars_valid (example_page n checks).
Proof.
  repeat (apply Forall_cons; [eexists; split; reflexivity |]).
  apply Forall_nil.
Qed.

Lemma bars_valid_numbered (d : DomElements) : bars_valid d -> bars_numbered d.
Proof.
  apply Forall_impl. intros l [n [Hn _]]. congruence.
Qed.

Lemma loaded_new :
  constructor 7 (example_page 2 [true; true; true; true]) = (Ok tt, loaded).
Proof. vm_compute. reflexivity. Qed.

Lemma bar_listening (checks : list bool) :
  listening (example_page 2 checks) (level_click 3).
Proof.
  exists (mkLevel (Some 3) ""). split; [| reflexivity].
  right. right. right. left. reflexivity.
Qed.

Lemma clicked_reachable :
  reachable (example_page 2 [true; true; true; true]) clicked.
Proof.
  exact (reach_event _ loaded (level_click 3) []
           (reach_new _ loaded (bars_valid_numbered _ (example_bars _ _))
              loaded_new)
           (bar_listening _) (Forall_nil _)).
Qed.

Lemma shown_reachable :
  reachable (example_page 2 [true; true; true; true]) shown.
Proof.
  exact (reach_event _ clicked generatePass_click two_turns
           clicked_reachable I two_turns_unit).
Qed.

(** ** The bars and the title after setPasswordStrength *)

Lemma update_nth_app {A : Type} (pre : list A) (x y : A) (l : list A) :
  update_nth (List.length pre) y (pre ++ x :: l) = (pre ++ y :: l)%list.
Proof. induction pre as [|a pre IH]; cbn; [reflexivity | now rewrite IH]. Qed.

Lemma nth_error_middle {A : Type} (pre : list A) (x : A) (l : list A) :
  nth_error (pre ++ x :: l) (List.length pre) = Some x.
Proof. induction pre as [|a pre IH]; cbn; [reflexivity | exact IH]. Qed.

Lemma forEach_painted (lvl : PasswordStrengths) (l pre : list Level) (w : World) :
  strength (this w) = ordinal lvl ->
  strengthLevels (dom (this w)) = (pre ++ l)%list ->
  fst (forEach_from (List.length pre) l paint_level w) = Ok tt /\
  this (snd (forEach_from (List.length pre) l paint_level w))
    = set_dom (set_strengthLevels (pre ++ map (painted lvl) l)) (this w).
Proof.
  revert pre w. induction l as [|lv l IH]; intros pre w Hs Hl.
  - cbn. split; [reflexivity |]. rewrite app_nil_r in *.
    destruct w as [[c [lv ? ? ? ? ? ? ? ?] sy pp st sg] acc]. cbn in *. now subst lv.
  - cbn [forEach_from]. unfold paint_level at 1 3.
    cbn [bind Monad_Eff getThis]. rewrite Hs.
    assert (Hstep : forall c acc',
      let w1 := mkWorld (set_dom (set_backgroundColor (List.length pre) c) (this w)) acc' in
      strength (this w1) = ordinal lvl /\
      strengthLevels (dom (this w1))
        = ((pre ++ [mkLevel (value lv) c]) ++ l)%list).
    { intros c acc'. cbn. split; [exact Hs |].
      rewrite Hl, nth_error_middle, update_nth_app, <- app_assoc. reflexivity. }
    assert (Hfin : forall c acc' L,
      set_dom (set_strengthLevels L)
        (this (mkWorld (set_dom (set_backgroundColor (List.length pre) c) (this w)) acc'))
      = set_dom (set_strengthLevels L) (this w)).
    { intros. reflexivity. }
    assert (Hlen : S (List.length pre)
                   = List.length (pre ++ [mkLevel (value lv) ""])%list /\
                   forall c, List.length (pre ++ [mkLevel (value lv) c])%list
                             = S (List.length pre)).
    { split; [| intros c]; rewrite length_app; cbn; lia. }
    destruct (nan_leb (value lv) (ordinal lvl)) eqn:En.
    + unfold read_strengthProbs. cbn [bind Monad_Eff record ret].
      rewrite profile_defined. cbn [ret Monad_Eff modifyThis].
      match goal with
      | |- context [forEach_from _ l paint_level (mkWorld _ ?acc')] =>
          destruct (Hstep (barColor (profile lvl)) acc') as [H1 H2];
          pose proof (IH _ _ H1 H2) as [H3 H4]
      end.
      rewrite (proj2 Hlen) in H3, H4. cbn [this] in H3, H4 |- *.
      split; [exact H3 |]. rewrite H4. cbn [map]. unfold painted at 2.
      rewrite En, <- app_assoc. reflexivity.
    + cbn [modifyThis].
      match goal with
      | |- context [forEach_from _ l paint_level (mkWorld _ ?acc')] =>
          destruct (Hstep "" acc') as [H1 H2];
          pose proof (IH _ _ H1 H2) as [H3 H4]
      end.
      rewrite (proj2 Hlen) in H3, H4. cbn [this] in H3, H4 |- *.
      split; [exact H3 |]. rewrite H4. cbn [map]. unfold painted at 2.
      rewrite En, <- app_assoc. reflexivity.
Qed.

(** The whole object after [setPasswordStrength] for a strength of the
    enumeration. *)
Lemma setPasswordStrength_object (lvl : PasswordStrengths) (w : World) :
  fst (setPasswordStrength (ordinal lvl) w) = Ok tt /\
  this (snd (setPasswordStrength (ordinal lvl) w))
    = set_strength (ordinal lvl)
        (set_dom (fun d =>
           set_strengthLevels (map (painted lvl) (strengthLevels d))
             (set_strengthDesc
                (text_of (js_index (strengthTitles (this w)) (ordinal lvl))) d))
           (this w)).
Proof.
  assert (H : setPasswordStrength (ordinal lvl) w =
              forEach_from (List.length (@nil Level))
                (strengthLevels (dom (this w))) paint_level
                (mkWorld (set_strength (ordinal lvl)
                            (set_dom (set_strengthDesc
                               (text_of (js_index (strengthTitles (this w))
                                                  (ordinal lvl))))
                               (this w)))
                         (accesses w ++ [mkAccess A_strengthTitles (ordinal lvl)
                            (List.length (strengthTitles (this w)))]))).
  { reflexivity. }
  rewrite H.
  match goal with
  | |- context [forEach_from _ ?l paint_level ?w1] =>
      destruct (forEach_painted lvl l [] w1 eq_refl eq_refl) as [H1 H2]
  end.
  split; [exact H1 |]. rewrite H2. reflexivity.
Qed.

(** ** selectCheckBox *)

Lemma update_nth_length {A : Type} (i : nat) (x : A) (l : list A) :
  List.length (update_nth i x l) = List.length l.
Proof.
  revert i. induction l as [|a l IH]; intros [|i]; cbn; auto.
Qed.

Lemma update_nth_lookup {A : Type} (i j : nat) (x : A) (l : list A) :
  nth_error (update_nth i x l) j
    = option_map (fun y => if Nat.eqb j i then x else y) (nth_error l j).
Proof.
  revert i j. induction l as [|a l IH]; intros [|i] [|j]; cbn; auto.
  destruct (nth_error l j); reflexivity.
Qed.

Lemma forEach_copy (l : list bool) (i : nat) (w : World) :
  (i <= List.length (checkboxes (dom (this w))))%nat ->
  exists parts',
    this (snd (forEach_from i l copy_checkbox w))
      = set_passwordParts parts' (this w) /\
    List.length parts' = List.length (passwordParts (this w)) /\
    (forall j, nth_error parts' j
       = option_map (fun x => if copies i (List.length l)
                                        (checkboxes (dom (this w))) j
                              then nth j (checkboxes (dom (this w))) x else x)
                    (nth_error (passwordParts (this w)) j)) /\
    is_err (fst (forEach_from i l copy_checkbox w))
      = (List.length (checkboxes (dom (this w))) <? i + List.length l)%nat.
Proof.
  revert i w. induction l as [|x l IH]; intros i w Hi.
  - exists (passwordParts (this w)). cbn.
    split; [destruct w as [[] ?]; reflexivity |].
    split; [reflexivity |]. split.
    + intros j. unfold copies.
      replace (j <? i + 0)%nat with (j <? i)%nat by (f_equal; lia).
      destruct (Nat.leb_spec i j), (Nat.ltb_spec j i); try lia; cbn;
        destruct (nth_error _ j); reflexivity.
    + symmetry. apply Nat.ltb_ge. lia.
  - cbn [forEach_from]. unfold copy_checkbox at 1 3.
    unfold read_checkbox. cbn [bind Monad_Eff getThis record ret].
    cbn [this dom].
    destruct (nth_error (checkboxes (dom (this w))) i) as [b|] eqn:Eb.
    + cbn [ret Monad_Eff modifyThis this accesses].
      assert (Hlt : (i < List.length (checkboxes (dom (this w))))%nat).
      { apply nth_error_Some. congruence. }
      match goal with
      | |- context [forEach_from (S i) l copy_checkbox ?w1] =>
          destruct (IH (S i) w1 Hlt) as [parts' [H1 [H2 [H3 H4]]]]
      end.
      cbn [this dom set_passwordParts passwordParts] in H1, H2, H3, H4.
      exists parts'. split; [rewrite H1; reflexivity |].
      split; [now rewrite H2, update_nth_length |]. split.
      * intros j. rewrite H3, update_nth_lookup.
        destruct (nth_error (passwordParts (this w)) j) as [y|]; [| reflexivity].
        cbn [option_map]. f_equal. unfold copies. cbn [List.length].
        destruct (Nat.eqb_spec j i) as [-> | Hne].
        -- replace (S i <=? i)%nat with false by (symmetry; apply Nat.leb_gt; lia).
           cbn [andb].
           rewrite Nat.leb_refl, (proj2 (Nat.ltb_lt i _) Hlt).
           replace (i <? i + S (List.length l))%nat with true
             by (symmetry; apply Nat.ltb_lt; lia).
           cbn [andb]. symmetry. apply nth_error_nth. exact Eb.
        -- replace (j <? S i + List.length l)%nat
             with (j <? i + S (List.length l))%nat by (f_equal; lia).
           destruct (Nat.leb_spec (S i) j), (Nat.leb_spec i j); try lia;
             reflexivity.
      * rewrite H4. cbn [List.length]. f_equal. lia.
    + cbn [throw].
      apply nth_error_None in Eb.
      exists (passwordParts (this w)). cbn [snd fst this is_err].
      split; [destruct w as [[] ?]; reflexivity |].
      split; [reflexivity |]. split.
      * intros j. unfold copies.
        destruct (nth_error (passwordParts (this w)) j) as [y|]; [| reflexivity].
        cbn [option_map]. f_equal.
        destruct (Nat.leb_spec i j); cbn [andb]; [| reflexivity].
        replace (j <? List.length (checkboxes (dom (this w))))%nat with false
          by (symmetry; apply Nat.ltb_ge; lia).
        now rewrite andb_false_r.
      * symmetry. apply Nat.ltb_lt. cbn [List.length]. lia.
Qed.

(** X1. [selectCheckBox] copies the state of the checkboxes into the
    toggles, one index at a time.  It throws exactly when the page has fewer
    checkboxes than the object has toggles; the toggles below the number of
    checkboxes then hold the state of their checkbox all the same, and the
    others are as they were.  The number of toggles, the page, the length,
    the strength and the symbol string are never changed. *)
Theorem selectCheckBox_copies (w : World) :
  is_err (fst (selectCheckBox w))
    = (List.length (checkboxes (dom (this w)))
         <? List.length (passwordParts (this w)))%nat /\
  List.length (passwordParts (this (snd (selectCheckBox w))))
    = List.length (passwordParts (this w)) /\
  (forall i b, (i < List.length (passwordParts (this w)))%nat ->
     nth_error (checkboxes (dom (this w))) i = Some b ->
     nth_error (passwordParts (this (snd (selectCheckBox w)))) i = Some b) /\
  (forall i, (List.length (checkboxes (dom (this w))) <= i)%nat ->
     nth_error (passwordParts (this (snd (selectCheckBox w)))) i
       = nth_error (passwordParts (this w)) i) /\
  dom (this (snd (selectCheckBox w))) = dom (this w) /\
  config (snd (selectCheckBox w))
    = (charLength (this w), strength (this w),
       passwordParts (this (snd (selectCheckBox w))), symbols (this w)).
Proof.
  assert (H : selectCheckBox w
              = forEach_from O (passwordParts (this w)) copy_checkbox w)
    by reflexivity.
  rewrite H.
  destruct (forEach_copy (passwordParts (this w)) O w (Nat.le_0_l _))
    as [parts' [H1 [H2 [H3 H4]]]].
  rewrite H4, H1. cbn [set_passwordParts passwordParts dom].
  split; [reflexivity |]. split; [exact H2 |]. split; [| split].
  - intros i b Hi Hb. rewrite H3.
    destruct (nth_error (passwordParts (this w)) i) as [y|] eqn:Ey.
    + cbn [option_map]. f_equal. unfold copies. cbn [Nat.leb Nat.add].
      rewrite (proj2 (Nat.ltb_lt _ _) Hi).
      assert (Hlt : (i < List.length (checkboxes (dom (this w))))%nat)
        by (apply nth_error_Some; congruence).
      rewrite (proj2 (Nat.ltb_lt _ _) Hlt). cbn [andb].
      apply nth_error_nth. exact Hb.
    + apply nth_error_None in Ey. lia.
  - intros i Hi. rewrite H3.
    destruct (nth_error (passwordParts (this w)) i) as [y|]; [| reflexivity].
    cbn [option_map]. f_equal. unfold copies.
    replace (i <? List.length (checkboxes (dom (this w))))%nat with false
      by (symmetry; apply Nat.ltb_ge; lia).
    now rewrite andb_false_r.
  - split; [reflexivity |]. unfold config. rewrite H1. reflexivity.
Qed.

(** X2. For a strength of the enumeration [setPasswordStrength] never
    throws.  Every bar whose value is at most the ordinal gets the colour of
    the strength, every other bar (a bar without a number among them) gets
    no colour, whatever the colours were; the values of the bars are kept.
    The title shown is the entry of [strengthTitles] at the ordinal, and the
    rest of the page is not touched. *)
Theorem setPasswordStrength_paints (lvl : PasswordStrengths) (w : World) :
  fst (setPasswordStrength (ordinal lvl) w) = Ok tt /\
  strengthLevels (dom (this (snd (setPasswordStrength (ordinal lvl) w))))
    = map (painted lvl) (strengthLevels (dom (this w))) /\
  strengthDesc (dom (this (snd (setPasswordStrength (ordinal lvl) w))))
    = text_of (js_index (strengthTitles (this w)) (ordinal lvl)) /\
  (strengthTitles (this w) = strengthTitles_literal ->
   strengthDesc (dom (this (snd (setPasswordStrength (ordinal lvl) w))))
     = match lvl with
       | weak => "WEAK" | medium => "MEDIUM"
       | strong => "STRONG" | veryStrong => "EXTREME"
       end) /\
  set_strengthLevels (strengthLevels (dom (this w)))
    (set_strengthDesc (strengthDesc (dom (this w)))
       (dom (this (snd (setPasswordStrength (ordinal lvl) w)))))
    = dom (this w).
Proof.
  destruct (setPasswordStrength_object lvl w) as [H1 H2].
  split; [exact H1 |]. rewrite H2. cbn.
  split; [reflexivity |]. split; [reflexivity |]. split.
  - intros ->. destruct lvl; reflexivity.
  - destruct w as [[c [] sy pp st sg] acc]. reflexivity.
Qed.

(** ** The page after generatePassword *)

Lemma generatePassword_object (w : World) (d : Draws) :
  Forall unit_draw d ->
  match generatePassword w d with
  | Returned _ w' _ =>
      this w' = set_dom (show (passRes (dom (this w')))) (this w)
  | Thrown _ w' => this w' = this w
  | Starved w' => this w' = this w
  end.
Proof.
  intros Hd. unfold generatePassword. cbn.
  pose proof (generatePassword_for_safe (this w) any_access
                (fun _ _ => I) (fun _ _ => I) I (fun _ _ => I)
                (iterations (charLength (this w))) "" w d
                (Inv_any (this w) w eq_refl) Hd) as H.
  destruct (generatePassword_for _ _ w d) as [r w' rest | e w' | w']; cbn.
  - destruct H as [_ [[Hg _] _]]. rewrite Hg. reflexivity.
  - apply H.
  - apply H.
Qed.

(** X3. What a call of [generatePassword] does to the page, on draws of
    [Math.random()].  When it returns, the object is the one before the call
    with three changes to the page: the text shown, the class 'outputted' on
    the container (listed once, also when it was there before), and one
    callback that removes that class after 250 ms, added behind the pending
    ones.  When the call throws, or is still drawing, the object and the
    page, the text shown before included, are as they were. *)
Theorem generatePassword_page (w : World) (d : Draws) :
  Forall unit_draw d ->
  match generatePassword w d with
  | Returned _ w' _ =>
      this w' = set_dom (show (passRes (dom (this w')))) (this w) /\
      passContainer (dom (this w'))
        = (if existsb (String.eqb "outputted") (passContainer (dom (this w)))
           then passContainer (dom (this w))
           else passContainer (dom (this w)) ++ ["outputted"])%list /\
      timers (dom (this w'))
        = (timers (dom (this w)) ++ [RemoveClass 250 "outputted"])%list /\
      strengthLevels (dom (this w')) = strengthLevels (dom (this w)) /\
      strengthDesc (dom (this w')) = strengthDesc (dom (this w)) /\
      passLength (dom (this w')) = passLength (dom (this w)) /\
      checkboxes (dom (this w')) = checkboxes (dom (this w))
  | Thrown _ w' => this w' = this w
  | Starved w' => this w' = this w
  end.
Proof.
  intros Hd. pose proof (generatePassword_object w d Hd) as H.
  destruct (generatePassword w d) as [[] w' rest | e w' | w']; try exact H.
  split; [exact H |]. rewrite H. cbn. repeat split; reflexivity.
Qed.

Lemma generatePassword_page_witness :
  this capitals_and_digits_shown
    = set_dom (show "N5") capitals_and_digits /\
  passContainer (dom (this capitals_and_digits_shown)) = ["outputted"] /\
  timers (dom (this capitals_and_digits_shown))
    = [RemoveClass 250 "outputted"] /\
  strengthLevels (dom (this capitals_and_digits_shown))
    = strengthLevels (dom capitals_and_digits) /\
  strengthDesc (dom (this capitals_and_digits_shown)) = "MEDIUM" /\
  passLength (dom (this capitals_and_digits_shown)) = "2" /\
  checkboxes (dom (this capitals_and_digits_shown))
    = [true; false; true; false].
Proof.
  exact (generatePassword_page (mkWorld capitals_and_digits [])
           [0; 1 # 2; 0; 127 # 128; 0; 0; 0; 0; 0; 127 # 128; 1 # 2; 127 # 128]%Q
           example_draws_unit).
Defined.

(** ** The steps of a session *)

Lemma valid_ordinal_enum (n : Z) :
  valid_ordinal n = true -> exists lvl, n = ordinal lvl.
Proof.
  unfold valid_ordinal. intros H. apply andb_true_iff in H.
  destruct H as [H1 H2]. apply Z.leb_le in H1, H2.
  assert (Hn : n = 0 \/ n = 1 \/ n = 2 \/ n = 3) by lia.
  destruct Hn as [-> | [-> | [-> | ->]]];
    [exists weak | exists medium | exists strong | exists veryStrong];
    reflexivity.
Qed.

Lemma selectCheckBox_step (w : World) :
  same_shape (this w) (this (snd (selectCheckBox w))) /\
  strength (this (snd (selectCheckBox w))) = strength (this w) /\
  passContainer (dom (this (snd (selectCheckBox w))))
    = passContainer (dom (this w)) /\
  timers (dom (this (snd (selectCheckBox w)))) = timers (dom (this w)) /\
  ((List.length (passwordParts (this w))
      <= List.length (checkboxes (dom (this w))))%nat ->
   fst (selectCheckBox w) = Ok tt).
Proof.
  assert (H : selectCheckBox w
              = forEach_from O (passwordParts (this w)) copy_checkbox w)
    by reflexivity.
  rewrite H.
  destruct (forEach_copy (passwordParts (this w)) O w (Nat.le_0_l _))
    as [parts' [H1 [H2 [_ H4]]]].
  rewrite H1. cbn. repeat split; auto.
  intros Hle. destruct (fst (forEach_from _ _ _ w)) as [[]|e]; [reflexivity |].
  cbn in H4. symmetry in H4. apply Nat.ltb_lt in H4. lia.
Qed.

Lemma setPasswordStrength_step (lvl : PasswordStrengths) (w : World) :
  same_shape (this w) (this (snd (setPasswordStrength (ordinal lvl) w))) /\
  strength (this (snd (setPasswordStrength (ordinal lvl) w))) = ordinal lvl /\
  passContainer (dom (this (snd (setPasswordStrength (ordinal lvl) w))))
    = passContainer (dom (this w)) /\
  timers (dom (this (snd (setPasswordStrength (ordinal lvl) w))))
    = timers (dom (this w)) /\
  fst (setPasswordStrength (ordinal lvl) w) = Ok tt.
Proof.
  destruct (setPasswordStrength_object lvl w) as [H1 H2].
  rewrite H2. cbn. repeat split; auto.
Qed.

Lemma generatePassword_step (w : World) (d : Draws) :
  Forall unit_draw d ->
  same_shape (this w) (this (world_of (generatePassword w d))) /\
  strength (this (world_of (generatePassword w d))) = strength (this w) /\
  (flash_ends (this w) -> flash_ends (this (world_of (generatePassword w d)))).
Proof.
  intros Hd. pose proof (generatePassword_object w d Hd) as H.
  destruct (generatePassword w d) as [[] w' rest | e w' | w']; cbn [world_of];
    rewrite H.
  - generalize (passRes (dom (this w'))). intros text.
    split; [repeat split |]. split; [reflexivity |].
    intros [F1 F2]. unfold flash_ends. cbn. split.
    + apply Forall_app. split; [exact F1 |].
      constructor; [reflexivity | constructor].
    + intros _ Hn. now apply app_eq_nil in Hn as [_ Hn].
  - split; [repeat split |]. split; [reflexivity | auto].
  - split; [repeat split |]. split; [reflexivity | auto].
Qed.

Lemma filter_not_listed (c : string) (l : list string) :
  existsb (String.eqb c) (filter (fun x => negb (String.eqb c x)) l) = false.
Proof.
  induction l as [|x l IH]; cbn; [reflexivity |].
  destruct (String.eqb c x) eqn:E; cbn; [exact IH |]. now rewrite E.
Qed.

Lemma timeout_step (w : World) :
  same_shape (this w) (this (snd (timeout w))) /\
  strength (this (snd (timeout w))) = strength (this w) /\
  (flash_ends (this w) -> flash_ends (this (snd (timeout w))) /\
                          (timers (dom (this w)) <> [] ->
                           flashing (this (snd (timeout w))) = false)).
Proof.
  unfold timeout. cbn [bind Monad_Eff getThis].
  destruct (timers (dom (this w))) as [|[delay c] rest] eqn:Et.
  - cbn. split; [repeat split |]. split; [reflexivity |].
    intros F. split; [exact F | congruence].
  - cbn. split; [repeat split |]. split; [reflexivity |].
    intros [F1 F2]. rewrite Et in F1. inversion F1 as [|? ? Hh Ht]; subst.
    injection Hh as <- <-.
    assert (Hoff : flashing
              (set_dom (classList_remove "outputted")
                 (set_dom (set_timers rest) (this w))) = false).
    { exact (filter_not_listed "outputted" (passContainer (dom (this w)))). }
    split; [| intros _; exact Hoff].
    split; [exact Ht |]. rewrite Hoff. discriminate.
Qed.

Lemma user_input_step (a : UserInput) (g : PasswordGenerator) :
  same_shape g (set_dom (user_input a) g) /\
  strength (set_dom (user_input a) g) = strength g /\
  (flash_ends g -> flash_ends (set_dom (user_input a) g)).
Proof.
  destruct a as [i b | n text];
    (split; [unfold same_shape; cbn; rewrite ?update_nth_length; repeat split
            | split; [reflexivity | intros F; exact F]]).
Qed.

(** ** The constructor *)

Lemma constructor_unfold (c : Z) (d0 : DomElements) :
  exists w2,
    constructor c d0 = selectCheckBox w2 /\
    this w2 = mkGen (lengthSlider d0)
                (set_passLength (lengthSliderText d0)
                   (set_strengthLevels (map (painted medium) (strengthLevels d0))
                      (set_strengthDesc "MEDIUM" d0)))
                symbols_literal [false; false; false; false]
                strengthTitles_literal (ordinal medium).
Proof.
  unfold constructor. cbn [bind Monad_Eff].
  match goal with
  | |- context [setPasswordStrength 1 ?w0] =>
      destruct (setPasswordStrength_object medium w0) as [H1 H2];
      change (setPasswordStrength (ordinal medium))
        with (setPasswordStrength 1) in H1, H2;
      destruct (setPasswordStrength 1 w0) as [[[]|e] w1]; [| cbn in H1; discriminate H1]
  end.
  cbn [fst snd] in H2.
  exists (snd (setCharacterLength w1)). split; [reflexivity |].
  cbn. rewrite H2. reflexivity.
Qed.

(** X4. [new PasswordGenerator(charLength, dom)] throws exactly when the
    page has fewer than four checkboxes.  The object it leaves has the
    length of the slider, not the number passed as [charLength]; strength
    medium, with the title MEDIUM shown and the bars painted for it; the
    declared symbol string and titles; four toggles, each with the state of
    its checkbox; and the length shown is the text of the slider. *)
Theorem constructor_builds (c : Z) (d0 : DomElements) :
  is_err (fst (constructor c d0)) = (List.length (checkboxes d0) <? 4)%nat /\
  charLength (this (snd (constructor c d0))) = lengthSlider d0 /\
  strength (this (snd (constructor c d0))) = ordinal medium /\
  symbols (this (snd (constructor c d0))) = symbols_literal /\
  strengthTitles (this (snd (constructor c d0))) = strengthTitles_literal /\
  List.length (passwordParts (this (snd (constructor c d0)))) = 4%nat /\
  (forall i b, (i < 4)%nat -> nth_error (checkboxes d0) i = Some b ->
     nth_error (passwordParts (this (snd (constructor c d0)))) i = Some b) /\
  dom (this (snd (constructor c d0)))
    = set_passLength (lengthSliderText d0)
        (set_strengthLevels (map (painted medium) (strengthLevels d0))
           (set_strengthDesc "MEDIUM" d0)).
Proof.
  destruct (constructor_unfold c d0) as [w2 [-> Hw2]].
  assert (H : selectCheckBox w2
              = forEach_from O (passwordParts (this w2)) copy_checkbox w2)
    by reflexivity.
  rewrite H.
  destruct (forEach_copy (passwordParts (this w2)) O w2 (Nat.le_0_l _))
    as [parts' [H1 [H2 [H3 H4]]]].
  rewrite H4, H1, Hw2. rewrite Hw2 in H2, H3.
  cbn [set_passwordParts passwordParts dom charLength strength symbols
       strengthTitles checkboxes set_passLength set_strengthLevels
       set_strengthDesc List.length Nat.add] in *.
  repeat split; try reflexivity; try exact H2.
  intros i b Hi Hb. rewrite H3.
  assert (Hlt : (i < List.length (checkboxes d0))%nat)
    by (apply nth_error_Some; congruence).
  assert (Hc : copies 0 4 (checkboxes d0) i = true).
  { unfold copies. cbn [Nat.leb Nat.add].
    now rewrite (proj2 (Nat.ltb_lt _ _) Hi), (proj2 (Nat.ltb_lt _ _) Hlt). }
  rewrite Hc.
  destruct i as [|[|[|[|i]]]]; try lia; cbn [nth_error option_map]; f_equal;
    apply nth_error_nth; exact Hb.
Qed.

(** ** The states of a session *)

Lemma world_of_lift {A B : Type} (e : Eff A) (b : B) (w : World) (d : Draws) :
  world_of ((lift e ;; ret b) w d) = snd (e w).
Proof.
  cbn. unfold lift. destruct (e w) as [[a|err] w1]; reflexivity.
Qed.

Lemma world_of_then {A B : Type} (m : M A) (b : B) (w : World) (d : Draws) :
  world_of ((m ;; ret b) w d) = world_of (m w d).
Proof. cbn. destruct (m w d); reflexivity. Qed.

Lemma level_listening (d0 : DomElements) (n : Z) :
  bars_valid d0 -> listening d0 (level_click n) -> exists lvl, n = ordinal lvl.
Proof.
  intros Hb [l [Hin Hv]]. apply valid_ordinal_enum.
  unfold bars_valid in Hb. rewrite Forall_forall in Hb.
  destruct (Hb l Hin) as [n' [Hn' Hvalid]]. congruence.
Qed.

Lemma listener_step (d0 : DomElements) (e : Event) (w : World) (d : Draws) :
  bars_valid d0 -> listening d0 e -> Forall unit_draw d ->
  same_shape (this w) (this (world_of (listener e w d))) /\
  ((exists lvl, strength (this w) = ordinal lvl) ->
   exists lvl, strength (this (world_of (listener e w d))) = ordinal lvl) /\
  (flash_ends (this w) -> flash_ends (this (world_of (listener e w d)))).
Proof.
  intros Hb He Hd. destruct e as [| n | | |]; cbn [listener].
  - rewrite world_of_lift.
    destruct (selectCheckBox_step w) as [H1 [H2 [H3 [H4 _]]]].
    split; [exact H1 |]. split; [now rewrite H2 |].
    unfold flash_ends, flashing. now rewrite H3, H4.
  - rewrite world_of_lift.
    destruct (level_listening d0 n Hb He) as [lvl ->].
    destruct (setPasswordStrength_step lvl w) as [H1 [H2 [H3 [H4 _]]]].
    split; [exact H1 |]. split; [intros _; now exists lvl |].
    unfold flash_ends, flashing. now rewrite H3, H4.
  - rewrite world_of_lift. cbn.
    split; [repeat split |]. split; auto.
  - rewrite world_of_then.
    destruct (generatePassword_step w d Hd) as [H1 [H2 H3]].
    split; [exact H1 |]. split; [now rewrite H2 | exact H3].
  - unfold lift, copyToClipboard. cbn.
    destruct (passRes (dom (this w)) =? "")%string; cbn;
      (split; [repeat split |]; split; auto).
Qed.

(** What holds in every state of a session. *)
Lemma reachable_inv (d0 : DomElements) (w : World) :
  bars_valid d0 -> reachable d0 w ->
  well_formed (this w) /\
  (4 <= List.length (checkboxes (dom (this w))))%nat /\
  (timers d0 = [] -> existsb (String.eqb "outputted") (passContainer d0) = false ->
   flash_ends (this w)).
Proof.
  intros Hb Hr.
  induction Hr as [w _ Hnew | w e d Hr IH He Hd | w Hr IH | w a Hr IH].
  - destruct (constructor_builds 7 d0) as [H1 [_ [H3 [H4 [H5 [H6 [_ H8]]]]]]].
    rewrite Hnew in *. cbn [fst snd is_err] in *.
    symmetry in H1. apply Nat.ltb_ge in H1.
    split; [repeat split; auto; now exists medium |].
    split; [now rewrite H8 |].
    intros Ht Hc. unfold flash_ends, flashing. rewrite H8.
    cbn [timers passContainer set_passLength set_strengthLevels
         set_strengthDesc].
    rewrite Ht, Hc. split; [constructor | discriminate].
  - destruct IH as [[W1 [W2 [W3 W4]]] [I2 I3]].
    destruct (listener_step d0 e w d Hb He Hd) as [[S1 [S2 [S3 S4]]] [S5 S6]].
    split; [| split].
    + repeat split; try congruence. apply S5, W4.
    + now rewrite S4.
    + intros Ht Hc. apply S6, I3; assumption.
  - destruct IH as [[W1 [W2 [W3 W4]]] [I2 I3]].
    destruct (timeout_step w) as [[S1 [S2 [S3 S4]]] [S5 S6]].
    split; [| split].
    + repeat split; try congruence. now rewrite S5.
    + now rewrite S4.
    + intros Ht Hc. apply S6, I3; assumption.
  - destruct IH as [[W1 [W2 [W3 W4]]] [I2 I3]].
    destruct (user_input_step a (this w)) as [[S1 [S2 [S3 S4]]] [S5 S6]].
    cbn [this].
    split; [| split].
    + repeat split; try congruence. now rewrite S5.
    + now rewrite S4.
    + intros Ht Hc. apply S6, I3; assumption.
Qed.

Lemma lift_returns {A B : Type} (e : Eff A) (b : B) (w : World) (d : Draws) :
  fst (e w) <> Err TypeError ->
  forall err w', (lift e ;; ret b) w d <> Thrown err w'.
Proof.
  intros H err w'. cbn. unfold lift.
  destruct (e w) as [[a|[]] w1]; [discriminate | now cbn in H].
Qed.

(** X5. In every state of a session on a page whose bars all have a value
    among 0, 1, 2, 3 (the module loaded, then any events, timers and changes
    of the controls), the object has the declared symbol string and titles,
    four toggles and a strength of the enumeration; and no listener throws,
    on any draws of [Math.random()]. *)
Theorem session_never_throws (d0 : DomElements) (w : World) :
  bars_valid d0 -> reachable d0 w ->
  well_formed (this w) /\
  forall e d, listening d0 e -> Forall unit_draw d ->
    forall err w', listener e w d <> Thrown err w'.
Proof.
  intros Hb Hr.
  destruct (reachable_inv d0 w Hb Hr) as [[W1 [W2 [W3 [lvl W4]]]] [I2 _]].
  split; [repeat split; auto; now exists lvl |].
  intros e d He Hd err w'. destruct e as [| n | | |]; cbn [listener].
  - destruct (selectCheckBox_step w) as [_ [_ [_ [_ H]]]].
    apply lift_returns. rewrite H by lia. discriminate.
  - destruct (level_listening d0 n Hb He) as [lvl' ->].
    destruct (setPasswordStrength_step lvl' w) as [_ [_ [_ [_ H]]]].
    apply lift_returns. rewrite H. discriminate.
  - apply lift_returns. discriminate.
  - pose proof (generatePassword_output (this w) w d eq_refl W1 Hd) as H.
    cbn [bind Monad_M].
    destruct (generatePassword w d) as [[] w1 r | e1 w1 | w1];
      [cbn; discriminate | | discriminate].
    now apply (valid_not_invalid (this w) lvl W4) in H.
  - unfold lift, copyToClipboard. cbn [bind Monad_Eff getThis].
    destruct (passRes (dom (this w)) =? "")%string; discriminate.
Qed.

Lemma session_never_throws_witness :
  well_formed (this clicked) /\
  listener generatePass_click clicked two_turns <> Thrown TypeError clicked.
Proof.
  split.
  - exact (proj1 (session_never_throws _ clicked (example_bars _ _)
                    clicked_reachable)).
  - exact (proj2 (session_never_throws _ clicked (example_bars _ _)
                    clicked_reachable)
             generatePass_click two_turns I two_turns_unit TypeError clicked).
Defined.

(** X6. On a page whose bars all have a value among 0, 1, 2, 3 and that
    starts without pending callbacks and without the class 'outputted', in
    every state of a session: every pending callback
    is the removal of 'outputted' after 250 ms, the class is on the
    container only while such a callback is pending, and the first pending
    callback to fire takes the class off, also when a later call of
    [generatePassword] has scheduled a callback of its own. *)
Theorem flash_is_removed (d0 : DomElements) (w : World) :
  bars_valid d0 -> timers d0 = [] ->
  existsb (String.eqb "outputted") (passContainer d0) = false ->
  reachable d0 w ->
  Forall (eq (RemoveClass 250 "outputted")) (timers (dom (this w))) /\
  (flashing (this w) = true -> timers (dom (this w)) <> []) /\
  (timers (dom (this w)) <> [] -> flashing (this (snd (timeout w))) = false).
Proof.
  intros Hb Ht Hc Hr.
  destruct (reachable_inv d0 w Hb Hr) as [_ [_ F]]. specialize (F Ht Hc).
  destruct (timeout_step w) as [_ [_ H]]. destruct (H F) as [_ Hoff].
  destruct F as [F1 F2]. auto.
Qed.

Lemma flash_is_removed_witness :
  Forall (eq (RemoveClass 250 "outputted")) (timers (dom (this shown))) /\
  (flashing (this shown) = true -> timers (dom (this shown)) <> []) /\
  (timers (dom (this shown)) <> [] ->
   flashing (this (snd (timeout shown))) = false).
Proof.
  exact (flash_is_removed (example_page 2 [true; true; true; true]) shown
           (example_bars _ _) eq_refl eq_refl shown_reachable).
Defined.

(** X7. In every state of a session on a page whose bars all have a value
    among 0, 1, 2, 3, a call of [generatePassword] on draws of
    [Math.random()] does not throw, and the text it shows when it returns
    has only characters of classes that are switched on, one for each
    position of [charLength] when some class is on. *)
Theorem session_generation (d0 : DomElements) (w : World) (d : Draws) :
  bars_valid d0 -> reachable d0 w -> Forall unit_draw d ->
  match generatePassword w d with
  | Returned _ w' _ =>
      Forall (char_ok (this w))
             (list_ascii_of_string (passRes (dom (this w')))) /\
      (~ none_enabled (this w) ->
       String.length (passRes (dom (this w')))
         = iterations (charLength (this w)))
  | Thrown _ _ => False
  | Starved _ => True
  end.
Proof.
  intros Hb Hr Hd.
  destruct (reachable_inv d0 w Hb Hr) as [[W1 [_ [_ [lvl W4]]]] _].
  pose proof (generatePassword_output (this w) w d eq_refl W1 Hd) as H.
  destruct (generatePassword w d) as [[] w1 r | e1 w1 | w1]; [| | exact I].
  - destruct H as [H1 [H2 _]]. auto.
  - now apply (valid_not_invalid (this w) lvl W4) in H.
Qed.

Lemma session_generation_witness :
  generated (generatePassword clicked two_turns) = Some "N5" /\
  Forall (char_ok (this clicked)) (list_ascii_of_string "N5") /\
  (~ none_enabled (this clicked) ->
   String.length "N5" = iterations (charLength (this clicked))).
Proof.
  split; [vm_compute; reflexivity |].
  exact (session_generation (example_page 2 [true; true; true; true]) clicked
           two_turns (example_bars _ _) clicked_reachable two_turns_unit).
Defined.

(** ** Classes that are switched off *)

Lemma upper_not_lower (c : ascii) : is_upper c = true -> is_lower c = false.
Proof.
  unfold is_upper, is_lower. intros H. apply andb_true_iff in H.
  destruct H as [H1 H2]. apply Z.leb_le in H1, H2.
  apply andb_false_iff. left. apply Z.leb_gt. lia.
Qed.

Lemma char_ok_classes (g : PasswordGenerator) (c : ascii) :
  char_ok g c ->
  (enabled g 0 = false -> is_upper c = false) /\
  (enabled g 1 = false -> is_lower c = false) /\
  (enabled g 2 = false -> is_digit c = false) /\
  (enabled g 3 = false -> is_symbol c = false).
Proof.
  assert (Hsym : forall b, is_letter c = true \/ is_digit c = true ->
                           is_symbol c = b -> b = false).
  { intros [|] Hl Hs; [| reflexivity].
    destruct (is_symbol_not_letter c Hs) as [H1 H2].
    destruct Hl; congruence. }
  assert (Hdig : is_letter c = true -> is_digit c = false).
  { intros Hl. destruct (is_digit c) eqn:Ed; [| reflexivity].
    apply digit_not_letter in Ed. congruence. }
  unfold is_letter in *.
  intros [[Hc He] | [[Hc He] | [[Hc He] | [Hc He]]]].
  - pose proof (upper_not_lower c Hc) as Hl.
    repeat split; intros Hoff; try congruence.
    + apply Hdig. now rewrite Hc.
    + apply (Hsym (is_symbol c)); [left; now rewrite Hc | reflexivity].
  - assert (Hu : is_upper c = false).
    { destruct (is_upper c) eqn:Eu; [| reflexivity].
      apply upper_not_lower in Eu. congruence. }
    repeat split; intros Hoff; try congruence.
    + apply Hdig. rewrite Hc. apply orb_true_r.
    + apply (Hsym (is_symbol c)); [left; rewrite Hc; apply orb_true_r
                                  | reflexivity].
  - pose proof (digit_not_letter c Hc) as Hl. apply orb_false_iff in Hl.
    destruct Hl as [Hu Hl].
    repeat split; intros Hoff; try congruence.
    apply (Hsym (is_symbol c)); [right; exact Hc | reflexivity].
  - destruct (is_symbol_not_letter c Hc) as [Hl Hd].
    apply orb_false_iff in Hl. destruct Hl as [Hu Hl].
    repeat split; intros Hoff; congruence.
Qed.

(** X8. A class that is switched off is absent from the text: on draws
    of [Math.random()] and with the declared symbol string, a text left by
    [generatePassword] has no uppercase letter when uppercase is off, no
    lowercase letter when lowercase is off, no digit when numbers are off
    and no character of the symbol string when symbols are off. *)
Theorem disabled_class_absent (g : PasswordGenerator) (w : World) (d : Draws)
    (text : string) :
  this w = g -> symbols g = symbols_literal -> Forall unit_draw d ->
  generated (generatePassword w d) = Some text ->
  Forall (fun c =>
            (enabled g 0 = false -> is_upper c = false) /\
            (enabled g 1 = false -> is_lower c = false) /\
            (enabled g 2 = false -> is_digit c = false) /\
            (enabled g 3 = false -> is_symbol c = false))
         (list_ascii_of_string text).
Proof.
  intros Hw Hs Hd Hg.
  pose proof (generatePassword_output g w d Hw Hs Hd) as H.
  destruct (generatePassword w d) as [[] w1 r | e1 w1 | w1]; try discriminate.
  cbn in Hg. injection Hg as <-. destruct H as [H _].
  eapply Forall_impl; [| exact H]. intros c. apply char_ok_classes.
Qed.

Lemma disabled_class_absent_witness :
  Forall (fun c =>
            (enabled capitals_and_digits 0 = false -> is_upper c = false) /\
            (enabled capitals_and_digits 1 = false -> is_lower c = false) /\
            (enabled capitals_and_digits 2 = false -> is_digit c = false) /\
            (enabled capitals_and_digits 3 = false -> is_symbol c = false))
         (list_ascii_of_string "N5").
Proof.
  apply (disabled_class_absent capitals_and_digits
           (mkWorld capitals_and_digits [])
           [0; 1 # 2; 0; 127 # 128; 0; 0; 0; 0; 0; 127 # 128; 1 # 2; 127 # 128]%Q
           "N5" eq_refl eq_refl example_draws_unit).
  vm_compute. reflexivity.
Defined.

(** ** Configurations in which no draw is rejected *)

Lemma paired_fair (g : PasswordGenerator) (s : DrawSeq) :
  enabled g 0 = enabled g 1 -> enabled g 2 = enabled g 3 ->
  (forall i, unit_draw (s i)) -> fair g s.
Proof.
  intros H01 H23 Hs. split; intros He p; exists p; (split; [lia |]).
  - rewrite <- H01, orb_diag in He.
    pose proof (randomInt_range 1 (s p) ltac:(lia) (Hs p)) as Hr.
    assert (Hc : randomInt 1 (s p) = 0 \/ randomInt 1 (s p) = 1) by lia.
    destruct Hc as [-> | ->]; congruence.
  - rewrite H23, orb_diag in He. intros pr _. unfold accepts.
    rewrite H23, He, !andb_true_r.
    destruct (Z.leb_spec (randomInt 99 (s p)) (symbol pr)); cbn.
    + reflexivity.
    + apply Z.gtb_lt. assumption.
Qed.

(** X9. When the two letter cases are both on or both off, and numbers
    and symbols are both on or both off, no draw is ever rejected: with a
    strength of the enumeration, a call of [generatePassword] returns after
    finitely many draws on every sequence of results of [Math.random()]. *)
Theorem paired_classes_return (g : PasswordGenerator) (lvl : PasswordStrengths)
    (w : World) (s : DrawSeq) (p : nat) :
  this w = g -> strength g = ordinal lvl ->
  enabled g 0 = enabled g 1 -> enabled g 2 = enabled g 3 ->
  (forall i, unit_draw (s i)) ->
  exists k w', generatePassword w (segment s p k) = Returned tt w' [].
Proof.
  intros Hw Hstr H01 H23 Hs.
  destruct (generatePassword_halts g s (paired_fair g s H01 H23 Hs) w p Hw)
    as [k Hk].
  pose proof (generatePassword_safe g any_access (fun _ _ => I)
                (fun _ _ => I) I (fun _ _ => I) w (segment s p k)
                (Inv_any g w Hw) (segment_unit s p k Hs)) as H.
  exists k.
  destruct (generatePassword w (segment s p k)) as [[] w' rest | err w' | w'].
  - exists w'. now rewrite Hk.
  - exfalso. exact (valid_not_invalid g lvl Hstr (proj1 H)).
  - contradiction.
Qed.

Lemma paired_classes_return_witness :
  exists k w',
    generatePassword clicked (segment alternating 0 k) = Returned tt w' [].
Proof.
  exact (paired_classes_return (this clicked) veryStrong clicked alternating 0
           eq_refl eq_refl eq_refl eq_refl alternating_unit).
Defined.

(** ** The weak strength *)

Lemma letter_piece_char (g : PasswordGenerator) (t : string) :
  letter_piece g t -> exists c, t = String c "" /\ is_letter c = true.
Proof.
  intros [n [Hn Hl]].
  destruct (letter_chars n Hn) as [l [u [Hl' [Hu' [L1 [L2 [U1 U2]]]]]]].
  unfold is_letter. destruct Hl as [[_ ->] | [_ ->]].
  - exists u. now rewrite Hu', U1.
  - exists l. rewrite Hl', L1. split; [reflexivity | apply orb_true_r].
Qed.

Lemma letters_join (g : PasswordGenerator) (pieces : list string) :
  Forall (letter_piece g) pieces ->
  Forall (fun c => is_letter c = true) (list_ascii_of_string (join pieces)) /\
  String.length (join pieces) = List.length pieces.
Proof.
  intros Hf. induction Hf as [|t pieces Ht Hf [IH1 IH2]].
  - cbn. split; [constructor | reflexivity].
  - change (join (t :: pieces)) with (t ++ join pieces).
    destruct (letter_piece_char g t Ht) as [c [-> Hc]]. cbn.
    split; [constructor; assumption | now rewrite IH2].
Qed.

Lemma weak_for (g : PasswordGenerator) (n : nat) (password : string) :
  strength g = ordinal weak -> enabled g 0 || enabled g 1 = true ->
  triple g any_access (generatePassword_for n password)
         (fun r => exists pieces, List.length pieces = n /\
                     Forall (letter_piece g) pieces /\
                     r = password ++ join pieces).
Proof.
  intros Hstr Hen. revert password. induction n as [|n IH]; intros password.
  - apply triple_ret. exists []. cbn. repeat split; auto.
    now rewrite append_empty_r.
  - cbn [generatePassword_for].
    eapply triple_bind.
    { apply (chooseLetter_safe g any_access (fun _ _ => I)). }
    intros lc Hlc.
    eapply triple_bind.
    { apply (chooseNumOrSymbol_safe g any_access (fun _ _ => I) I
               (fun _ _ => I)). }
    intros ns Hns.
    eapply triple_bind; [apply triple_random |]. intros u Hu. cbn zeta.
    eapply triple_bind; [apply triple_lift, etriple_getThis |]. intros g' ->.
    eapply triple_bind.
    { apply triple_lift, (read_strengthProbs_safe g any_access I). }
    intros p Hp. rewrite Hstr in Hp. injection Hp as <-.
    destruct Hlc as [[E0 [E1 _]] | Hl].
    { rewrite E0, E1 in Hen. discriminate. }
    destruct (letter_piece_char g lc Hl) as [c [Hc _]].
    pose proof (randomInt_range 99 u ltac:(lia) Hu) as Hr.
    assert (Hsel : ((randomInt 99 u <=? letter (mkStrengthProb 90 5 100 "green"))
                    && negb (lc =? "")%string) || js_is_empty ns = true).
    { apply orb_true_iff. left. apply andb_true_iff. split.
      - apply Z.leb_le. cbn [letter]. lia.
      - rewrite Hc. reflexivity. }
    rewrite Hsel.
    eapply triple_conseq; [apply IH |].
    intros r [pieces [Hlen [Hf ->]]]. exists (lc :: pieces). cbn.
    repeat split; auto. apply append_assoc.
Qed.

(** X10. At the weak strength the letter threshold is 100 and the value
    drawn is at most 99, so a letter is taken whenever there is one: with a
    letter case switched on, a text left by [generatePassword] is made of
    letters only, one for each position, also when numbers and symbols are
    switched on; and the call does not throw. *)
Theorem weak_letters_only (g : PasswordGenerator) (w : World) (d : Draws) :
  this w = g -> strength g = ordinal weak ->
  enabled g 0 || enabled g 1 = true -> Forall unit_draw d ->
  match generatePassword w d with
  | Returned _ w' _ =>
      Forall (fun c => is_letter c = true)
             (list_ascii_of_string (passRes (dom (this w')))) /\
      String.length (passRes (dom (this w'))) = iterations (charLength g)
  | Thrown _ _ => False
  | Starved _ => True
  end.
Proof.
  intros Hw Hstr Hen Hd. unfold generatePassword. cbn.
  pose proof (weak_for g (iterations (charLength (this w))) "" Hstr Hen
                w d (Inv_any g w Hw) Hd) as H.
  destruct (generatePassword_for _ _ w d) as [r w' rest | e w' | w']; cbn.
  - destruct H as [[pieces [Hl [Hf ->]]] _]. rewrite Hw in Hl.
    rewrite <- Hl. apply (letters_join g). exact Hf.
  - exact (valid_not_invalid g weak Hstr (proj1 H)).
  - exact I.
Qed.

Lemma weak_letters_only_witness :
  generated (generatePassword (mkWorld weakest []) two_turns) = Some "Na" /\
  match generatePassword (mkWorld weakest []) two_turns with
  | Returned _ w' _ =>
      Forall (fun c => is_letter c = true)
             (list_ascii_of_string (passRes (dom (this w')))) /\
      String.length (passRes (dom (this w'))) = 2%nat
  | Thrown _ _ => False
  | Starved _ => True
  end.
Proof.
  split; [vm_compute; reflexivity |].
  exact (weak_letters_only weakest (mkWorld weakest []) two_turns
           eq_refl eq_refl eq_refl two_turns_unit).
Defined.

(** ** The length *)

(** X11. With a length that is zero, negative or NaN the loop of
    [generatePassword] has no turn: the call returns at once, whatever the
    toggles and the strength are (a strength outside the table included,
    since the table is not read), it makes no draw, and the text shown is
    empty. *)
Theorem no_length_no_text (w : World) (d : Draws) :
  (forall n, charLength (this w) = Some n -> n <= 0) ->
  exists w', generatePassword w d = Returned tt w' d /\
             passRes (dom (this w')) = "" /\
             accesses w' = accesses w.
Proof.
  intros Hn.
  assert (Hi : iterations (charLength (this w)) = O).
  { destruct (charLength (this w)) as [n|]; [| reflexivity].
    cbn. specialize (Hn n eq_refl). lia. }
  unfold generatePassword. cbn. rewrite Hi. cbn.
  eexists. repeat split.
Qed.

Lemma no_length_no_text_witness :
  exists w',
    generatePassword (mkWorld (set_charLength None weakest) []) two_turns
      = Returned tt w' two_turns /\
    passRes (dom (this w')) = "" /\ accesses w' = [].
Proof.
  apply (no_length_no_text (mkWorld (set_charLength None weakest) []) two_turns).
  intros n H. discriminate H.
Defined.

(** X12. The slider sets the length.  [setCharacterLength] never throws
    and shows the text of the slider; a call of [generatePassword] made
    next, on draws of [Math.random()] and with the declared symbol string,
    leaves a text with as many characters as the number of the slider when
    some class is switched on (none when that number is negative or NaN),
    whatever the length was before. *)
Theorem slider_sets_length (w : World) (d : Draws) :
  symbols (this w) = symbols_literal -> Forall unit_draw d ->
  fst (setCharacterLength w) = Ok tt /\
  passLength (dom (this (snd (setCharacterLength w))))
    = lengthSliderText (dom (this w)) /\
  match generatePassword (snd (setCharacterLength w)) d with
  | Returned _ w' _ =>
      ~ none_enabled (this w) ->
      String.length (passRes (dom (this w')))
        = iterations (lengthSlider (dom (this w)))
  | Thrown _ _ => invalid_strength (this w)
  | Starved _ => True
  end.
Proof.
  intros Hs Hd. split; [reflexivity |]. split; [reflexivity |].
  pose proof (generatePassword_output
                (this (snd (setCharacterLength w)))
                (snd (setCharacterLength w)) d eq_refl Hs Hd) as H.
  destruct (generatePassword (snd (setCharacterLength w)) d)
    as [[] w' rest | e w' | w']; [| exact H | exact I].
  destruct H as [_ [H _]]. exact H.
Qed.

Lemma slider_sets_length_witness :
  fst (setCharacterLength
         (mkWorld (set_dom (user_input (slide (Some 1) "1")) weakest) []))
    = Ok tt /\
  passLength (dom (this (snd (setCharacterLength
    (mkWorld (set_dom (user_input (slide (Some 1) "1")) weakest) [])))))
    = "1" /\
  match generatePassword
          (snd (setCharacterLength
             (mkWorld (set_dom (user_input (slide (Some 1) "1")) weakest) [])))
          two_turns with
  | Returned _ w' _ =>
      ~ none_enabled weakest -> String.length (passRes (dom (this w'))) = 1%nat
  | Thrown _ _ => invalid_strength weakest
  | Starved _ => True
  end.
Proof.
  exact (slider_sets_length
           (mkWorld (set_dom (user_input (slide (Some 1) "1")) weakest) [])
           two_turns eq_refl two_turns_unit).
Defined.

(** ** copyToClipboard *)

Lemma length_zero_empty (s : string) : String.length s = O -> s = "".
Proof. destruct s; [reflexivity | discriminate]. Qed.

(** X13. [copyToClipboard] after a call of [generatePassword] that
    returned (on draws of [Math.random()], with the declared symbol
    string).  When some class is switched on and the length is at least 1,
    the text shown, which has that length, is written to the clipboard and
    then the alert is shown.  When no class is on, or the length is below 1,
    the text is empty and nothing is written and no alert is shown.  The
    object and the page are not changed. *)
Theorem copy_after_generate (g : PasswordGenerator) (w w' : World)
    (d rest : Draws) :
  this w = g -> symbols g = symbols_literal -> Forall unit_draw d ->
  generatePassword w d = Returned tt w' rest ->
  exists calls,
    copyToClipboard w' = (Ok calls, w') /\
    (none_enabled g \/ iterations (charLength g) = O -> calls = []) /\
    (~ none_enabled g -> iterations (charLength g) <> O ->
     calls = [clipboard_writeText (passRes (dom (this w')));
              alert "Copied the password to clipboard!"] /\
     String.length (passRes (dom (this w'))) = iterations (charLength g)).
Proof.
  intros Hw Hs Hd Hg.
  pose proof (generatePassword_output g w d Hw Hs Hd) as H.
  rewrite Hg in H. destruct H as [_ [H1 H2]].
  unfold copyToClipboard. cbn [bind Monad_Eff getThis].
  destruct (passRes (dom (this w')) =? "")%string eqn:E.
  - exists []. apply String.eqb_eq in E.
    split; [destruct w'; reflexivity |]. split; [reflexivity |].
    intros Hn Hi. specialize (H1 Hn). rewrite E in H1. cbn in H1. congruence.
  - eexists. split; [destruct w'; reflexivity |]. split.
    + apply String.eqb_neq in E.
      intros [Hn | Hi]; [now apply H2 in Hn |].
      destruct (enabled g 0 || enabled g 1 || enabled g 2 || enabled g 3)
        eqn:En.
      * exfalso. apply E, length_zero_empty. rewrite <- Hi. apply H1.
        intros [E0 [E1 [E2 E3]]]. rewrite E0, E1, E2, E3 in En. discriminate.
      * exfalso. apply E, H2.
        apply orb_false_iff in En. destruct En as [En E3].
        apply orb_false_iff in En. destruct En as [En E2].
        apply orb_false_iff in En. destruct En as [E0 E1].
        repeat split; assumption.
    + intros Hn Hi. split; [reflexivity | exact (H1 Hn)].
Qed.

Lemma copy_after_generate_witness :
  exists calls,
    copyToClipboard capitals_and_digits_shown
      = (Ok calls, capitals_and_digits_shown) /\
    (none_enabled capitals_and_digits \/
     iterations (charLength capitals_and_digits) = O -> calls = []) /\
    (~ none_enabled capitals_and_digits ->
     iterations (charLength capitals_and_digits) <> O ->
     calls = [clipboard_writeText "N5";
              alert "Copied the password to clipboard!"] /\
     String.length "N5" = 2%nat).
Proof.
  apply (copy_after_generate capitals_and_digits
           (mkWorld capitals_and_digits []) capitals_and_digits_shown
           [0; 1 # 2; 0; 127 # 128; 0; 0; 0; 0; 0; 127 # 128; 1 # 2; 127 # 128]%Q
           [] eq_refl eq_refl example_draws_unit).
  vm_compute. reflexivity.
Defined.

(** ** Which draws give which letter *)

Lemma not_part_run (i : Z) (w : World) :
  exists w', not_part i w = (Ok (negb (enabled (this w) i)), w') /\
             this w' = this w.
Proof. eexists. split; reflexivity. Qed.

Lemma letter_while_stop (choice : Z) (w : World) (d : Draws) :
  enabled (this w) choice = true ->
  yields (chooseLetter_while choice) w d choice d.
Proof.
  intros He. destruct (not_part_run choice w) as [w1 [E1 H1]].
  exists w1. split; [| exact H1].
  unfold chooseLetter_while. rewrite while_unfold, E1, He. reflexivity.
Qed.

Lemma letter_while_run (pre : Draws) (u : Q) (rest : Draws) (choice : Z)
    (w : World) :
  enabled (this w) choice = false ->
  Forall (fun x => enabled (this w) (randomInt 1 x) = false) pre ->
  enabled (this w) (randomInt 1 u) = true ->
  yields (chooseLetter_while choice) w (pre ++ u :: rest)%list
         (randomInt 1 u) rest.
Proof.
  intros Hc Hpre Hu. revert choice w Hc Hpre Hu.
  induction pre as [|x pre IH]; intros choice w Hc Hpre Hu;
    destruct (not_part_run choice w) as [w1 [E1 H1]].
  - rewrite <- H1 in Hu.
    destruct (letter_while_stop (randomInt 1 u) w1 rest Hu) as [w2 [E2 H2]].
    exists w2. split; [| congruence].
    unfold chooseLetter_while. rewrite while_unfold, E1, Hc.
    cbn [negb app ret Monad_Eff]. exact E2.
  - inversion Hpre as [|? ? Hx Hpre']; subst. rewrite <- H1 in Hx, Hpre', Hu.
    destruct (IH (randomInt 1 x) w1 Hx Hpre' Hu) as [w2 [E2 H2]].
    exists w2. split; [| congruence].
    unfold chooseLetter_while. rewrite while_unfold, E1, Hc.
    cbn [negb app ret Monad_Eff]. exact E2.
Qed.

Lemma chooseLetter_run (pre : Draws) (u v : Q) (rest : Draws) (w : World) :
  unit_draw u ->
  Forall (fun x => enabled (this w) (randomInt 1 x) = false) pre ->
  enabled (this w) (randomInt 1 u) = true ->
  yields chooseLetter w (pre ++ u :: v :: rest)%list (letter_of u v) rest.
Proof.
  intros Hunit Hpre Hu.
  destruct (not_part_run 0 w) as [w0 [E0 H0]].
  assert (Hn : exists w1,
            (if negb (enabled (this w) 0) then not_part 1 else ret false) w0
              = (Ok (negb (enabled (this w) 0) && negb (enabled (this w) 1)), w1)
            /\ this w1 = this w).
  { destruct (enabled (this w) 0); cbn [negb andb].
    - exists w0. split; [reflexivity | exact H0].
    - destruct (not_part_run 1 w0) as [w1 [E1 H1]]. exists w1.
      rewrite E1, H0. split; [reflexivity | congruence]. }
  destruct Hn as [w1 [E1 H1]].
  assert (Hon : negb (enabled (this w) 0) && negb (enabled (this w) 1) = false).
  { pose proof (randomInt_range 1 u ltac:(lia) Hunit) as Hr.
    assert (Hc : randomInt 1 u = 0 \/ randomInt 1 u = 1) by lia.
    destruct Hc as [Hc | Hc]; rewrite Hc in Hu; rewrite Hu;
      [reflexivity | apply andb_false_r]. }
  assert (Hloop : yields (x <- random ;; chooseLetter_while (randomInt 1 x))
                         w1 (pre ++ u :: v :: rest)%list (randomInt 1 u)
                         (v :: rest)).
  { destruct pre as [|x pre]; cbn [app]; rewrite <- H1 in Hpre, Hu.
    - eapply yields_bind; [apply yields_random |]. intros w2 H2.
      apply letter_while_stop. congruence.
    - inversion Hpre as [|? ? Hx Hpre']; subst.
      eapply yields_bind; [apply yields_random |]. intros w2 H2.
      rewrite <- H2 in Hx, Hpre', Hu.
      apply letter_while_run; assumption. }
  destruct Hloop as [w2 [E2 H2]]. rewrite bind_M in E2.
  exists w2. split; [| congruence].
  unfold chooseLetter. rewrite bind_M.
  unfold lift, andE. rewrite bind_Eff, E0, E1, Hon.
  destruct (random w1 (pre ++ u :: v :: rest)%list) as [x w1' r1 | e w1' | w1']
    eqn:Er; try discriminate E2.
  rewrite bind_M, Er, bind_M, E2. reflexivity.
Qed.

(** X14. [chooseLetter], once a draw [u] picks a case that is switched on
    (after the draws [pre] that picked the other case): the result is the
    letter with code 97 + [Math.round(v * 25)], [v] the next draw, in
    lowercase when [Math.round(u)] is 1 and in uppercase otherwise: lowercase
    on every draw from 1/2 on, uppercase on every draw up to 1/2 - 2^-45.
    All 26 letters occur, but not with equal weight: the letter at index [i]
    is taken on every draw from (2i - 1)/50 up to (2i + 1)/50 - 2^-45 and on
    no draw outside (2i - 1)/50 - 2^-45 <= v < (2i + 1)/50 (the edges are
    those of the double product, within 2^-46 of the exact one), so a and z
    get about half the share of the others. *)
Theorem chooseLetter_choice (g : PasswordGenerator) (w : World) (u v : Q)
    (pre rest : Draws) :
  this w = g -> unit_draw u -> unit_draw v ->
  Forall (fun x => enabled g (randomInt 1 x) = false) pre ->
  enabled g (randomInt 1 u) = true ->
  yields chooseLetter w (pre ++ u :: v :: rest)%list
         (if randomInt 1 u =? 1 then fromCharCode (97 + randomInt 25 v)
          else toUpperCase (fromCharCode (97 + randomInt 25 v)))
         rest /\
  ((1 # 2 <= u)%Q -> randomInt 1 u = 1) /\
  ((u + slack <= 1 # 2)%Q -> randomInt 1 u = 0) /\
  (exists l c, fromCharCode (97 + randomInt 25 v) = String l "" /\
               toUpperCase (fromCharCode (97 + randomInt 25 v)) = String c "" /\
               is_lower l = true /\ is_upper c = true) /\
  (forall i, (2 * inject_Z i - 1 <= 50 * v /\
              50 * (v + slack) <= 2 * inject_Z i + 1)%Q ->
             randomInt 25 v = i) /\
  (forall i, randomInt 25 v = i ->
             (2 * inject_Z i - 1 <= 50 * (v + slack) /\
              50 * v < 2 * inject_Z i + 1)%Q).
Proof.
  intros Hw Hu Hv Hpre He. subst g.
  split; [exact (chooseLetter_run pre u v rest w Hu Hpre He) |].
  assert (Hs : (slack <= 1 # 4)%Q) by (vm_compute; discriminate).
  split; [| split; [| split; [| split]]].
  - intros H. apply randomInt_inside; [lia | exact Hu |].
    change (inject_Z 1) with 1%Q. destruct Hu. split; lra.
  - intros H. apply randomInt_inside; [lia | exact Hu |].
    change (inject_Z 1) with 1%Q. change (inject_Z 0) with 0%Q.
    destruct Hu. split; lra.
  - destruct (letter_chars (randomInt 25 v)
                (randomInt_range 25 v ltac:(lia) Hv))
      as [l [c [Hl [Hc [L1 [_ [U1 _]]]]]]].
    exists l, c. auto.
  - intros i [H1 H2]. apply randomInt_inside; [lia | exact Hv |].
    change (inject_Z 25) with (25 # 1)%Q. split; lra.
  - intros i Hi. apply (randomInt_outside 25 i v ltac:(lia) Hv) in Hi.
    change (inject_Z 25) with (25 # 1)%Q in Hi. destruct Hi. split; lra.
Qed.

Lemma chooseLetter_choice_witness :
  yields chooseLetter (mkWorld uppercase_only []) [7 # 8; 0; 1 # 2]%Q "N" [].
Proof.
  exact (proj1 (chooseLetter_choice uppercase_only
                  (mkWorld uppercase_only []) 0 (1 # 2) [(7 # 8)%Q] []
                  eq_refl ltac:(split; lra) ltac:(split; lra)
                  ltac:(apply Forall_cons; [reflexivity | apply Forall_nil]) eq_refl)).
Defined.

(** ** A letter or the other character *)

Lemma letter_inside (lvl : PasswordStrengths) (sel : Q) :
  unit_draw sel -> (sel + slack <= letterProbability lvl)%Q ->
  (randomInt 99 sel <=? letter (profile lvl)) = true.
Proof.
  intros Hu H. apply Z.leb_le.
  apply randomInt_at_most_inside; [lia | exact Hu |].
  change (inject_Z 99) with (99 # 1)%Q.
  destruct lvl.
  - change (letterProbability weak) with (201 # 198)%Q in H.
    change (inject_Z (letter (profile weak))) with (100 # 1)%Q. lra.
  - change (letterProbability medium) with (151 # 198)%Q in H.
    change (inject_Z (letter (profile medium))) with (75 # 1)%Q. lra.
  - change (letterProbability strong) with (61 # 198)%Q in H.
    change (inject_Z (letter (profile strong))) with (30 # 1)%Q. lra.
  - change (letterProbability veryStrong) with (21 # 198)%Q in H.
    change (inject_Z (letter (profile veryStrong))) with (10 # 1)%Q. lra.
Qed.

Lemma letter_outside (lvl : PasswordStrengths) (sel : Q) :
  unit_draw sel -> (randomInt 99 sel <=? letter (profile lvl)) = true ->
  (sel < letterProbability lvl)%Q.
Proof.
  intros Hu H. apply Z.leb_le in H.
  apply (randomInt_at_most_outside 99 _ sel ltac:(lia) Hu) in H.
  change (inject_Z 99) with (99 # 1)%Q in H.
  destruct lvl.
  - change (letterProbability weak) with (201 # 198)%Q.
    change (inject_Z (letter (profile weak))) with (100 # 1)%Q in H. lra.
  - change (letterProbability medium) with (151 # 198)%Q.
    change (inject_Z (letter (profile medium))) with (75 # 1)%Q in H. lra.
  - change (letterProbability strong) with (61 # 198)%Q.
    change (inject_Z (letter (profile strong))) with (30 # 1)%Q in H. lra.
  - change (letterProbability veryStrong) with (21 # 198)%Q.
    change (inject_Z (letter (profile veryStrong))) with (10 # 1)%Q in H. lra.
Qed.

Lemma letter_of_not_empty (u v : Q) : (letter_of u v =? "")%string = false.
Proof. unfold letter_of. cbv zeta. destruct (randomInt 1 u =? 1); reflexivity. Qed.

(** One turn of the loop of [generatePassword] when a letter case and one
    of numbers and symbols are switched on. *)
Lemma position_turn (g : PasswordGenerator) (lvl : PasswordStrengths)
    (w : World) (preL preN : Draws) (uL vL u0 u v sel : Q) (rest : Draws)
    (n : nat) (password : string) :
  this w = g -> strength g = ordinal lvl -> symbols g = symbols_literal ->
  unit_draw uL -> unit_draw v ->
  Forall (fun x => enabled g (randomInt 1 x) = false) preL ->
  enabled g (randomInt 1 uL) = true ->
  Forall (fun x => accepts (profile lvl) g (randomInt 99 x) = false) preN ->
  accepts (profile lvl) g (randomInt 99 u) = true ->
  exists w',
    generatePassword_for (S n) password w
      (preL ++ uL :: vL :: u0 :: preN ++ u :: v :: sel :: rest)%list
    = generatePassword_for n
        (password ++ (if randomInt 99 sel <=? letter (profile lvl)
                      then letter_of uL vL
                      else js_text (numOrSymbol_of lvl u v)))
        w' rest /\
    this w' = g.
Proof.
  intros Hw Hstr Hsym HuL Hv HpreL HeL HpreN HeN. subst g.
  destruct (chooseLetter_run preL uL vL
              (u0 :: preN ++ u :: v :: sel :: rest)%list w HuL HpreL HeL)
    as [w1 [E1 H1]].
  destruct (numOrSymbol_run (this w) lvl Hstr Hsym u0 u v preN (sel :: rest)
              w1 H1 HpreN HeN) as [w2 [E2 H2]].
  assert (Hw2 : this w2 = this w) by congruence.
  destruct (exact_value (this w) lvl Hstr _ _ w2
              (read_strengthProbs_exact (this w) lvl Hstr) Hw2)
    as [w3 [E3 Hw3]].
  destruct (numOrSymbol_char lvl u v Hv) as [c [Hc _]].
  exists w3. split; [| exact Hw3].
  cbn [generatePassword_for]. rewrite bind_M, E1. cbv beta iota.
  rewrite bind_M, E2. cbv beta iota.
  rewrite bind_M. cbn [random]. cbv beta iota zeta.
  rewrite bind_M. unfold lift at 1. cbn [getThis]. cbv beta iota.
  rewrite bind_M. unfold lift at 1. rewrite Hw2, E3. cbv beta iota.
  rewrite Hc, letter_of_not_empty.
  cbn [js_is_empty js_text String.eqb negb andb orb].
  rewrite andb_true_r, orb_false_r.
  destruct (randomInt 99 sel <=? letter (profile lvl)); reflexivity.
Qed.

(** X15. One position of the password when a letter case and one of
    numbers and symbols are switched on.  [chooseLetter] and
    [chooseNumOrSymbol] are both run (their draws are made whichever result
    is kept), then one more draw [sel] decides: the letter is appended when
    [Math.round(sel * 99)] is at most the letter percentage of the strength,
    and the number or symbol otherwise: the letter on every draw up to
    (2 * letter + 1)/198 - 2^-45, the other character on every draw from
    (2 * letter + 1)/198 on.  That bound is above 1 at weak (always the
    letter), 151/198 at medium, 61/198 at strong and 21/198 at
    veryStrong. *)
Theorem position_choice (g : PasswordGenerator) (lvl : PasswordStrengths)
    (w : World) (preL preN : Draws) (uL vL u0 u v sel : Q) (rest : Draws)
    (n : nat) (password : string) :
  this w = g -> strength g = ordinal lvl -> symbols g = symbols_literal ->
  unit_draw uL -> unit_draw v -> unit_draw sel ->
  Forall (fun x => enabled g (randomInt 1 x) = false) preL ->
  enabled g (randomInt 1 uL) = true ->
  Forall (fun x => accepts (profile lvl) g (randomInt 99 x) = false) preN ->
  accepts (profile lvl) g (randomInt 99 u) = true ->
  (exists w',
     generatePassword_for (S n) password w
       (preL ++ uL :: vL :: u0 :: preN ++ u :: v :: sel :: rest)%list
     = generatePassword_for n
         (password ++ (if randomInt 99 sel <=? letter (profile lvl)
                       then letter_of uL vL
                       else js_text (numOrSymbol_of lvl u v)))
         w' rest /\
     this w' = g) /\
  ((sel + slack <= letterProbability lvl)%Q ->
   (randomInt 99 sel <=? letter (profile lvl)) = true) /\
  ((letterProbability lvl <= sel)%Q ->
   (randomInt 99 sel <=? letter (profile lvl)) = false) /\
  (1 < letterProbability weak /\ letterProbability medium == 151 # 198 /\
   letterProbability strong == 61 # 198 /\
   letterProbability veryStrong == 21 # 198)%Q.
Proof.
  intros Hw Hstr Hsym HuL Hv Hsel HpreL HeL HpreN HeN.
  split; [exact (position_turn g lvl w preL preN uL vL u0 u v sel rest n
                   password Hw Hstr Hsym HuL Hv HpreL HeL HpreN HeN) |].
  split; [apply letter_inside; exact Hsel |].
  split; [| repeat split].
  intros H.
  destruct (randomInt 99 sel <=? letter (profile lvl)) eqn:E; [| reflexivity].
  apply (letter_outside lvl sel Hsel) in E. lra.
Qed.

Lemma position_choice_witness :
  exists w',
    generatePassword_for 1 "" (mkWorld capitals_and_digits [])
      [7 # 8; 0; 1 # 2; 0; 0; 127 # 128; 1 # 2; 127 # 128]%Q
    = generatePassword_for 0 "5" w' [] /\
    this w' = capitals_and_digits.
Proof.
  exact (proj1 (position_choice capitals_and_digits medium
                  (mkWorld capitals_and_digits [])
                  [(7 # 8)%Q] [0%Q] 0 (1 # 2) 0 (127 # 128) (1 # 2) (127 # 128)
                  [] O "" eq_refl eq_refl eq_refl
                  ltac:(split; lra) ltac:(split; lra) ltac:(split; lra)
                  ltac:(apply Forall_cons; [reflexivity | apply Forall_nil]) eq_refl
                  ltac:(apply Forall_cons; [reflexivity | apply Forall_nil]) eq_refl)).
Defined.

(** ** From the checkboxes to the text *)




(** ** Draws that are all rejected *)

Lemma letter_while_starved (d : Draws) (choice : Z) (w : World) :
  enabled (this w) choice = false ->
  Forall (fun x => enabled (this w) (randomInt 1 x) = false) d ->
  ended (chooseLetter_while choice w d) = false.
Proof.
  revert choice w. induction d as [|x d IH]; intros choice w Hc Hd;
    destruct (not_part_run choice w) as [w1 [E1 H1]];
    unfold chooseLetter_while; rewrite while_unfold, E1, Hc;
    cbn [negb ret Monad_Eff].
  - reflexivity.
  - inversion Hd as [|? ? Hx Hd']; subst. rewrite <- H1 in Hx, Hd'.
    exact (IH (randomInt 1 x) w1 Hx Hd').
Qed.

Lemma chooseLetter_starved (d : Draws) (w : World) :
  enabled (this w) 0 || enabled (this w) 1 = true ->
  Forall (fun x => enabled (this w) (randomInt 1 x) = false) d ->
  ended (chooseLetter w d) = false.
Proof.
  intros Hen Hd.
  destruct (not_part_run 0 w) as [w0 [E0 H0]].
  assert (Hn : exists w1,
            (if negb (enabled (this w) 0) then not_part 1 else ret false) w0
              = (Ok false, w1) /\ this w1 = this w).
  { destruct (enabled (this w) 0); cbn [negb].
    - exists w0. split; [reflexivity | exact H0].
    - destruct (not_part_run 1 w0) as [w1 [E1 H1]]. exists w1.
      rewrite E1, H0. cbn in Hen. rewrite Hen.
      split; [reflexivity | congruence]. }
  destruct Hn as [w1 [E1 H1]].
  unfold chooseLetter. rewrite bind_M. unfold lift, andE.
  rewrite bind_Eff, E0, E1.
  destruct d as [|x d]; [reflexivity |].
  inversion Hd as [|? ? Hx Hd']; subst. rewrite <- H1 in Hx, Hd'.
  rewrite bind_M. cbn [random]. rewrite bind_M.
  pose proof (letter_while_starved d (randomInt 1 x) w1 Hx Hd') as Hs.
  destruct (chooseLetter_while (randomInt 1 x) w1 d); [discriminate Hs | discriminate Hs | reflexivity].
Qed.

Lemma numOrSymbol_while_starved (g : PasswordGenerator)
    (lvl : PasswordStrengths) (d : Draws) (choice : Z) (w : World) :
  strength g = ordinal lvl -> this w = g ->
  Forall (fun x => accepts (profile lvl) g (randomInt 99 x) = false) d ->
  ended (chooseNumOrSymbol_while choice w d) = false.
Proof.
  intros Hstr. unfold chooseNumOrSymbol_while. revert choice w.
  induction d as [|x d IH]; intros choice w Hw Hd;
    rewrite while_unfold; cbn [ret Monad_Eff snd negb].
  - reflexivity.
  - inversion Hd as [|? ? Hx Hd']; subst.
    destruct (exact_value (this w) lvl Hstr _ _ w
                (accepted_exact (this w) lvl Hstr (randomInt 99 x)) eq_refl)
      as [w1 [E1 Hw1]].
    cbv zeta. rewrite bind_Eff, E1, Hx. cbn [ret Monad_Eff].
    exact (IH (randomInt 99 x) w1 Hw1 Hd').
Qed.

Lemma chooseNumOrSymbol_starved (g : PasswordGenerator)
    (lvl : PasswordStrengths) (u0 : Q) (d : Draws) (w : World) :
  strength g = ordinal lvl -> this w = g ->
  enabled g 2 || enabled g 3 = true ->
  Forall (fun x => accepts (profile lvl) g (randomInt 99 x) = false) d ->
  ended (chooseNumOrSymbol w (u0 :: d)) = false.
Proof.
  intros Hstr Hw Hen Hd. subst g.
  destruct (not_part_run 2 w) as [w0 [E0 H0]].
  assert (Hn : exists w1,
            (if negb (enabled (this w) 2) then not_part 3 else ret false) w0
              = (Ok false, w1) /\ this w1 = this w).
  { destruct (enabled (this w) 2); cbn [negb].
    - exists w0. split; [reflexivity | exact H0].
    - destruct (not_part_run 3 w0) as [w1 [E1 H1]]. exists w1.
      rewrite E1, H0. cbn in Hen. rewrite Hen.
      split; [reflexivity | congruence]. }
  destruct Hn as [w1 [E1 H1]].
  unfold chooseNumOrSymbol. rewrite bind_M. cbn [random].
  rewrite bind_M. unfold lift at 1. unfold andE.
  rewrite bind_Eff, E0, E1. rewrite bind_M.
  pose proof (numOrSymbol_while_starved (this w) lvl d (randomInt 99 u0) w1
                Hstr H1 Hd) as Hs.
  destruct (chooseNumOrSymbol_while (randomInt 99 u0) w1 d);
    [discriminate Hs | discriminate Hs | reflexivity].
Qed.

Lemma then_starved {A B : Type} (m : M A) (k : A -> M B) (w : World)
    (d : Draws) :
  ended (m w d) = false -> ended (bind m k w d) = false.
Proof.
  intros H. rewrite bind_M.
  destruct (m w d); [discriminate H | discriminate H | reflexivity].
Qed.

(** X17. A sampling loop does not end before a draw is accepted.  With a
    letter case switched on, on draws that all pick a case that is off,
    [chooseLetter] is still drawing when the draws end, however many there
    are, and so is [generatePassword] when the length is at least 1.  With
    numbers or symbols switched on and a strength of the enumeration, on
    draws whose values all fall on the side of the class that is off,
    [chooseNumOrSymbol] is still drawing, and so is [generatePassword] when
    the letter cases are off and the length is at least 1. *)
Theorem rejected_draws_never_return (g : PasswordGenerator)
    (lvl : PasswordStrengths) (w : World) (u0 : Q) (d : Draws) :
  this w = g -> strength g = ordinal lvl ->
  (enabled g 0 || enabled g 1 = true ->
   Forall (fun x => enabled g (randomInt 1 x) = false) d ->
   ended (chooseLetter w d) = false /\
   (iterations (charLength g) <> O -> ended (generatePassword w d) = false)) /\
  (enabled g 2 || enabled g 3 = true ->
   Forall (fun x => accepts (profile lvl) g (randomInt 99 x) = false) d ->
   ended (chooseNumOrSymbol w (u0 :: d)) = false /\
   (enabled g 0 || enabled g 1 = false -> iterations (charLength g) <> O ->
    ended (generatePassword w (u0 :: d)) = false)).
Proof.
  intros Hw Hstr. subst g. split.
  - intros Hen Hd.
    pose proof (chooseLetter_starved d w Hen Hd) as Hs.
    split; [exact Hs |]. intros Hn.
    unfold generatePassword. rewrite bind_M. unfold lift at 1.
    cbn [getThis]. apply then_starved.
    destruct (iterations (charLength (this w))) as [|n]; [congruence |].
    cbn [generatePassword_for]. apply then_starved. exact Hs.
  - intros Hen Hd.
    split; [exact (chooseNumOrSymbol_starved (this w) lvl u0 d w Hstr eq_refl
                     Hen Hd) |].
    intros Hoff Hn.
    unfold generatePassword. rewrite bind_M. unfold lift at 1.
    cbn [getThis]. apply then_starved.
    destruct (iterations (charLength (this w))) as [|n]; [congruence |].
    cbn [generatePassword_for]. rewrite bind_M.
    apply orb_false_iff in Hoff. destruct Hoff as [E0 E1].
    destruct (not_part_run 0 w) as [w0 [F0 H0]].
    destruct (not_part_run 1 w0) as [w1 [F1 H1]].
    assert (Hl : chooseLetter w (u0 :: d) = Returned "" w1 (u0 :: d)).
    { unfold chooseLetter. rewrite bind_M. unfold lift, andE.
      rewrite bind_Eff, F0, E0. cbn [negb]. rewrite F1, H0, E1. reflexivity. }
    rewrite Hl. apply then_starved.
    apply (chooseNumOrSymbol_starved (this w) lvl u0 d w1 Hstr);
      [congruence | exact Hen | exact Hd].
Qed.

Lemma rejected_draws_never_return_witness :
  ended (chooseLetter (mkWorld uppercase_only [])
           [7 # 8; 7 # 8; 7 # 8]%Q) = false /\
  ended (generatePassword (mkWorld uppercase_only [])
           [7 # 8; 7 # 8; 7 # 8]%Q) = false.
Proof.
  destruct (proj1 (rejected_draws_never_return uppercase_only medium
                     (mkWorld uppercase_only []) 0
                     [7 # 8; 7 # 8; 7 # 8]%Q eq_refl eq_refl)
              eq_refl
              ltac:(repeat (apply Forall_cons; [reflexivity |]);
                    apply Forall_nil)) as [H1 H2].
  split; [exact H1 | apply H2; discriminate].
Defined.
